(** * Dependency-graph core of the code visualizer

    A shallow embedding of the analysis core of the extension:
    - [CodeScanner] (file collection),
    - [DependencyGraph] (extraction, path resolution, graph assembly,
      cycle detection),
    - the command body of [activate] that chains the two.

    Strings are [string], in UTF-8 (the form in which the literals of this
    file are read); lengths and positions are counted in UTF-16 code
    units, as JavaScript counts them. JavaScript arrays are lists; the
    [Set]s and the key-value [Map]s of the source are [gset] and [gmap];
    the insertion-ordered alias [Map] is an association list. *)

From Stdlib Require Import Ascii String.
From stdpp Require Import gmap strings list fin_maps sorting.

Open Scope string_scope.
Open Scope list_scope.

Set Warnings "-register-all,-clear-no-such-hyp".

(** ** JavaScript string primitives used by the source *)

Module Js.

(** The number of UTF-16 code units that a byte of a UTF-8 text stands
    for: a character of one to three bytes is one code unit, a character
    of four bytes (first byte 11110xxx) is a surrogate pair, and the bytes
    10xxxxxx that continue a character add nothing. *)
Definition codeUnits (c : ascii) : nat :=
  let b := nat_of_ascii c in
  if (b <? 128)%nat then 1
  else if (b <? 192)%nat then 0
  else if (b <? 240)%nat then 1
  else 2.

(** [s.length] *)
Fixpoint length (s : string) : nat :=
  match s with
  | EmptyString => 0
  | String c s' => codeUnits c + length s'
  end.

(** [s.substring(0, index)]: the characters that start before the code
    unit [index], each with the bytes that continue it. *)
Fixpoint substring_to (index : nat) (s : string) : string :=
  match s with
  | EmptyString => EmptyString
  | String c s' =>
      match codeUnits c, index with
      | O, _ => String c (substring_to index s')
      | S _, O => EmptyString
      | S k, S _ => String c (substring_to (index - S k) s')
      end
  end.

(** [s.startsWith(p)] *)
Definition startsWith (s p : string) : bool := String.prefix p s.

(** [s.slice(n)] *)
Fixpoint drop_chars (n : nat) (s : string) : string :=
  match n, s with
  | O, _ => s
  | S n', String _ s' => drop_chars n' s'
  | S _, EmptyString => EmptyString
  end.

(** The first occurrence of [pat] in [s]: the text before it and the text
    after it. *)
Fixpoint split_at_first (pat s : string) : option (string * string) :=
  if String.prefix pat s then Some (EmptyString, drop_chars (String.length pat) s)
  else match s with
       | EmptyString => None
       | String c s' =>
           match split_at_first pat s' with
           | Some (b, a) => Some (String c b, a)
           | None => None
           end
       end.

(** Expansion of the replacement text of [String.prototype.replace] when the
    pattern is a string (no capture groups): [$$], [$&], [$`] and [$']. *)
Fixpoint expand_replacement (before matched after rep : string) : string :=
  match rep with
  | EmptyString => EmptyString
  | String "$" (String "$" r) => String "$" (expand_replacement before matched after r)
  | String "$" (String "&" r) => matched +:+ expand_replacement before matched after r
  | String "$" (String "`" r) => before +:+ expand_replacement before matched after r
  | String "$" (String "'" r) => after +:+ expand_replacement before matched after r
  | String c r => String c (expand_replacement before matched after r)
  end.

(** [s.replace(pat, rep)] with a string pattern: only the first occurrence
    is replaced. *)
Definition replace (s pat rep : string) : string :=
  match split_at_first pat s with
  | Some (b, a) => b +:+ expand_replacement b pat a rep +:+ a
  | None => s
  end.

(** [s.replace(/pat/g, rep)] for a pattern that is a non-empty literal text
    without capture groups: every match, from left to right, is replaced
    by the expansion of [rep], in which [$`] and [$'] stand for the text of
    [s] before and after the match. [before] is the text already passed;
    [skip] counts the characters of the current match still to pass. *)
Fixpoint replace_every (pat rep before : string) (skip : nat) (s : string) : string :=
  match s with
  | EmptyString => EmptyString
  | String c s' =>
      match skip with
      | S k => replace_every pat rep (before +:+ String c "") k s'
      | O =>
          if String.prefix pat s then
            expand_replacement before pat (drop_chars (String.length pat) s) rep
            +:+ replace_every pat rep (before +:+ String c "") (String.length pat - 1) s'
          else String c (replace_every pat rep (before +:+ String c "") 0 s')
      end
  end.

Definition replaceAll (s pat rep : string) : string := replace_every pat rep "" 0 s.

(** [s.replace(/\\/g, '/')] *)
Fixpoint backslashes_to_slashes (s : string) : string :=
  match s with
  | EmptyString => EmptyString
  | String c s' =>
      String (if Ascii.eqb c "\"%char then "/"%char else c) (backslashes_to_slashes s')
  end.

(** [s.replace(/::/g, '/')] *)
Fixpoint colons_to_slashes (s : string) : string :=
  match s with
  | EmptyString => EmptyString
  | String ":" (String ":" r) => String "/" (colons_to_slashes r)
  | String c r => String c (colons_to_slashes r)
  end.

(** [s.split(sep)] for a one-character separator. The result is never
    empty: [''.split(sep)] is [['']]. *)
Fixpoint split (sep : ascii) (s : string) : list string :=
  match s with
  | EmptyString => [EmptyString]
  | String c s' =>
      if Ascii.eqb c sep then EmptyString :: split sep s'
      else match split sep s' with
           | h :: t => String c h :: t
           | [] => [String c EmptyString]
           end
  end.

(** [a.join(sep)] *)
Definition join (sep : string) (l : list string) : string := String.concat sep l.

(** Truthiness of a string: the empty string is falsy. *)
Definition truthy (s : string) : bool := negb (String.eqb s "").

(** The order of the default [Array.prototype.sort] on strings (code unit
    order; on the bytes of an ASCII string). *)
Definition str_le (a b : string) : Prop := String.leb a b = true.

#[export] Instance str_le_dec a b : Decision (str_le a b).
Proof. unfold str_le. apply _. Defined.

(** [a.sort()] seen as a value: the sorted array. *)
Definition sort (l : list string) : list string := merge_sort str_le l.

End Js.

(** ** The functions of Node's [path] module that the source calls (POSIX) *)

Module Path.

Definition sep : ascii := "/"%char.

Definition nonempty (s : string) : bool := negb (String.eqb s "").

(** [normalizeString]: drop empty and [.] segments, resolve [..]. [acc] is
    the reversed output so far. *)
Fixpoint normalizeSegments (allowAboveRoot : bool) (acc l : list string) : list string :=
  match l with
  | [] => rev acc
  | seg :: l' =>
      if String.eqb seg "" || String.eqb seg "." then normalizeSegments allowAboveRoot acc l'
      else if String.eqb seg ".." then
        match acc with
        | last :: acc' =>
            if String.eqb last ".." then
              normalizeSegments allowAboveRoot (if allowAboveRoot then ".." :: acc else acc) l'
            else normalizeSegments allowAboveRoot acc' l'
        | [] => normalizeSegments allowAboveRoot (if allowAboveRoot then [".."] else []) l'
        end
      else normalizeSegments allowAboveRoot (seg :: acc) l'
  end.

Definition isAbsolute (p : string) : bool := Js.startsWith p "/".

Definition endsWithSlash (p : string) : bool :=
  match rev (list_ascii_of_string p) with
  | c :: _ => Ascii.eqb c sep
  | [] => false
  end.

(** [path.normalize] *)
Definition normalize (p : string) : string :=
  if String.eqb p "" then "."
  else
    let abs := isAbsolute p in
    let body := Js.join "/" (normalizeSegments (negb abs) [] (Js.split sep p)) in
    if String.eqb body "" then
      if abs then "/" else if endsWithSlash p then "./" else "."
    else
      let body := if endsWithSlash p then body +:+ "/" else body in
      if abs then "/" +:+ body else body.

(** [path.join(...parts)] *)
Definition join (parts : list string) : string :=
  let joined := Js.join "/" (filter (λ s, nonempty s = true) parts) in
  if String.eqb joined "" then "." else normalize joined.

(** [path.resolve(a, b)]; [cwd] is the working directory of the process,
    consulted only when neither argument is absolute. *)
Definition resolve (cwd a b : string) : string :=
  let raw :=
    if isAbsolute b then b
    else if isAbsolute a then a +:+ "/" +:+ b
    else cwd +:+ "/" +:+ a +:+ "/" +:+ b in
  let abs := isAbsolute raw in
  let body := Js.join "/" (normalizeSegments (negb abs) [] (Js.split sep raw)) in
  if abs then "/" +:+ body
  else if String.eqb body "" then "." else body.

Fixpoint strip_common (f t : list string) : list string * list string :=
  match f, t with
  | x :: f', y :: t' => if String.eqb x y then strip_common f' t' else (f, t)
  | _, _ => (f, t)
  end.

Definition segments (p : string) : list string :=
  filter (λ s, nonempty s = true) (Js.split sep p).

(** [path.relative(from, to)] *)
Definition relative (cwd from to : string) : string :=
  if String.eqb from to then ""
  else
    let from' := resolve cwd from "" in
    let to' := resolve cwd to "" in
    if String.eqb from' to' then ""
    else
      let '(f, t) := strip_common (segments from') (segments to') in
      Js.join "/" (map (λ _, "..") f ++ t).

(** [path.basename(p)]: the last non-empty segment. *)
Definition basename (p : string) : string := List.last (segments p) "".

Fixpoint drop_while (f : ascii → bool) (l : list ascii) : list ascii :=
  match l with
  | c :: l' => if f c then drop_while f l' else l
  | [] => []
  end.

Definition is_slash (c : ascii) : bool := Ascii.eqb c sep.

(** [path.dirname(p)]: the scan runs from the last character down to the
    second one, skips trailing slashes, then the last segment, and cuts at
    the slash it meets. *)
Definition dirname (p : string) : string :=
  match list_ascii_of_string p with
  | [] => "."
  | c0 :: rest =>
      let hasRoot := is_slash c0 in
      match drop_while (λ c, negb (is_slash c)) (drop_while is_slash (rev rest)) with
      | [] => if hasRoot then "/" else "."
      | _ :: before =>
          if hasRoot && Nat.eqb (List.length before) 0 then "//"
          else string_of_list_ascii (c0 :: rev before)
      end
  end.

(** Scanning from the right: the characters up to and including the first
    dot met, and what is left of it. *)
Fixpoint take_until_dot (r : list ascii) : option (list ascii * list ascii) :=
  match r with
  | [] => None
  | c :: r' =>
      if Ascii.eqb c "."%char then Some ([c], r')
      else match take_until_dot r' with
           | Some (e, pre) => Some (c :: e, pre)
           | None => None
           end
  end.

(** [path.extname(p)]: from the last dot of the last segment, unless that
    dot is the segment's first character or the segment is [..]. *)
Definition extname (p : string) : string :=
  let b := basename p in
  let r := rev (list_ascii_of_string b) in
  let ext_rev := take_until_dot r in
  match ext_rev with
  | None => ""
  | Some (e, pre) =>
      if Nat.eqb (List.length pre) 0 then ""
      else if String.eqb b ".." then ""
      else string_of_list_ascii (rev e)
  end.

End Path.

(** ** CodeScanner: the file collector *)

Module Scanner.

Record CodeFile := {
  path : string;
  relativePath : string;
  content : string;
  language : string
}.

Definition supportedExtensions : list string :=
  [".ts"; ".tsx"; ".js"; ".jsx"; ".py"; ".java"; ".cs"; ".cpp"; ".c"; ".h"; ".hpp";
   ".go"; ".rs"; ".rb"; ".php"; ".swift"; ".kt"; ".scala"; ".dart"; ".vue"; ".svelte"].

Definition ignorePatterns : list string :=
  ["node_modules"; ".git"; "dist"; "build"; ".vscode"; "out"; "bin"; "obj";
   "__pycache__"; ".next"; ".cache"].

(** [a.includes(x)] on an array of strings *)
Definition includes (a : list string) (x : string) : bool := existsb (String.eqb x) a.

Definition shouldIgnore (relativePath : string) : bool :=
  let parts := Js.split Path.sep relativePath in
  existsb (λ pattern, includes parts pattern) ignorePatterns.

Definition languageMap : list (string * string) :=
  [(".ts", "typescript"); (".tsx", "typescript"); (".js", "javascript");
   (".jsx", "javascript"); (".py", "python"); (".java", "java"); (".cs", "csharp");
   (".cpp", "cpp"); (".c", "c"); (".h", "c"); (".hpp", "cpp"); (".go", "go");
   (".rs", "rust"); (".rb", "ruby"); (".php", "php"); (".swift", "swift");
   (".kt", "kotlin"); (".scala", "scala"); (".dart", "dart"); (".vue", "vue");
   (".svelte", "svelte")].

Fixpoint table_get {V : Type} (table : list (string * V)) (key : string) : option V :=
  match table with
  | [] => None
  | (k, v) :: rest => if String.eqb k key then Some v else table_get rest key
  end.

Definition getLanguageFromExtension (ext : string) : string :=
  default "unknown" (table_get languageMap ext).

(** What [readdir(dir, {withFileTypes: true})] and [readFile] observe: a
    directory entry is a regular file (whose read yields its text or
    rejects), a directory (whose listing is available or rejects), or
    something that is neither ([isFile()] and [isDirectory()] both false). *)
Inductive Entry :=
| File (name : string) (text : option string)
| Dir (name : string) (listing : option (list Entry))
| Other (name : string).

Definition entry_name (e : Entry) : string :=
  match e with
  | File name _ | Dir name _ | Other name => name
  end.

(** A call either returns or throws (a rejected promise under [await]). The
    thrown value is the directory that could not be listed. *)
Inductive Outcome (A : Type) :=
| Returned (a : A)
| Thrown (dir : string).
Arguments Returned {A} a.
Arguments Thrown {A} dir.

Section Scan.
Variable cwd : string.
Variable rootPath : string.

(** One iteration of the [for (const entry of entries)] loop of
    [scanDirectory]; the recursive call on a sub-directory is inlined (its
    [readdir] first, then its own loop). [files] is the shared accumulator
    array. *)
Fixpoint scanEntry (currentPath : string) (entry : Entry) (files : list CodeFile)
    {struct entry} : Outcome (list CodeFile) :=
  let fullPath := Path.join [currentPath; entry_name entry] in
  let relativePath := Path.relative cwd rootPath fullPath in
  if shouldIgnore relativePath then Returned files
  else
    match entry with
    | Dir _ listing =>
        match listing with
        | None => Thrown fullPath
        | Some entries =>
            (fix loop (entries : list Entry) (files : list CodeFile) : Outcome (list CodeFile) :=
               match entries with
               | [] => Returned files
               | e :: rest =>
                   match scanEntry fullPath e files with
                   | Returned files' => loop rest files'
                   | Thrown d => Thrown d
                   end
               end) entries files
        end
    | File name text =>
        let ext := Path.extname name in
        if includes supportedExtensions ext then
          match text with
          | Some content =>
              Returned (files ++ [{| path := fullPath; relativePath := relativePath;
                                     content := content;
                                     language := getLanguageFromExtension ext |}])
          | None => Returned files (* caught: the file is skipped with a warning *)
          end
        else Returned files
    | Other _ => Returned files
    end.

Fixpoint scanEntries (currentPath : string) (entries : list Entry) (files : list CodeFile)
    : Outcome (list CodeFile) :=
  match entries with
  | [] => Returned files
  | e :: rest =>
      match scanEntry currentPath e files with
      | Returned files' => scanEntries currentPath rest files'
      | Thrown d => Thrown d
      end
  end.

Definition scanDirectory (currentPath : string) (listing : option (list Entry))
    (files : list CodeFile) : Outcome (list CodeFile) :=
  match listing with
  | None => Thrown currentPath
  | Some entries => scanEntries currentPath entries files
  end.

End Scan.

(** [scanWorkspace(workspacePath)]; [listing] is what the workspace
    directory holds. *)
Definition scanWorkspace (cwd workspacePath : string) (listing : option (list Entry))
    : Outcome (list CodeFile) :=
  scanDirectory cwd workspacePath workspacePath listing [].

End Scanner.

(** ** DependencyGraph: extraction, resolution, assembly, cycle detection *)

Module Graph.

Export Scanner.

(** Optional fields ([size?: number] and the like) are [option]s; the field
    names carry the record's initial because [path], [language] and
    [isCircular] occur in several interfaces. *)
Record GraphNode := {
  n_id : string;
  n_label : string;
  n_path : string;
  n_language : string;
  n_size : option nat;
  n_group : option nat;
  n_lineCount : option nat;
  n_dependencyCount : option nat;
  n_dependentCount : option nat;
  n_isCircular : option bool
}.

Inductive DependencyType :=
| TImport | TRequire | TDynamicImport | TInclude | TUsing | TFrom | TExport.

Definition type_text (t : DependencyType) : string :=
  match t with
  | TImport => "import" | TRequire => "require" | TDynamicImport => "dynamic-import"
  | TInclude => "include" | TUsing => "using" | TFrom => "from" | TExport => "export"
  end.

Record GraphEdge := {
  e_from : string;
  e_to : string;
  e_value : nat;
  e_title : option string;
  e_type : option DependencyType;
  e_count : option nat;
  e_isCircular : option bool
}.

Record Statistics := {
  totalNodes : nat;
  totalEdges : nat;
  languages : list string;
  circularCount : nat;
  maxDependencies : nat;
  maxDependents : nat
}.

Record GraphData := {
  nodes : list GraphNode;
  edges : list GraphEdge;
  circularDependencies : list (list string);
  statistics : Statistics
}.

Record DependencyInfo := {
  d_path : string;
  d_type : DependencyType;
  d_lineNumber : option nat
}.

(** *** What the class reads from outside *)

(** The regular expressions of [extractDependencies]. *)
Inductive Pattern :=
| jsImportRegex | jsRequireRegex | jsDynamicImportRegex | jsExportFromRegex
| pyImportRegex | pyFromImportRegex
| javaImportRegex | csharpUsingRegex
| cIncludeRegex
| goImportRegex | goImportBlockRegex | blockRegex
| rustUseRegex.

(** One result of [regex.exec]: [match.index] and [match[1]] ([None] when
    the group did not take part in the match). *)
Record RegexMatch := {
  m_index : nat;
  m_group1 : option string
}.

(** The value of [tsConfig.compilerOptions.paths], as [Object.entries] lists
    it. A mapped value is an array or not; an array item is a string or
    not. *)
Inductive JsonItem := JString (s : string) | JNonString.
Inductive JsonValue := JArray (items : list JsonItem) | JNonArray.

(** [TsUnavailable]: [tsconfig.json] does not exist, or reading or parsing
    it throws, or it has no [compilerOptions.paths]. *)
Inductive TsConfigFile :=
| TsUnavailable
| TsPaths (entries : list (string * JsonValue)).

(** The environment of a run: the process working directory, the regular
    files on disk ([fs.existsSync(p) && fs.statSync(p).isFile()]), the
    successive matches of each regular expression on a text, and the
    configuration file found at a path. *)
Record Env := {
  cwd : string;
  fileExists : string → bool;
  exec_all : Pattern → string → list RegexMatch;
  readTsConfig : string → TsConfigFile
}.

(** The two private fields of a [DependencyGraph] object. [tsConfigPaths]
    is a [Map] iterated in insertion order. *)
Record DependencyGraph := {
  workspacePath : string;
  tsConfigPaths : list (string * string)
}.

(** [new DependencyGraph()] *)
Definition new_DependencyGraph : DependencyGraph :=
  {| workspacePath := ""; tsConfigPaths := [] |}.

(** [Map.prototype.set] on an insertion-ordered map: an existing key keeps
    its place. *)
Fixpoint map_set (m : list (string * string)) (k v : string) : list (string * string) :=
  match m with
  | [] => [(k, v)]
  | (k', v') :: rest =>
      if String.eqb k' k then (k, v) :: rest else (k', v') :: map_set rest k v
  end.

(** The [forEach] over [Object.entries(paths)]. [value[0].replace] on a
    non-string throws; the enclosing [try] swallows the error and the
    entries already set stay. *)
Fixpoint setAliases (table : list (string * string)) (entries : list (string * JsonValue))
    : list (string * string) :=
  match entries with
  | [] => table
  | (key, JArray (JString first :: _)) :: rest =>
      setAliases (map_set table (Js.replace key "/*" "") (Js.replace first "/*" "")) rest
  | (key, JArray (JNonString :: _)) :: rest => table
  | (key, _) :: rest => setAliases table rest
  end.

Definition loadTsConfigPaths (env : Env) (this : DependencyGraph) (workspacePath : string)
    : DependencyGraph :=
  let tsConfigPath := Path.join [workspacePath; "tsconfig.json"] in
  match readTsConfig env tsConfigPath with
  | TsPaths entries =>
      {| workspacePath := this.(Graph.workspacePath);
         tsConfigPaths := setAliases this.(tsConfigPaths) entries |}
  | TsUnavailable => this
  end.

Definition getNodeId (relativePath : string) : string :=
  Js.backslashes_to_slashes relativePath.

Definition groups : list (string * nat) :=
  [("typescript", 1); ("javascript", 1); ("python", 2); ("java", 3); ("csharp", 4);
   ("cpp", 5); ("c", 5); ("go", 6); ("rust", 7); ("ruby", 8); ("php", 9);
   ("swift", 10); ("kotlin", 11); ("scala", 12); ("dart", 13); ("vue", 14);
   ("svelte", 15)].

Definition getLanguageGroup (language : string) : nat :=
  default 0 (table_get groups language).

(** *** Path resolution *)

Section Resolve.
Variable env : Env.
Variable workspacePath : string.

(** [path.relative(workspacePath, p).replace(/\\/g, '/')] *)
Definition relativeToWorkspace (p : string) : string :=
  Js.backslashes_to_slashes (Path.relative (cwd env) workspacePath p).

(** The loop [for (const ext of extensions)] of [resolveImportPath]:
    [fullPath + ext], then [fullPath/index + ext]. *)
Fixpoint probe (fullPath : string) (extensions : list string) : option string :=
  match extensions with
  | [] => None
  | ext :: rest =>
      let withExt := fullPath +:+ ext in
      if fileExists env withExt then Some (relativeToWorkspace withExt)
      else
        let indexPath := Path.join [fullPath; "index" +:+ ext] in
        if fileExists env indexPath then Some (relativeToWorkspace indexPath)
        else probe fullPath rest
  end.

(** The loop over [this.tsConfigPaths.entries()]. *)
Fixpoint tryAliases (aliases : list (string * string)) (importPath : string)
    (extensions : list string) : option string :=
  match aliases with
  | [] => None
  | (alias, aliasPath) :: rest =>
      if Js.startsWith importPath alias then
        let relativePath := Js.replace importPath alias aliasPath in
        let fullPath := Path.join [workspacePath; relativePath] in
        match probe fullPath extensions with
        | Some resolved => Some resolved
        | None => tryAliases rest importPath extensions
        end
      else tryAliases rest importPath extensions
  end.

Definition resolveImportPath (this : DependencyGraph) (importPath currentDir : string)
    (extensions : list string) : option string :=
  match tryAliases this.(tsConfigPaths) importPath extensions with
  | Some resolved => Some resolved
  | None =>
      if Js.startsWith importPath "." || Js.startsWith importPath "/" then
        let fullPath := Path.resolve (cwd env) currentDir importPath in
        match probe fullPath extensions with
        | Some resolved => Some resolved
        | None =>
            if fileExists env fullPath then Some (relativeToWorkspace fullPath) else None
        end
      else None
  end.

(** The loop of [resolveRustImport] over [parts]. *)
Fixpoint rustWalk (searchPath : string) (parts : list string) : option string :=
  match parts with
  | [] => None
  | part :: rest =>
      let potentialPath := Path.join [searchPath; part] in
      let libFile := Path.join [potentialPath; "lib.rs"] in
      let modFile := Path.join [potentialPath; "mod.rs"] in
      let rsFile := potentialPath +:+ ".rs" in
      if fileExists env libFile then Some (relativeToWorkspace libFile)
      else if fileExists env modFile then rustWalk potentialPath rest
      else if fileExists env rsFile then Some (relativeToWorkspace rsFile)
      else None
  end.

Definition resolveRustImport (importPath currentDir : string) : option string :=
  rustWalk currentDir (Js.split "/" importPath).

(** The loop of [resolvePythonImport] over [parts]. *)
Fixpoint pythonWalk (searchPath : string) (parts : list string) : option string :=
  match parts with
  | [] => None
  | part :: rest =>
      let potentialPath := Path.join [searchPath; part] in
      let pyFile := potentialPath +:+ ".py" in
      let initFile := Path.join [potentialPath; "__init__.py"] in
      if fileExists env pyFile then Some (relativeToWorkspace pyFile)
      else if fileExists env initFile then pythonWalk potentialPath rest
      else None
  end.

Definition resolvePythonImport (importPath currentDir : string) : option string :=
  pythonWalk currentDir (Js.split "." importPath).

(** The loop [for (let i = 0; i < 10; i++)] of [resolveJavaImport]; [n] is
    the number of iterations left. *)
Fixpoint javaWalk (n : nat) (searchDir packagePath className : string) : option string :=
  match n with
  | O => None
  | S n' =>
      let potentialPath := Path.join [searchDir; packagePath; className +:+ ".java"] in
      if fileExists env potentialPath then Some (relativeToWorkspace potentialPath)
      else
        let parent := Path.dirname searchDir in
        if String.eqb parent searchDir then None
        else javaWalk n' parent packagePath className
  end.

Definition resolveJavaImport (importPath currentDir : string) : option string :=
  let parts := Js.split "." importPath in
  let className := List.last parts "" in
  let packagePath := Js.join "/" (removelast parts) in
  javaWalk 10 currentDir packagePath className.

Fixpoint probeInclude (fullPath : string) (extensions : list string) : option string :=
  match extensions with
  | [] => None
  | ext :: rest =>
      let withExt := fullPath +:+ ext in
      if fileExists env withExt then Some (relativeToWorkspace withExt)
      else probeInclude fullPath rest
  end.

Definition resolveIncludePath (includePath currentDir : string) : option string :=
  let fullPath := Path.resolve (cwd env) currentDir includePath in
  match probeInclude fullPath [".h"; ".hpp"; ".c"; ".cpp"] with
  | Some resolved => Some resolved
  | None => if fileExists env fullPath then Some (relativeToWorkspace fullPath) else None
  end.

(** *** Extraction *)

(** [content.substring(0, index).split('\n').length] *)
Definition lineNumberAt (content : string) (index : nat) : nat :=
  List.length (Js.split "010" (Js.substring_to index content)).

(** [match.index ? content.substring(0, match.index).split('\n').length : 1] *)
Definition lineNumberGuarded (content : string) (index : nat) : nat :=
  if Nat.eqb index 0 then 1 else lineNumberAt content index.

(** One [while ((match = regex.exec(content)) !== null)] loop: every match
    whose path resolves pushes one [DependencyInfo]. The capture group of
    these patterns takes part in every match. *)
Definition collect (content : string) (pattern : Pattern)
    (resolve : string → option string) (type : DependencyType)
    (line : string → nat → nat) : list DependencyInfo :=
  flat_map (λ m,
    match m_group1 m with
    | Some importPath =>
        match resolve importPath with
        | Some resolved =>
            [{| d_path := resolved; d_type := type;
                d_lineNumber := Some (line content (m_index m)) |}]
        | None => []
        end
    | None => []
    end) (exec_all env pattern content).

Definition jsExtensions : list string := [".ts"; ".tsx"; ".js"; ".jsx"].

Definition extractDependencies (this : DependencyGraph) (file : CodeFile)
    : list DependencyInfo :=
  let content := file.(content) in
  let dir := Path.dirname file.(path) in
  let lang_is lang := String.eqb file.(language) lang in
  (if lang_is "javascript" || lang_is "typescript" then
     let resolve importPath := resolveImportPath this importPath dir jsExtensions in
     collect content jsImportRegex resolve TImport lineNumberAt
     ++ collect content jsRequireRegex resolve TRequire lineNumberAt
     ++ collect content jsDynamicImportRegex resolve TDynamicImport lineNumberAt
     ++ collect content jsExportFromRegex resolve TExport lineNumberAt
   else [])
  ++ (if lang_is "python" then
        let resolve importPath := resolvePythonImport importPath dir in
        collect content pyImportRegex resolve TImport lineNumberGuarded
        ++ collect content pyFromImportRegex resolve TFrom lineNumberGuarded
      else [])
  ++ (if lang_is "java" then
        collect content javaImportRegex (λ importPath, resolveJavaImport importPath dir)
          TImport lineNumberGuarded
      else [])
  ++ (if lang_is "csharp" then
        collect content csharpUsingRegex (λ importPath, resolveJavaImport importPath dir)
          TUsing lineNumberGuarded
      else [])
  ++ (if lang_is "c" || lang_is "cpp" then
        collect content cIncludeRegex (λ includePath, resolveIncludePath includePath dir)
          TInclude lineNumberAt
      else [])
  ++ (if lang_is "go" then
        let resolve importPath := resolveImportPath this importPath dir [".go"] in
        (* single import: [if (match[1])] skips the block alternative *)
        flat_map (λ m,
          match m_group1 m with
          | Some importPath =>
              if Js.truthy importPath then
                match resolve importPath with
                | Some resolved =>
                    [{| d_path := resolved; d_type := TImport;
                        d_lineNumber := Some (lineNumberAt content (m_index m)) |}]
                | None => []
                end
              else []
          | None => []
          end) (exec_all env goImportRegex content)
        (* import block: every quoted entry of the block *)
        ++ flat_map (λ importBlockMatch,
             match m_group1 importBlockMatch with
             | Some blockContent =>
                 flat_map (λ blockMatch,
                   match m_group1 blockMatch with
                   | Some importPath =>
                       match resolve importPath with
                       | Some resolved =>
                           [{| d_path := resolved; d_type := TImport; d_lineNumber := None |}]
                       | None => []
                       end
                   | None => []
                   end) (exec_all env blockRegex blockContent)
             | None => []
             end) (exec_all env goImportBlockRegex content)
      else [])
  ++ (if lang_is "rust" then
        collect content rustUseRegex
          (λ importPath, resolveRustImport (Js.colons_to_slashes importPath) dir)
          TImport lineNumberGuarded
      else []).

End Resolve.

(** *** Node matching and graph assembly *)

(** [nodes.find(pred)]: the first element that satisfies [pred]. *)
Fixpoint find_first {A : Type} (pred : A → bool) (l : list A) : option A :=
  match l with
  | [] => None
  | x :: rest => if pred x then Some x else find_first pred rest
  end.

(** [const x = a.find(pred); if (x) x.field = ...]: the first element that
    satisfies [pred] is updated in place, the array keeps its order. *)
Fixpoint update_first {A : Type} (pred : A → bool) (f : A → A) (l : list A) : list A :=
  match l with
  | [] => []
  | x :: rest => if pred x then f x :: rest else x :: update_first pred f rest
  end.

Definition findMatchingNode (depPath : string) (nodes : list GraphNode) : option string :=
  match find_first (λ n, String.eqb n.(n_path) depPath) nodes with
  | Some exactMatch => Some exactMatch.(n_id)
  | None =>
      let depBasename := Path.basename depPath in
      match find_first (λ n, String.eqb (Path.basename n.(n_path)) depBasename) nodes with
      | Some match_ => Some match_.(n_id)
      | None => None
      end
  end.

(** The object literal pushed for each file. *)
Definition makeNode (file : CodeFile) : GraphNode :=
  {| n_id := getNodeId file.(relativePath);
     n_label := Path.basename file.(relativePath);
     n_path := file.(relativePath);
     n_language := file.(language);
     n_size := Some (Js.length file.(content));
     n_lineCount := Some (List.length (Js.split "010" file.(content)));
     n_group := Some (getLanguageGroup file.(language));
     n_dependencyCount := Some 0;
     n_dependentCount := Some 0;
     n_isCircular := None |}.

(** [x || d] on an optional number: [undefined] and [0] are falsy. *)
Definition or_default (x : option nat) (d : nat) : nat :=
  match x with
  | Some (S n) => S n
  | _ => d
  end.

(** The update of an existing edge: [count = (count || 1) + 1], then
    [value = Math.min(count || 1, 5)]. *)
Definition bumpEdge (e : GraphEdge) : GraphEdge :=
  let count := or_default e.(e_count) 1 + 1 in
  {| e_from := e.(e_from); e_to := e.(e_to);
     e_value := Nat.min (or_default (Some count) 1) 5;
     e_title := e.(e_title); e_type := e.(e_type);
     e_count := Some count; e_isCircular := e.(e_isCircular) |}.

Definition newEdge (file : CodeFile) (sourceId targetId : string) (depInfo : DependencyInfo)
    : GraphEdge :=
  {| e_from := sourceId; e_to := targetId; e_value := 1;
     e_count := Some 1;
     e_type := Some depInfo.(d_type);
     e_title := Some (Path.basename file.(relativePath) +:+ " → "
                      +:+ Path.basename depInfo.(d_path)
                      +:+ " (" +:+ type_text depInfo.(d_type) +:+ ")");
     e_isCircular := None |}.

(** The edge array together with [edgeMap]. The map holds references to the
    edge objects of the array: a key is mapped to the position of its edge,
    and an update through the map is an update of that element. *)
Record EdgeStore := {
  es_edges : list GraphEdge;
  es_edgeMap : gmap string nat
}.

Definition edgeKey (sourceId targetId : string) : string :=
  sourceId +:+ "->" +:+ targetId.

(** The body of [for (const depInfo of dependencies)]. *)
Definition addDependency (nodes : list GraphNode) (file : CodeFile) (sourceId : string)
    (st : EdgeStore) (depInfo : DependencyInfo) : EdgeStore :=
  match findMatchingNode depInfo.(d_path) nodes with
  | Some targetId =>
      if Js.truthy targetId && negb (String.eqb targetId sourceId) then
        match st.(es_edgeMap) !! edgeKey sourceId targetId with
        | Some i =>
            {| es_edges := alter bumpEdge i st.(es_edges); es_edgeMap := st.(es_edgeMap) |}
        | None =>
            {| es_edges := st.(es_edges) ++ [newEdge file sourceId targetId depInfo];
               es_edgeMap := <[edgeKey sourceId targetId := List.length st.(es_edges)]>
                               st.(es_edgeMap) |}
        end
      else st
  | None => st
  end.

(** [sourceNode.dependencyCount = (sourceNode.dependencyCount || 0) + 1] *)
Definition incDependencyCount (n : GraphNode) : GraphNode :=
  {| n_id := n.(n_id); n_label := n.(n_label); n_path := n.(n_path);
     n_language := n.(n_language); n_size := n.(n_size); n_group := n.(n_group);
     n_lineCount := n.(n_lineCount);
     n_dependencyCount := Some (or_default n.(n_dependencyCount) 0 + 1);
     n_dependentCount := n.(n_dependentCount);
     n_isCircular := n.(n_isCircular) |}.

Definition incDependentCount (n : GraphNode) : GraphNode :=
  {| n_id := n.(n_id); n_label := n.(n_label); n_path := n.(n_path);
     n_language := n.(n_language); n_size := n.(n_size); n_group := n.(n_group);
     n_lineCount := n.(n_lineCount);
     n_dependencyCount := n.(n_dependencyCount);
     n_dependentCount := Some (or_default n.(n_dependentCount) 0 + 1);
     n_isCircular := n.(n_isCircular) |}.

Definition has_id (i : string) (n : GraphNode) : bool := String.eqb n.(n_id) i.

(** The body of [edges.forEach(edge => ...)] that updates the counts. *)
Definition countEdge (nodes : list GraphNode) (edge : GraphEdge) : list GraphNode :=
  update_first (has_id edge.(e_to)) incDependentCount
    (update_first (has_id edge.(e_from)) incDependencyCount nodes).

Definition markNode (n : GraphNode) : GraphNode :=
  {| n_id := n.(n_id); n_label := n.(n_label); n_path := n.(n_path);
     n_language := n.(n_language); n_size := n.(n_size); n_group := n.(n_group);
     n_lineCount := n.(n_lineCount);
     n_dependencyCount := n.(n_dependencyCount);
     n_dependentCount := n.(n_dependentCount);
     n_isCircular := Some true |}.

Definition markEdge (e : GraphEdge) : GraphEdge :=
  {| e_from := e.(e_from); e_to := e.(e_to); e_value := e.(e_value);
     e_title := e.(e_title); e_type := e.(e_type); e_count := e.(e_count);
     e_isCircular := Some true |}.

(** [circle.forEach(nodeId => ...)] *)
Definition markCircleNodes (nodes : list GraphNode) (circle : list string) : list GraphNode :=
  fold_left (λ nodes nodeId, update_first (has_id nodeId) markNode nodes) circle nodes.

(** The pairs [(circle[i], circle[(i + 1) % circle.length])]. *)
Definition successivePairs (circle : list string) : list (string * string) :=
  match circle with
  | [] => []
  | first :: rest => combine circle (rest ++ [first])
  end.

Definition markCircleEdges (edges : list GraphEdge) (circle : list string) : list GraphEdge :=
  fold_left (λ edges '(from, to),
      update_first (λ e, String.eqb e.(e_from) from && String.eqb e.(e_to) to) markEdge edges)
    (successivePairs circle) edges.

(** [Array.from(new Set(a))]: first occurrences, in order. *)
Fixpoint dedup_first (seen a : list string) : list string :=
  match a with
  | [] => []
  | x :: rest =>
      if includes seen x then dedup_first seen rest
      else x :: dedup_first (x :: seen) rest
  end.

(** [Math.max(...a, 0)] *)
Definition max_with_zero (a : list nat) : nat := fold_right Nat.max 0 a.

(** *** Cycle detection *)

(** The three collections that the closure [dfs] mutates. *)
Record DfsState := {
  circular : list (list string);
  visited : gset string;
  recStack : gset string
}.

(** [path.indexOf(x)]; [None] is [-1]. *)
Fixpoint indexOf (l : list string) (x : string) : option nat :=
  match l with
  | [] => None
  | y :: rest => if String.eqb y x then Some 0 else S <$> indexOf rest x
  end.

(** [circular.some(c => c.sort().join('->') === cycleKey)]: [sort] sorts the
    recorded array in place, for every element up to the first hit. *)
Fixpoint someSorted (cycleKey : string) (circular : list (list string))
    : bool * list (list string) :=
  match circular with
  | [] => (false, [])
  | c :: rest =>
      let c' := Js.sort c in
      if String.eqb (Js.join "->" c') cycleKey then (true, c' :: rest)
      else let '(found, rest') := someSorted cycleKey rest in (found, c' :: rest')
  end.

(** The adjacency list: for every edge, [to] is pushed on the array of
    [from]. *)
Definition buildAdjList (edges : list GraphEdge) : gmap string (list string) :=
  fold_left (λ adjList edge,
      <[edge.(e_from) := default [] (adjList !! edge.(e_from)) ++ [edge.(e_to)]]> adjList)
    edges ∅.

(** Sequencing of calls that may exhaust their recursion budget. *)
Fixpoint forEachM {A S : Type} (body : S → A → option S) (l : list A) (st : S) : option S :=
  match l with
  | [] => Some st
  | x :: rest =>
      match body st x with
      | Some st' => forEachM body rest st'
      | None => None
      end
  end.

(** The closure [dfs]. [depth] bounds the nesting of calls; [None] means
    the bound was reached. [cycle.sort()] sorts [cycle] in place and
    returns it, so the array pushed on [circular] is the sorted one. *)
Fixpoint dfs (adjList : gmap string (list string)) (depth : nat) (nodeId : string)
    (path : list string) (st : DfsState) : option DfsState :=
  match depth with
  | O => None
  | S depth' =>
      if bool_decide (nodeId ∈ st.(recStack)) then
        match indexOf path nodeId with
        | Some cycleStart =>
            let cycle := Js.sort (drop cycleStart path ++ [nodeId]) in
            let cycleKey := Js.join "->" cycle in
            let '(found, circular') := someSorted cycleKey st.(circular) in
            Some {| circular := if found then circular' else circular' ++ [cycle];
                    visited := st.(visited); recStack := st.(recStack) |}
        | None => Some st
        end
      else if bool_decide (nodeId ∈ st.(visited)) then Some st
      else
        let st1 := {| circular := st.(circular);
                      visited := st.(visited) ∪ {[nodeId]};
                      recStack := st.(recStack) ∪ {[nodeId]} |} in
        let neighbors := default [] (adjList !! nodeId) in
        match forEachM (λ st neighbor, dfs adjList depth' neighbor (path ++ [nodeId]) st)
                neighbors st1 with
        | Some st2 =>
            Some {| circular := st2.(circular); visited := st2.(visited);
                    recStack := st2.(recStack) ∖ {[nodeId]} |}
        | None => None
        end
  end.

(** [nodes.forEach(node => { if (!visited.has(node.id)) dfs(node.id, []) })] *)
Definition dfsFrom (adjList : gmap string (list string)) (depth : nat)
    (st : DfsState) (node : GraphNode) : option DfsState :=
  if bool_decide (node.(n_id) ∈ st.(visited)) then Some st
  else dfs adjList depth node.(n_id) [] st.

Definition initialDfsState : DfsState :=
  {| circular := []; visited := ∅; recStack := ∅ |}.

(** A nesting bound that the traversal cannot reach: every nested call but
    the innermost adds a new identifier to [visited], and the identifiers
    that can be added are those of the nodes and the targets of the edges. *)
Definition dfsDepth (nodes : list GraphNode) (edges : list GraphEdge) : nat :=
  S (S (List.length nodes + List.length edges)).

Definition runDfs (nodes : list GraphNode) (edges : list GraphEdge) : option DfsState :=
  forEachM (dfsFrom (buildAdjList edges) (dfsDepth nodes edges)) nodes initialDfsState.

Definition detectCircularDependencies (nodes : list GraphNode) (edges : list GraphEdge)
    : list (list string) :=
  match runDfs nodes edges with
  | Some st => st.(circular)
  | None => []
  end.

(** *** buildGraph *)

Section Assemble.
(** [extract] stands for [this.extractDependencies(file, workspacePath)]. *)
Variable extract : CodeFile → list DependencyInfo.

(** The body of [for (const file of files)]. *)
Definition addFile (nodes : list GraphNode) (st : EdgeStore) (file : CodeFile) : EdgeStore :=
  let sourceId := getNodeId file.(relativePath) in
  fold_left (addDependency nodes file sourceId) (extract file) st.

Definition emptyEdgeStore : EdgeStore := {| es_edges := []; es_edgeMap := ∅ |}.

Definition buildEdges (nodes : list GraphNode) (files : list CodeFile) : list GraphEdge :=
  (fold_left (addFile nodes) files emptyEdgeStore).(es_edges).

(** Everything [buildGraph] does after the alias table is loaded. *)
Definition assemble (files : list CodeFile) : GraphData :=
  let nodes := map makeNode files in
  let edges := buildEdges nodes files in
  let nodes := fold_left countEdge edges nodes in
  let circularDependencies := detectCircularDependencies nodes edges in
  let nodes := fold_left markCircleNodes circularDependencies nodes in
  let edges := fold_left markCircleEdges circularDependencies edges in
  let languages := dedup_first [] (map n_language nodes) in
  let maxDependencies :=
    max_with_zero (map (λ n, or_default n.(n_dependencyCount) 0) nodes) in
  let maxDependents :=
    max_with_zero (map (λ n, or_default n.(n_dependentCount) 0) nodes) in
  {| nodes := nodes;
     edges := edges;
     circularDependencies := circularDependencies;
     statistics :=
       {| totalNodes := List.length nodes;
          totalEdges := List.length edges;
          languages := languages;
          circularCount := List.length circularDependencies;
          maxDependencies := maxDependencies;
          maxDependents := maxDependents |} |}.

End Assemble.

(** [buildGraph(files, workspacePath)] on the object [this]: the object
    after the call and the returned graph. *)
Definition buildGraph (env : Env) (this : DependencyGraph) (files : list CodeFile)
    (workspacePath : string) : DependencyGraph * GraphData :=
  let this := {| Graph.workspacePath := workspacePath;
                 tsConfigPaths := this.(tsConfigPaths) |} in
  let this := loadTsConfigPaths env this workspacePath in
  (this, assemble (extractDependencies env workspacePath this) files).

End Graph.

(** ** The command registered by [activate] *)

Module Host.

Export Graph.

(** One entry of [vscode.workspace.workspaceFolders]: its [uri.fsPath] and
    what that directory holds. *)
Record Folder := {
  fsPath : string;
  folderListing : option (list Entry)
}.

Record World := {
  env : Env;
  workspaceFolders : list Folder
}.

(** The state that outlives a command: [VisualizationPanel.currentPanel],
    with the graph its webview was last rendered from. *)
Record HostState := {
  currentPanel : option GraphData
}.

Inductive CommandResult :=
| NoWorkspaceFolder                 (* 'No workspace folder open' *)
| Shown (graphData : GraphData)     (* the panel was created or updated *)
| Failed (dir : string).            (* the [catch] branch: an error message *)

(** The callback of [codeVisualizer.showVisualization]. A fresh
    [CodeScanner] and a fresh [DependencyGraph] are made on every call. *)
Definition showVisualization (host : HostState) (world : World) : HostState * CommandResult :=
  match world.(workspaceFolders) with
  | [] => (host, NoWorkspaceFolder)
  | workspaceFolder :: _ =>
      let workspacePath := workspaceFolder.(fsPath) in
      match scanWorkspace (cwd world.(env)) workspacePath workspaceFolder.(folderListing) with
      | Returned files =>
          let graph := new_DependencyGraph in
          let graphData := (buildGraph world.(env) graph files workspacePath).2 in
          ({| currentPanel := Some graphData |}, Shown graphData)
      | Thrown dir => (host, Failed dir)
      end
  end.

End Host.

(** ** Notions used to state the properties *)

Module Props.

Export Host.

(** *** Directory trees *)

Definition no_slash (s : string) : bool :=
  forallb (λ c, negb (Ascii.eqb c Path.sep)) (list_ascii_of_string s).

(** A name that [readdir] can return: not empty, without a slash, and
    neither [.] nor [..]. *)
Definition valid_name (s : string) : bool :=
  negb (String.eqb s "") && negb (String.eqb s ".") && negb (String.eqb s "..")
  && no_slash s.

(** The absolute path whose segments are [segs]. *)
Definition abs_path (segs : list string) : string := "/" +:+ Js.join "/" segs.

Fixpoint valid_entry (e : Entry) : bool :=
  match e with
  | File name _ => valid_name name
  | Other name => valid_name name
  | Dir name listing =>
      valid_name name
      && match listing with
         | None => true
         | Some entries => forallb valid_entry entries
         end
  end.

(** [file_at entries dirs name text]: below a directory that holds
    [entries], the chain of listable directories [dirs] leads to a regular
    file [name] whose read yields [text]. *)
Inductive file_at : list Entry → list string → string → string → Prop :=
| file_here entries name text :
    File name (Some text) ∈ entries → file_at entries [] name text
| file_below entries d sub dirs name text :
    Dir d (Some sub) ∈ entries → file_at sub dirs name text →
    file_at entries (d :: dirs) name text.

(** The tree without the files whose read fails. *)
Fixpoint prune (e : Entry) : list Entry :=
  match e with
  | File _ None => []
  | File name (Some text) => [File name (Some text)]
  | Other name => [Other name]
  | Dir name None => [Dir name None]
  | Dir name (Some entries) => [Dir name (Some (flat_map prune entries))]
  end.

Definition pruneListing (listing : option (list Entry)) : option (list Entry) :=
  flat_map prune <$> listing.

(** Every directory that the traversal enters can be listed: the
    directories below an ignored path are never entered. *)
Fixpoint listable (cwd rootPath currentPath : string) (e : Entry) : bool :=
  let fullPath := Path.join [currentPath; entry_name e] in
  shouldIgnore (Path.relative cwd rootPath fullPath)
  || match e with
     | Dir _ None => false
     | Dir _ (Some entries) => forallb (listable cwd rootPath fullPath) entries
     | _ => true
     end.

Definition listableListing (cwd rootPath : string) (listing : option (list Entry)) : bool :=
  match listing with
  | None => false
  | Some entries => forallb (listable cwd rootPath rootPath) entries
  end.

(** The regular files of a tree, as [fileExists] sees them from the
    segments of a path below the root. *)
Fixpoint isFileAt (entries : list Entry) (segs : list string) : bool :=
  match segs with
  | [] => false
  | [name] =>
      existsb (λ e, match e with File n _ => String.eqb n name | _ => false end) entries
  | d :: rest =>
      existsb (λ e, match e with
                    | Dir n (Some sub) => String.eqb n d && isFileAt sub rest
                    | _ => false
                    end) entries
  end.

(** *** Graphs *)

(** The edge relation of an edge list. *)
Definition edge_rel (es : list GraphEdge) (x y : string) : Prop :=
  ∃ e, e ∈ es ∧ e.(e_from) = x ∧ e.(e_to) = y.

(** [x] lies on a directed cycle. *)
Definition on_cycle (es : list GraphEdge) (x : string) : Prop := tc (edge_rel es) x x.

(** Consecutive elements are joined by edges. *)
Fixpoint is_walk (es : list GraphEdge) (w : list string) : Prop :=
  match w with
  | x :: (y :: _) as rest => edge_rel es x y ∧ is_walk es rest
  | _ => True
  end.

Definition has_edge (es : list GraphEdge) (x y : string) : bool :=
  existsb (λ e, String.eqb e.(e_from) x && String.eqb e.(e_to) y) es.

Fixpoint is_walkb (es : list GraphEdge) (w : list string) : bool :=
  match w with
  | x :: (y :: _) as rest => has_edge es x y && is_walkb es rest
  | _ => true
  end.

Definition edges_from (es : list GraphEdge) (i : string) : list GraphEdge :=
  filter (λ e, e.(e_from) = i) es.

Definition edges_to (es : list GraphEdge) (i : string) : list GraphEdge :=
  filter (λ e, e.(e_to) = i) es.

Definition edges_between (es : list GraphEdge) (a b : string) : list GraphEdge :=
  filter (λ e, e.(e_from) = a ∧ e.(e_to) = b) es.

Definition dependencyCountOf (n : GraphNode) : nat := default 0 n.(n_dependencyCount).
Definition dependentCountOf (n : GraphNode) : nat := default 0 n.(n_dependentCount).

(** The position of the element that [a.find(pred)] returns. An edge names
    its nodes by identifier; the node it has as source is the one that
    [nodes.find(n => n.id === edge.from)] returns, and likewise its
    target. *)
Fixpoint find_index {A : Type} (pred : A → bool) (l : list A) : option nat :=
  match l with
  | [] => None
  | x :: rest => if pred x then Some 0 else S <$> find_index pred rest
  end.

Definition edges_out_of (ns : list GraphNode) (es : list GraphEdge) (i : nat)
    : list GraphEdge :=
  filter (λ e, find_index (has_id e.(e_from)) ns = Some i) es.

Definition edges_into (ns : list GraphNode) (es : list GraphEdge) (i : nat)
    : list GraphEdge :=
  filter (λ e, find_index (has_id e.(e_to)) ns = Some i) es.

(** The references of the files whose identifier is [a] that node matching
    sends to [b]. *)
Definition refs_between (extract : CodeFile → list DependencyInfo)
    (files : list CodeFile) (a b : string) : list DependencyInfo :=
  flat_map (λ file,
      if String.eqb (getNodeId file.(relativePath)) a then
        filter (λ d, findMatchingNode d.(d_path) (map makeNode files) = Some b) (extract file)
      else []) files.

(** A reference that node matching can send to some node: by its path or
    by its base name. *)
Definition matchable (nodes : list GraphNode) (d : DependencyInfo) : bool :=
  existsb (λ n, String.eqb n.(n_path) d.(d_path)) nodes
  || existsb (λ n, String.eqb (Path.basename n.(n_path)) (Path.basename d.(d_path))) nodes.

(** *** Notions used in the proofs *)

(** The source and the target of an edge. *)
Definition endpoints (e : GraphEdge) : string * string := (e.(e_from), e.(e_to)).

(** What an edge says about its pair: the pair, the count and the value. *)
Definition tally (e : GraphEdge) : string * string * option nat * nat :=
  (e.(e_from), e.(e_to), e.(e_count), e.(e_value)).

(** An edge joins two different identifiers, counts at least one reference
    and has the value min(count, 5). *)
Definition proper (e : GraphEdge) : Prop :=
  e.(e_from) ≠ e.(e_to)
  ∧ ∃ c, e.(e_count) = Some (S c) ∧ e.(e_value) = Nat.min (S c) 5.

(** Every edge of the store leaves an identifier of [srcs] and enters an
    identifier of a node. *)
Definition endpoints_ok (ns : list GraphNode) (srcs : list string) (st : EdgeStore) : Prop :=
  ∀ e, e ∈ st.(es_edges) → e.(e_from) ∈ srcs ∧ e.(e_to) ∈ map n_id ns.

(** The counts of a node after the edges [es] have been counted. *)
Definition addCounts (es : list GraphEdge) (n : GraphNode) : GraphNode :=
  {| n_id := n.(n_id); n_label := n.(n_label); n_path := n.(n_path);
     n_language := n.(n_language); n_size := n.(n_size); n_group := n.(n_group);
     n_lineCount := n.(n_lineCount);
     n_dependencyCount :=
       Some (dependencyCountOf n + List.length (edges_from es n.(n_id)));
     n_dependentCount :=
       Some (dependentCountOf n + List.length (edges_to es n.(n_id)));
     n_isCircular := n.(n_isCircular) |}.

(** Both counts of the node are set. *)
Definition counted (n : GraphNode) : Prop :=
  is_Some n.(n_dependencyCount) ∧ is_Some n.(n_dependentCount).

(** The identifier of a node with its two counts. *)
Definition counts (n : GraphNode) : string * option nat * option nat :=
  (n.(n_id), n.(n_dependencyCount), n.(n_dependentCount)).

(** The identifiers that the traversal can visit. *)
Definition universe (ns : list GraphNode) (es : list GraphEdge) : gset string :=
  list_to_set (map n_id ns ++ map e_to es).

(** Every identifier of every record lies on a cycle. *)
Definition cycles_ok (es : list GraphEdge) (cs : list (list string)) : Prop :=
  ∀ c x, c ∈ cs → x ∈ c → on_cycle es x.

(** The finished identifiers: visited and no longer on the stack. *)
Definition finished (st : DfsState) : gset string := st.(visited) ∖ st.(recStack).

(** The finished identifiers are closed under the edges and none of them
    lies on a cycle. *)
Definition acyclic_so_far (es : list GraphEdge) (st : DfsState) : Prop :=
  (∀ x y, x ∈ finished st → edge_rel es x y → y ∈ finished st)
  ∧ (∀ x, x ∈ finished st → ¬ on_cycle es x).


(** An import path in module-root style for the object [this]: it begins
    neither with a dot nor with a slash, and with no alias of the table. *)
Definition module_root (this : DependencyGraph) (importPath : string) : Prop :=
  Js.startsWith importPath "." = false
  ∧ Js.startsWith importPath "/" = false
  ∧ ∀ alias aliasPath,
      (alias, aliasPath) ∈ this.(tsConfigPaths) → Js.startsWith importPath alias = false.

(** The pairs that [setAliases] sets, in order. *)
Fixpoint effective (entries : list (string * JsonValue)) : list (string * string) :=
  match entries with
  | [] => []
  | (key, JArray (JString first :: _)) :: rest =>
      (Js.replace key "/*" "", Js.replace first "/*" "") :: effective rest
  | (key, JArray (JNonString :: _)) :: rest => []
  | (key, _) :: rest => effective rest
  end.

(** The successive [set] calls on the alias table. *)
Definition applySets (sets : list (string * string)) (table : list (string * string))
    : list (string * string) :=
  fold_left (λ t kv, map_set t kv.1 kv.2) sets table.

(** Some segment is an ignored name. *)
Definition ignoredSegs (segs : list string) : bool :=
  existsb (λ pattern, includes segs pattern) ignorePatterns.

(** The file named [name] with text [text] is found in the entry [e]
    through the directories [dirs]. *)
Definition file_in (e : Entry) (dirs : list string) (name text : string) : Prop :=
  match e with
  | File n (Some t) => dirs = [] ∧ name = n ∧ text = t
  | Dir d (Some sub) => ∃ dirs', dirs = d :: dirs' ∧ file_at sub dirs' name text
  | _ => False
  end.

(** The record pushed for the file [name] found through [segs]. *)
Definition fileRecord (rs segs : list string) (name text : string) : CodeFile :=
  {| path := abs_path (rs ++ segs ++ [name]);
     relativePath := Js.join "/" (segs ++ [name]);
     content := text;
     language := getLanguageFromExtension (Path.extname name) |}.

(** No segment is ignored and the extension is supported. *)
Definition admitted (segs : list string) (name : string) : Prop :=
  ignoredSegs (segs ++ [name]) = false
  ∧ includes supportedExtensions (Path.extname name) = true.

(** What one entry, met in the directory [ds], adds to [files]. *)
Definition entry_adds (cwd : string) (rs : list string) (e : Entry) : Prop :=
  valid_entry e = true →
  ∀ ds files files',
    forallb valid_name ds = true →
    scanEntry cwd (abs_path rs) (abs_path (rs ++ ds)) e files = Returned files' →
    ∃ new, files' = files ++ new
           ∧ ∀ cf, cf ∈ new ↔
               ∃ dirs name text, file_in e dirs name text
                                 ∧ admitted (ds ++ dirs) name
                                 ∧ cf = fileRecord rs (ds ++ dirs) name text.

(** *** Aggregation of references into edges *)

(** The references in the order in which [buildGraph] meets them, each
    with the file it was found in. *)
Definition events (extract : CodeFile → list DependencyInfo) (files : list CodeFile)
    : list (CodeFile * DependencyInfo) :=
  flat_map (λ f, map (pair f) (extract f)) files.

Definition sourceOf (ev : CodeFile * DependencyInfo) : string :=
  getNodeId ev.1.(relativePath).

Definition targetOf (ns : list GraphNode) (ev : CodeFile * DependencyInfo) : option string :=
  findMatchingNode ev.2.(d_path) ns.

(** The reference [ev] goes from the identifier [a] to the identifier [b]. *)
Definition links (ns : list GraphNode) (a b : string) (ev : CodeFile * DependencyInfo) : Prop :=
  sourceOf ev = a ∧ targetOf ns ev = Some b.

#[export] Instance links_dec ns a b ev : Decision (links ns a b ev).
Proof. unfold links. apply _. Defined.

Definition linkCount (ns : list GraphNode) (evs : list (CodeFile * DependencyInfo))
    (a b : string) : nat :=
  List.length (filter (links ns a b) evs).

Definition step (ns : list GraphNode) (st : EdgeStore) (ev : CodeFile * DependencyInfo)
    : EdgeStore :=
  addDependency ns ev.1 (sourceOf ev) st ev.2.

(** No two ordered pairs of identifiers that the references of [evs]
    connect have the same edge key. *)
Definition keys_distinct (ns : list GraphNode) (evs : list (CodeFile * DependencyInfo))
    : Prop :=
  ∀ ev ev' b b',
    ev ∈ evs → ev' ∈ evs → targetOf ns ev = Some b → targetOf ns ev' = Some b' →
    edgeKey (sourceOf ev) b = edgeKey (sourceOf ev') b' →
    sourceOf ev = sourceOf ev' ∧ b = b'.

(** The edge store after the references [pre]: the map and the array agree,
    every edge counts the references of its pair, and every reference
    between two distinct identifiers has its edge. *)
Record store_ok (ns : list GraphNode) (pre : list (CodeFile * DependencyInfo))
    (st : EdgeStore) : Prop := {
  ok_keyed : ∀ i e, st.(es_edges) !! i = Some e →
               st.(es_edgeMap) !! edgeKey e.(e_from) e.(e_to) = Some i;
  ok_mapped : ∀ key i, st.(es_edgeMap) !! key = Some i →
                ∃ e, st.(es_edges) !! i = Some e ∧ edgeKey e.(e_from) e.(e_to) = key;
  ok_counted : ∀ e, e ∈ st.(es_edges) →
                 (∃ ev, ev ∈ pre ∧ links ns e.(e_from) e.(e_to) ev)
                 ∧ e.(e_from) ≠ e.(e_to) ∧ e.(e_to) ≠ ""
                 ∧ e.(e_count) = Some (linkCount ns pre e.(e_from) e.(e_to))
                 ∧ e.(e_value) = Nat.min (linkCount ns pre e.(e_from) e.(e_to)) 5;
  ok_present : ∀ ev b, ev ∈ pre → targetOf ns ev = Some b → b ≠ "" → b ≠ sourceOf ev →
                 ∃ e, e ∈ st.(es_edges) ∧ e.(e_from) = sourceOf ev ∧ e.(e_to) = b
}.

End Props.

(** ** Small workspaces used as concrete inputs *)

Module Examples.

Export Props.

#[export] Instance Pattern_eq_dec : EqDecision Pattern.
Proof. solve_decision. Defined.

(** The matches of the regular expressions, tabulated for the texts of an
    example: a pattern and a text that are not listed have no match. *)
Definition tabulated (table : list (Pattern * string * list RegexMatch))
    (pattern : Pattern) (text : string) : list RegexMatch :=
  default [] (snd <$> find_first (λ row, bool_decide (row.1 = (pattern, text))) table).

(** The regular files of a workspace, as [fileExists] finds them on disk. *)
Definition onDisk (rootPath : string) (entries : list Entry) (p : string) : bool :=
  isFileAt entries (Js.split "/" (Path.relative "/" rootPath p)).

Definition exampleEnv (entries : list Entry)
    (table : list (Pattern * string * list RegexMatch)) : Env :=
  {| cwd := "/";
     fileExists := onDisk "/ws" entries;
     exec_all := tabulated table;
     readTsConfig := λ _, TsUnavailable |}.

Definition exampleWorld (entries : list Entry)
    (table : list (Pattern * string * list RegexMatch)) : World :=
  {| env := exampleEnv entries table;
     workspaceFolders := [{| fsPath := "/ws"; folderListing := Some entries |}] |}.

Definition noPanel : HostState := {| currentPanel := None |}.

(** The graph that the command shows, if it shows one. *)
Definition shownGraph (world : World) : option GraphData :=
  match (showVisualization noPanel world).2 with
  | Shown graphData => Some graphData
  | _ => None
  end.

(** The files that the scan of the first folder returns. *)
Definition scannedFiles (world : World) : list CodeFile :=
  match world.(workspaceFolders) with
  | folder :: _ =>
      match scanWorkspace (cwd world.(env)) folder.(fsPath) folder.(folderListing) with
      | Returned files => files
      | Thrown _ => []
      end
  | [] => []
  end.

(** The extractor of a fresh [DependencyGraph] on the workspace [/ws]
    without path aliases. *)
Definition extractorOf (world : World) : CodeFile → list DependencyInfo :=
  extractDependencies world.(env) "/ws" {| workspacePath := "/ws"; tsConfigPaths := [] |}.

(** [import {x} from '<spec>'] is matched by [jsImportRegex] only, at
    offset 0, with the module path as its group. *)
Definition importFrom (spec : string) : string := "import {x} from '" +:+ spec +:+ "'".

Definition importRow (spec : string) : Pattern * string * list RegexMatch :=
  (jsImportRegex, importFrom spec, [{| m_index := 0; m_group1 := Some spec |}]).

(** Three files on one cycle: a.ts -> c.ts -> b.ts -> a.ts. *)
Definition cycle3Entries : list Entry :=
  [File "a.ts" (Some (importFrom "./c"));
   File "b.ts" (Some (importFrom "./a"));
   File "c.ts" (Some (importFrom "./b"))].

Definition cycle3World : World :=
  exampleWorld cycle3Entries [importRow "./a"; importRow "./b"; importRow "./c"].

(** a.ts imports b.ts and then c.ts; b.ts imports a.ts; c.ts imports b.ts.
    The second import of a.ts starts at offset 22. *)
Definition chordText : string :=
  importFrom "./b" +:+ String "010" (importFrom "./c").

Definition chordEntries : list Entry :=
  [File "a.ts" (Some chordText);
   File "b.ts" (Some (importFrom "./a"));
   File "c.ts" (Some (importFrom "./b"))].

Definition chordWorld : World :=
  exampleWorld chordEntries
    [(jsImportRegex, chordText,
      [{| m_index := 0; m_group1 := Some "./b" |};
       {| m_index := 22; m_group1 := Some "./c" |}]);
     importRow "./a"; importRow "./b"].

(** a.ts imports b.ts twice (the second import starts at offset 22);
    b.ts imports nothing. *)
Definition twiceText : string :=
  importFrom "./b" +:+ String "010" (importFrom "./b").

Definition twiceEntries : list Entry :=
  [File "a.ts" (Some twiceText); File "b.ts" (Some "")].

Definition twiceWorld : World :=
  exampleWorld twiceEntries
    [(jsImportRegex, twiceText,
      [{| m_index := 0; m_group1 := Some "./b" |};
       {| m_index := 22; m_group1 := Some "./b" |}])].

(** a.ts imports a file of the ignored directory node_modules; a file of
    the same base name is collected in src. *)
Definition fallbackEntries : list Entry :=
  [File "a.ts" (Some (importFrom "./node_modules/lib/utils"));
   Dir "node_modules" (Some [Dir "lib" (Some [File "utils.ts" (Some "")])]);
   Dir "src" (Some [File "utils.ts" (Some "")])].

Definition fallbackWorld : World :=
  exampleWorld fallbackEntries [importRow "./node_modules/lib/utils"].

(** main.go imports the module-root path pkg/util; pkg/util.go exists.
    [import "pkg/util"] is matched by [goImportRegex] (quoted alternative)
    and not by [goImportBlockRegex]. *)
Definition goText : string := "import " +:+ String "034" ("pkg/util" +:+ String "034" "").

Definition goEntries : list Entry :=
  [File "main.go" (Some goText);
   Dir "pkg" (Some [File "util.go" (Some "package pkg")])].

Definition goWorld : World :=
  exampleWorld goEntries
    [(goImportRegex, goText, [{| m_index := 0; m_group1 := Some "pkg/util" |}])].

(** The same, with the import written relative to the file. *)
Definition goRelText : string := "import " +:+ String "034" ("./pkg/util" +:+ String "034" "").

Definition goRelEntries : list Entry :=
  [File "main.go" (Some goRelText);
   Dir "pkg" (Some [File "util.go" (Some "package pkg")])].

Definition goRelWorld : World :=
  exampleWorld goRelEntries
    [(goImportRegex, goRelText, [{| m_index := 0; m_group1 := Some "./pkg/util" |}])].

(** File names that contain the text of the edge-key separator. *)
Definition collisionEntries : list Entry :=
  [File "a.ts" (Some (importFrom "./b.ts->c"));
   File "a.ts->b.ts" (Some (importFrom "./c"));
   File "b.ts->c.ts" (Some "");
   File "c.ts" (Some "")].

Definition collisionWorld : World :=
  exampleWorld collisionEntries [importRow "./b.ts->c"; importRow "./c"].

(** The first edge of the graph of [cycle3World]. *)
Definition cycle3Edge : GraphEdge :=
  {| e_from := "a.ts"; e_to := "c.ts"; e_value := 1;
     e_title := Some "a.ts → c.ts (import)"; e_type := Some TImport;
     e_count := Some 1; e_isCircular := None |}.

(** Names that contain an ignored name, next to an ignored directory. *)
Definition substringEntries : list Entry :=
  [Dir "rebuild" (Some [File "buildutils.ts" (Some "export {}")]);
   Dir "build" (Some [File "gen.ts" (Some "export {}")]);
   File "notes.txt" (Some "")].

Definition substringFiles : list CodeFile :=
  [{| path := "/ws/rebuild/buildutils.ts"; relativePath := "rebuild/buildutils.ts";
      content := "export {}"; language := "typescript" |}].

(** a.ts cannot be read; node_modules cannot be listed but is never
    entered. *)
Definition unreadableFileEntries : list Entry :=
  [File "a.ts" None; File "b.ts" (Some ""); Dir "node_modules" None].

Definition unreadableFileWorld : World := exampleWorld unreadableFileEntries [].

(** The same with a directory src that cannot be listed. *)
Definition unreadableDirEntries : list Entry :=
  [File "a.ts" None; File "b.ts" (Some ""); Dir "node_modules" None; Dir "src" None].

Definition unreadableDirWorld : World := exampleWorld unreadableDirEntries [].

(** Two roots: /ws1 has a tsconfig.json that maps @lib/* to src/*, /ws2 has
    none; /ws2 holds a.ts, which imports @lib/x, and src/x.ts. *)
Definition aliasEnv : Env :=
  {| cwd := "/";
     fileExists := λ p, String.eqb p "/ws2/src/x.ts" || String.eqb p "/ws2/a.ts";
     exec_all := tabulated [importRow "@lib/x"];
     readTsConfig := λ p,
       if String.eqb p "/ws1/tsconfig.json"
       then TsPaths [("@lib/*", JArray [JString "src/*"])]
       else TsUnavailable |}.

Definition aliasFiles : list CodeFile :=
  [{| path := "/ws2/a.ts"; relativePath := "a.ts";
      content := importFrom "@lib/x"; language := "typescript" |};
   {| path := "/ws2/src/x.ts"; relativePath := "src/x.ts";
      content := ""; language := "typescript" |}].

(** Two files of one identifier: the file b.ts of the directory a, and a
    file whose name is a\b.ts (a backslash is an ordinary character of a
    POSIX file name), which imports c.ts. *)
Definition sharedIdEntries : list Entry :=
  [Dir "a" (Some [File "b.ts" (Some "")]);
   File "a\b.ts" (Some (importFrom "./c"));
   File "c.ts" (Some "")].

Definition sharedIdWorld : World := exampleWorld sharedIdEntries [importRow "./c"].

(** A fresh object on the workspace [/ws]. *)
Definition freshGraph : DependencyGraph := {| workspacePath := "/ws"; tsConfigPaths := [] |}.

End Examples.

(** ** Further notions: what the properties beyond the claims are stated with *)

Module More.

Export Examples.

(** *** Notions for the node list and the statistics *)

(** The number of occurrences of a character in a text. *)
Fixpoint occurrences (c : ascii) (s : string) : nat :=
  match s with
  | EmptyString => 0
  | String d s' => (if Ascii.eqb d c then 1 else 0) + occurrences c s'
  end.

(** The fields of a node that are set when the node is created and that
    nothing writes afterwards. *)
Definition createdFields (n : GraphNode)
    : string * string * string * string * option nat * option nat * option nat :=
  (n.(n_id), n.(n_label), n.(n_path), n.(n_language),
   n.(n_size), n.(n_lineCount), n.(n_group)).

(** The same fields, read off the file of the node. *)
Definition fileFields (f : CodeFile)
    : string * string * string * string * option nat * option nat * option nat :=
  (Js.backslashes_to_slashes f.(relativePath), Path.basename f.(relativePath),
   f.(relativePath), f.(language),
   Some (Js.length f.(content)), Some (S (occurrences "010" f.(content))),
   Some (default 0 (table_get groups f.(language)))).

(** *** Notions for the edge list *)

(** [edgeMap] and the edge array agree: the key of the edge at position
    [i] is mapped to [i], and every key is mapped to the position of an
    edge with that key. *)
Record indexed (st : EdgeStore) : Prop := {
  ix_keyed : ∀ i e, st.(es_edges) !! i = Some e →
               st.(es_edgeMap) !! edgeKey e.(e_from) e.(e_to) = Some i;
  ix_mapped : ∀ key i, st.(es_edgeMap) !! key = Some i →
                ∃ e, st.(es_edges) !! i = Some e ∧ edgeKey e.(e_from) e.(e_to) = key
}.

(** A reference that passes [if (targetId && targetId !== sourceId)]. *)
Definition accepted (ns : list GraphNode) (ev : CodeFile * DependencyInfo) : bool :=
  match targetOf ns ev with
  | Some t => Js.truthy t && negb (String.eqb t (sourceOf ev))
  | None => false
  end.

(** What an edge keeps of the reference that created it. *)
Definition origin (e : GraphEdge) : string * string * option DependencyType * option string :=
  (e.(e_from), e.(e_to), e.(e_type), e.(e_title)).

(** The edge made from a reference [d] of the file [f] is one from the
    identifier of [f] to the node that matches [d], with the type of [d]
    and a title made of the two base names and the type. *)
Definition made_from (ns : list GraphNode) (e : GraphEdge) (f : CodeFile) (d : DependencyInfo)
    : Prop :=
  e.(e_from) = getNodeId f.(relativePath)
  ∧ findMatchingNode d.(d_path) ns = Some e.(e_to)
  ∧ e.(e_type) = Some d.(d_type)
  ∧ e.(e_title) = Some (Path.basename f.(relativePath) +:+ " → "
                        +:+ Path.basename d.(d_path)
                        +:+ " (" +:+ type_text d.(d_type) +:+ ")").

Definition countOf (e : GraphEdge) : nat := default 0 e.(e_count).

(** The text contains the separator [->] of the edge keys. *)
Fixpoint contains_arrow (s : string) : bool :=
  match s with
  | EmptyString => false
  | String "-" (String ">" _) => true
  | String _ s' => contains_arrow s'
  end.

(** *** Notions for the cycle records *)

(** The key under which [dfs] looks a cycle up among the records. *)
Definition cycleKeyOf (c : list string) : string := Js.join "->" (Js.sort c).





(** Every member of the record leads to every other member along the
    edges. *)
Definition connected (es : list GraphEdge) (c : list string) : Prop :=
  ∀ x y, x ∈ c → y ∈ c → rtc (edge_rel es) x y.

Definition flaggedEdge (e : GraphEdge) : Prop := e.(e_isCircular) = Some true.

(** *** Notions for extraction and resolution *)

(** A resolved path is the workspace-relative form of a path at which a
    regular file exists. *)
Definition names_a_file (env : Env) (workspacePath : string) (resolved : string) : Prop :=
  ∃ p, fileExists env p = true ∧ resolved = relativeToWorkspace env workspacePath p.

(** The reference types that the patterns of a language produce. *)
Definition referenceTypes : list (string * list DependencyType) :=
  [("javascript", [TImport; TRequire; TDynamicImport; TExport]);
   ("typescript", [TImport; TRequire; TDynamicImport; TExport]);
   ("python", [TImport; TFrom]);
   ("java", [TImport]);
   ("csharp", [TUsing]);
   ("c", [TInclude]);
   ("cpp", [TInclude]);
   ("go", [TImport]);
   ("rust", [TImport])].

(** The line count that the node of a file gets. *)
Definition lineCountOf (file : CodeFile) : nat := S (occurrences "010" file.(content)).

(** What the loop over the matches of [goImportRegex] pushes for a Go
    file: the single imports, with their line. *)
Definition goSingleReferences (env : Env) (workspacePath : string) (this : DependencyGraph)
    (file : CodeFile) : list DependencyInfo :=
  flat_map (λ m,
    match m_group1 m with
    | Some importPath =>
        if Js.truthy importPath then
          match resolveImportPath env workspacePath this importPath
                  (Path.dirname file.(path)) [".go"] with
          | Some resolved =>
              [{| d_path := resolved; d_type := TImport;
                  d_lineNumber := Some (lineNumberAt file.(content) (m_index m)) |}]
          | None => []
          end
        else []
    | None => []
    end) (exec_all env goImportRegex file.(content)).

(** What the loop over the matches of [goImportBlockRegex] pushes for a Go
    file: the quoted entries of every [import ( ... )] block. *)
Definition goBlockReferences (env : Env) (workspacePath : string) (this : DependencyGraph)
    (file : CodeFile) : list DependencyInfo :=
  flat_map (λ importBlockMatch,
    match m_group1 importBlockMatch with
    | Some blockContent =>
        flat_map (λ blockMatch,
          match m_group1 blockMatch with
          | Some importPath =>
              match resolveImportPath env workspacePath this importPath
                      (Path.dirname file.(path)) [".go"] with
              | Some resolved =>
                  [{| d_path := resolved; d_type := TImport; d_lineNumber := None |}]
              | None => []
              end
          | None => []
          end) (exec_all env blockRegex blockContent)
    | None => []
    end) (exec_all env goImportBlockRegex file.(content)).

(** The paths that the loop over the extensions tries, in order: for each
    extension the path with the extension, then the [index] file of the
    directory of that name. *)
Definition probeCandidates (fullPath : string) (extensions : list string) : list string :=
  flat_map (λ ext, [fullPath +:+ ext; Path.join [fullPath; "index" +:+ ext]]) extensions.

(** The paths that [resolveImportPath] tries, in order: for every alias
    that the import path starts with, the candidates of the aliased path
    under the workspace; then, for an import path that starts with a dot
    or a slash, the candidates of the path resolved against the directory
    of the file and that path itself. *)
Definition importCandidates (env : Env) (workspacePath : string) (this : DependencyGraph)
    (importPath currentDir : string) (extensions : list string) : list string :=
  flat_map (λ '(alias, aliasPath),
      if Js.startsWith importPath alias then
        probeCandidates (Path.join [workspacePath; Js.replace importPath alias aliasPath])
          extensions
      else []) this.(tsConfigPaths)
  ++ (if Js.startsWith importPath "." || Js.startsWith importPath "/" then
        let fullPath := Path.resolve (cwd env) currentDir importPath in
        probeCandidates fullPath extensions ++ [fullPath]
      else []).

(** The paths that [resolveIncludePath] tries, in order. *)
Definition includeCandidates (env : Env) (includePath currentDir : string) : list string :=
  let fullPath := Path.resolve (cwd env) currentDir includePath in
  map (λ ext, fullPath +:+ ext) [".h"; ".hpp"; ".c"; ".cpp"] ++ [fullPath].

(** The directories that [resolveJavaImport] searches, nearest first: the
    directory of the file and its ancestors, [n] of them at most. *)
Fixpoint searchedDirs (n : nat) (searchDir : string) : list string :=
  match n with
  | O => []
  | S n' =>
      searchDir ::
      (if String.eqb (Path.dirname searchDir) searchDir then []
       else searchedDirs n' (Path.dirname searchDir))
  end.

(** The class file of an import below a directory. *)
Definition classFile (importPath searchDir : string) : string :=
  let parts := Js.split "." importPath in
  Path.join [searchDir; Js.join "/" (removelast parts); List.last parts "" +:+ ".java"].

(** The steps of [resolvePythonImport]: for each part of the dotted name,
    the module file and the package marker of the path walked so far. *)
Fixpoint pythonSteps (searchPath : string) (parts : list string) : list (string * string) :=
  match parts with
  | [] => []
  | part :: rest =>
      let potentialPath := Path.join [searchPath; part] in
      (potentialPath +:+ ".py", Path.join [potentialPath; "__init__.py"])
      :: pythonSteps potentialPath rest
  end.

(** The steps of [resolveRustImport]: for each part, the crate root, the
    module marker and the module file of the path walked so far. *)
Fixpoint rustSteps (searchPath : string) (parts : list string)
    : list (string * string * string) :=
  match parts with
  | [] => []
  | part :: rest =>
      let potentialPath := Path.join [searchPath; part] in
      (Path.join [potentialPath; "lib.rs"], Path.join [potentialPath; "mod.rs"],
       potentialPath +:+ ".rs")
      :: rustSteps potentialPath rest
  end.

(** The segments of a directory and of its ancestors, nearest first, [n]
    of them at most. *)
Fixpoint upward (n : nat) (segs : list string) : list (list string) :=
  match n with
  | O => []
  | S n' =>
      segs :: match segs with
              | [] => []
              | _ :: _ => upward n' (removelast segs)
              end
  end.

(** *** Notions for the collector *)

(** The languages of the language table. *)
Definition knownLanguages : list string := map snd languageMap.

(** What holds of every record that the collector pushes. *)
Definition well_collected (cwd rootPath : string) (cf : CodeFile) : Prop :=
  shouldIgnore cf.(relativePath) = false
  ∧ cf.(relativePath) = Path.relative cwd rootPath cf.(path)
  ∧ cf.(language) ∈ knownLanguages
  ∧ cf.(language) ≠ "unknown"
  ∧ getLanguageGroup cf.(language) ≠ 0.

(** The tree without the entries whose name is an ignored name. *)
Fixpoint strip (e : Entry) : list Entry :=
  if includes ignorePatterns (entry_name e) then []
  else match e with
       | Dir name (Some entries) => [Dir name (Some (flat_map strip entries))]
       | _ => [e]
       end.

(** The names of the entries of every directory are pairwise distinct. *)
Fixpoint distinct_names (e : Entry) : bool :=
  match e with
  | Dir _ (Some entries) =>
      bool_decide (NoDup (map entry_name entries)) && forallb distinct_names entries
  | _ => true
  end.

Definition no_backslash (s : string) : bool :=
  forallb (λ c, negb (Ascii.eqb c "\"%char)) (list_ascii_of_string s).

(** No name of the tree contains a backslash. *)
Fixpoint plain_names (e : Entry) : bool :=
  no_backslash (entry_name e)
  && match e with
     | Dir _ (Some entries) => forallb plain_names entries
     | _ => true
     end.

(** What the scan of an entry met in the directory [ds] adds: records with
    pairwise distinct relative paths that lead through [ds] and the name
    of the entry. *)
Definition adds_distinct (cwd : string) (rs : list string) (e : Entry) : Prop :=
  valid_entry e = true → distinct_names e = true →
  ∀ ds files files',
    forallb valid_name ds = true →
    scanEntry cwd (abs_path rs) (abs_path (rs ++ ds)) e files = Returned files' →
    ∃ new, files' = files ++ new
           ∧ NoDup (map relativePath new)
           ∧ ∀ cf, cf ∈ new →
               ∃ more, cf.(relativePath) = Js.join "/" (ds ++ entry_name e :: more)
                       ∧ forallb valid_name more = true
                       ∧ (plain_names e = true → forallb no_backslash more = true).


(** *** Notions for the alias table and the webview *)

(** The pairs that loading the configuration of a workspace sets, in
    order. *)
Definition configuredSets (env : Env) (workspacePath : string) : list (string * string) :=
  match readTsConfig env (Path.join [workspacePath; "tsconfig.json"]) with
  | TsPaths entries => effective entries
  | TsUnavailable => []
  end.

(** [s.replace(/c/g, rep)] for a one-character pattern and a replacement
    text without [$]. *)
Fixpoint replaceAllChar (c : ascii) (rep : string) (s : string) : string :=
  match s with
  | EmptyString => EmptyString
  | String d s' =>
      if Ascii.eqb d c then rep +:+ replaceAllChar c rep s'
      else String d (replaceAllChar c rep s')
  end.

(** [_getHtmlForWebview]: [graphDataJson], the text that replaces the
    [GRAPHDATA] placeholder of the page template, made from the text
    [json = JSON.stringify(graphData)] by
    [.replace(/</g, '&lt;').replace(/>/g, '&gt;')]. *)
Definition escapeGraphJson (json : string) : string :=
  replaceAllChar ">" "&gt;" (replaceAllChar "<" "&lt;" json).

(** The pattern [/\{\{GRAPHDATA\}\}/g] matches this text. *)
Definition placeholder : string := "{{GRAPHDATA}}".

(** [html.replace(/\{\{GRAPHDATA\}\}/g, graphDataJson)]: what the page
    template [html] becomes when the graph is put in. *)
Definition insertGraphData (html json : string) : string :=
  Js.replaceAll html placeholder (escapeGraphJson json).

(** *** Further concrete inputs *)

(** A Ruby file with a [require] line: no pattern is tried on it. *)
Definition rubyFile : CodeFile :=
  {| path := "/ws/a.rb"; relativePath := "a.rb";
     content := "require './b'"; language := "ruby" |}.


(** A text in double quotes. *)
Definition quoted (s : string) : string := String "034" (s +:+ String "034" "").

(** A page template with one placeholder, and the JSON text of an object
    that holds one name. *)
Definition pageTemplate : string :=
  "<script>const graphData = {{GRAPHDATA}};</script>".

Definition namedJson (name : string) : string :=
  "{" +:+ quoted "id" +:+ ":" +:+ quoted name +:+ "}".

(** Two cycles of two files each, x.ts with y.ts->z.ts->z.ts and z.ts with
    x.ts->x.ts->y.ts: the sorted members of both, joined by [->], give the
    same text. *)
Definition keyClashEntries : list Entry :=
  [File "x.ts" (Some (importFrom "./y.ts->z.ts->z"));
   File "y.ts->z.ts->z.ts" (Some (importFrom "./x"));
   File "z.ts" (Some (importFrom "./x.ts->x.ts->y"));
   File "x.ts->x.ts->y.ts" (Some (importFrom "./z"))].

Definition keyClashWorld : World :=
  exampleWorld keyClashEntries
    [importRow "./y.ts->z.ts->z"; importRow "./x"; importRow "./x.ts->x.ts->y";
     importRow "./z"].

(** The flagged edge from a.ts to b.ts of the graph of [chordWorld]. *)
Definition chordEdge : GraphEdge :=
  {| e_from := "a.ts"; e_to := "b.ts"; e_value := 1;
     e_title := Some "a.ts → b.ts (import)"; e_type := Some TImport;
     e_count := Some 1; e_isCircular := Some true |}.

End More.

(** * Properties *)

Import Examples.

(** ** Generic facts on the list primitives *)

Section ListFacts.
Context {A S : Type}.

Lemma fold_left_invariant (P : S → Prop) (f : S → A → S) (l : list A) (s : S) :
  P s → (∀ s x, x ∈ l → P s → P (f s x)) → P (fold_left f l s).
Proof.
  revert s. induction l as [|x l IH]; intros s Hs Hstep; simpl; [done|].
  apply IH.
  - apply Hstep; [left | done].
  - intros s' y Hy. apply Hstep. by right.
Qed.

Lemma fold_left_filter_skip (keep : A → bool) (f : S → A → S) (l : list A) (s : S) :
  (∀ s x, keep x = false → f s x = s) →
  fold_left f (List.filter keep l) s = fold_left f l s.
Proof.
  intros Hskip. revert s. induction l as [|x l IH]; intros s; simpl; [done|].
  destruct (keep x) eqn:Hk; simpl; [apply IH|].
  rewrite Hskip by done. apply IH.
Qed.

Lemma find_first_Some (pred : A → bool) (l : list A) (x : A) :
  find_first pred l = Some x → x ∈ l ∧ pred x = true.
Proof.
  induction l as [|y l IH]; simpl; [done|].
  destruct (pred y) eqn:Hy.
  - intros [= ->]. split; [left | done].
  - intros H. destruct (IH H). split; [by right | done].
Qed.

Lemma find_first_None (pred : A → bool) (l : list A) :
  find_first pred l = None ↔ ∀ x, x ∈ l → pred x = false.
Proof.
  induction l as [|y l IH]; simpl.
  - split; [|done]. intros _ x Hx. by apply elem_of_nil in Hx.
  - destruct (pred y) eqn:Hy.
    + split; [done|]. intros H. specialize (H y (list_elem_of_here _ _)). congruence.
    + rewrite IH. split.
      * intros H x Hx. apply elem_of_cons in Hx as [->|Hx]; [done | by apply H].
      * intros H x Hx. apply H. by right.
Qed.

Lemma find_first_existsb (pred : A → bool) (l : list A) :
  is_Some (find_first pred l) ↔ existsb pred l = true.
Proof.
  induction l as [|y l IH]; simpl.
  - split; [by intros [? ?] | done].
  - destruct (pred y); simpl; [|done]. split; [done | by eexists].
Qed.

Lemma update_first_map {B : Type} (g : A → B) (pred : A → bool) (f : A → A) (l : list A) :
  (∀ x, g (f x) = g x) → map g (update_first pred f l) = map g l.
Proof.
  intros Hg. induction l as [|y l IH]; simpl; [done|].
  destruct (pred y); simpl; [by rewrite Hg | by rewrite IH].
Qed.

Lemma update_first_length (pred : A → bool) (f : A → A) (l : list A) :
  List.length (update_first pred f l) = List.length l.
Proof.
  induction l as [|y l IH]; simpl; [done|]. destruct (pred y); simpl; congruence.
Qed.

End ListFacts.

Lemma elem_of_map {A B : Type} (f : A → B) (l : list A) (y : B) :
  y ∈ map f l ↔ ∃ x, y = f x ∧ x ∈ l.
Proof. exact (list_elem_of_fmap f l y). Qed.

Lemma elem_of_map_2 {A B : Type} (f : A → B) (l : list A) (x : A) :
  x ∈ l → f x ∈ map f l.
Proof. exact (list_elem_of_fmap_2 f l x). Qed.

Lemma lookup_map {A B : Type} (f : A → B) (l : list A) (i : nat) :
  map f l !! i = f <$> l !! i.
Proof. exact (list_lookup_fmap f l i). Qed.

Lemma alter_map {A B : Type} (g : A → B) (f : A → A) (i : nat) (l : list A) :
  (∀ x, g (f x) = g x) → map g (alter f i l) = map g l.
Proof.
  intros Hg. revert i. induction l as [|y l IH]; intros [|i]; simpl; try done.
  - by rewrite Hg.
  - f_equal. apply IH.
Qed.

(** ** Endpoints of edges and identifiers of nodes *)

Lemma findMatchingNode_id depPath ns i :
  findMatchingNode depPath ns = Some i → i ∈ map n_id ns.
Proof.
  unfold findMatchingNode.
  destruct (find_first _ ns) as [n|] eqn:H1.
  - intros [= <-]. apply find_first_Some in H1 as [Hn _].
    apply elem_of_map. eauto.
  - clear H1. destruct (find_first _ ns) as [n|] eqn:H2; [|done].
    intros [= <-]. apply find_first_Some in H2 as [Hn _].
    apply elem_of_map. eauto.
Qed.

Lemma countEdge_ids ns e : map n_id (countEdge ns e) = map n_id ns.
Proof. unfold countEdge. by rewrite !update_first_map. Qed.

Lemma fold_countEdge_ids es ns : map n_id (fold_left countEdge es ns) = map n_id ns.
Proof.
  apply (fold_left_invariant (λ s, map n_id s = map n_id ns)); [done|].
  intros s e _ Hs. by rewrite countEdge_ids.
Qed.

Lemma markCircleNodes_ids ns c : map n_id (markCircleNodes ns c) = map n_id ns.
Proof.
  unfold markCircleNodes.
  apply (fold_left_invariant (λ s, map n_id s = map n_id ns)); [done|].
  intros s x _ Hs. by rewrite update_first_map.
Qed.

Lemma fold_markCircleNodes_ids cs ns :
  map n_id (fold_left markCircleNodes cs ns) = map n_id ns.
Proof.
  apply (fold_left_invariant (λ s, map n_id s = map n_id ns)); [done|].
  intros s c _ Hs. by rewrite markCircleNodes_ids.
Qed.

Lemma markCircleEdges_endpoints es c :
  map endpoints (markCircleEdges es c) = map endpoints es.
Proof.
  unfold markCircleEdges.
  apply (fold_left_invariant (λ s, map endpoints s = map endpoints es)); [done|].
  intros s [x y] _ Hs. by rewrite update_first_map.
Qed.

Lemma fold_markCircleEdges_endpoints cs es :
  map endpoints (fold_left markCircleEdges cs es) = map endpoints es.
Proof.
  apply (fold_left_invariant (λ s, map endpoints s = map endpoints es)); [done|].
  intros s c _ Hs. by rewrite markCircleEdges_endpoints.
Qed.

Lemma makeNode_ids files : map n_id (map makeNode files) = map (λ f, getNodeId f.(relativePath)) files.
Proof. by rewrite map_map. Qed.

Section EdgeEndpoints.
Variable extract : CodeFile → list DependencyInfo.
Variable ns : list GraphNode.

Lemma addDependency_endpoints srcs file st d :
  getNodeId file.(relativePath) ∈ srcs →
  endpoints_ok ns srcs st →
  endpoints_ok ns srcs (addDependency ns file (getNodeId file.(relativePath)) st d).
Proof.
  intros Hsrc Hst. unfold addDependency.
  destruct (findMatchingNode _ ns) as [t|] eqn:Hm; [|done].
  destruct (_ && _); [|done].
  destruct (es_edgeMap st !! _) as [i|].
  - intros e He; simpl in He.
    apply (elem_of_map_2 endpoints) in He.
    rewrite alter_map in He by done.
    apply elem_of_map in He as (e' & Heq & He').
    unfold endpoints in Heq. injection Heq as -> ->. by apply Hst.
  - intros e He; simpl in He. apply elem_of_app in He as [He|He]; [by apply Hst|].
    apply list_elem_of_singleton in He as ->. simpl.
    split; [done | by eapply findMatchingNode_id].
Qed.

Lemma buildEdges_endpoints files e :
  e ∈ buildEdges extract ns files →
  e.(e_from) ∈ map (λ f, getNodeId f.(relativePath)) files ∧ e.(e_to) ∈ map n_id ns.
Proof.
  unfold buildEdges.
  set (srcs := map (λ f, getNodeId f.(relativePath)) files).
  assert (endpoints_ok ns srcs (fold_left (addFile extract ns) files emptyEdgeStore)) as H;
    [|by apply H].
  apply fold_left_invariant.
  - intros e' He'. by apply elem_of_nil in He'.
  - intros st file Hfile Hst. unfold addFile.
    apply fold_left_invariant; [done|].
    intros st' d _ Hst'. apply addDependency_endpoints; [|done].
    apply elem_of_map. eauto.
Qed.

End EdgeEndpoints.

Lemma assemble_node_ids extract files :
  map n_id (assemble extract files).(nodes) = map (λ f, getNodeId f.(relativePath)) files.
Proof.
  unfold assemble; simpl.
  by rewrite fold_markCircleNodes_ids, fold_countEdge_ids, makeNode_ids.
Qed.

Lemma assemble_edge_endpoints extract files :
  map endpoints (assemble extract files).(edges)
  = map endpoints (buildEdges extract (map makeNode files) files).
Proof. unfold assemble; simpl. by rewrite fold_markCircleEdges_endpoints. Qed.

(** C10. In every graph returned by the builder, the source and the
    target of every edge are identifiers of nodes of the node list: an
    edge leaves a collected file and enters a node returned by node
    matching. *)
Theorem C10_edge_endpoints_are_nodes (extract : CodeFile → list DependencyInfo)
    (files : list CodeFile) (e : GraphEdge) :
  let g := assemble extract files in
  e ∈ g.(edges) →
  (∃ n, n ∈ g.(nodes) ∧ n.(n_id) = e.(e_from))
  ∧ (∃ n, n ∈ g.(nodes) ∧ n.(n_id) = e.(e_to)).
Proof.
  intros g He.
  apply (elem_of_map_2 endpoints) in He.
  unfold g in He. rewrite assemble_edge_endpoints in He.
  apply elem_of_map in He as (e' & Heq & He').
  apply buildEdges_endpoints in He' as [Hf Ht].
  unfold endpoints in Heq. injection Heq as Hfrom Hto.
  rewrite <- (assemble_node_ids extract files) in Hf.
  rewrite makeNode_ids, <- (assemble_node_ids extract files) in Ht.
  rewrite Hfrom, Hto.
  apply elem_of_map in Hf as (n1 & -> & Hn1).
  apply elem_of_map in Ht as (n2 & -> & Hn2).
  split; eauto.
Qed.

(** ** Dependency and dependent counts *)

Lemma or_default_zero (x : option nat) : or_default x 0 = default 0 x.
Proof. by destruct x as [[|n]|]. Qed.

(** The node that an identifier denotes: the first one that carries it,
    as [nodes.find(n => n.id === i)] returns it. *)
Lemma find_update_first (i x : string) (f : GraphNode → GraphNode) (ns : list GraphNode) :
  (∀ n, n_id (f n) = n_id n) →
  find_first (has_id i) (update_first (has_id x) f ns)
  = (λ n, if has_id x n then f n else n) <$> find_first (has_id i) ns.
Proof.
  intros Hid. induction ns as [|n ns IH]; [done|]. cbn [update_first find_first].
  destruct (has_id x n) eqn:Hx; cbn [find_first].
  - assert (has_id i (f n) = has_id i n) as -> by (unfold has_id; by rewrite Hid).
    destruct (has_id i n) eqn:Hi; simpl; [by rewrite Hx|].
    destruct (find_first (has_id i) ns) as [m|] eqn:Hm; [|done]. simpl.
    apply find_first_Some in Hm as [_ Hm].
    assert (has_id x m = false) as ->; [|done].
    unfold has_id in *. apply String.eqb_eq in Hx, Hm. apply String.eqb_neq in Hi.
    apply String.eqb_neq. congruence.
  - destruct (has_id i n) eqn:Hi; simpl; [by rewrite Hx | apply IH].
Qed.

Lemma find_first_self (ns : list GraphNode) (n : GraphNode) :
  NoDup (map n_id ns) → n ∈ ns → find_first (has_id n.(n_id)) ns = Some n.
Proof.
  induction ns as [|m ns IH]; [by intros _ ?%elem_of_nil|]. simpl.
  intros [Hm Hnd]%NoDup_cons [->|Hin]%elem_of_cons.
  - unfold has_id. by rewrite String.eqb_refl.
  - unfold has_id at 1. destruct (String.eqb_spec (n_id m) (n_id n)) as [Heq|_]; [|by apply IH].
    exfalso. apply Hm. rewrite Heq. by apply elem_of_map_2.
Qed.

Lemma addCounts_nil n : counted n → addCounts [] n = n.
Proof.
  destruct n as [? ? ? ? ? ? ? dc tc ?]. intros [[a Ha] [b Hb]]; simpl in *. subst.
  unfold addCounts, dependencyCountOf, dependentCountOf; simpl.
  by rewrite !Nat.add_0_r.
Qed.

Lemma addCounts_cons e es n :
  addCounts es ((if has_id e.(e_to) n then incDependentCount else id)
                  ((if has_id e.(e_from) n then incDependencyCount else id) n))
  = addCounts (e :: es) n.
Proof.
  unfold addCounts, edges_from, edges_to, has_id.
  rewrite !filter_cons.
  destruct (String.eqb_spec (n_id n) (e_from e)) as [Hf|Hf];
    destruct (String.eqb_spec (n_id n) (e_to e)) as [Ht|Ht]; simpl;
    repeat (destruct (decide _) as [?|?]; try congruence); simpl;
    unfold dependencyCountOf, dependentCountOf; simpl;
    rewrite ?or_default_zero; f_equal; f_equal; lia.
Qed.

Lemma find_countEdge i ns e :
  find_first (has_id i) (countEdge ns e)
  = (λ n, (if has_id e.(e_to) n then incDependentCount else id)
            ((if has_id e.(e_from) n then incDependencyCount else id) n))
    <$> find_first (has_id i) ns.
Proof.
  unfold countEdge. rewrite !find_update_first by done.
  destruct (find_first (has_id i) ns) as [n|]; [|done]. simpl. f_equal.
  destruct (has_id (e_from e) n); simpl.
  - change (has_id (e_to e) (incDependencyCount n)) with (has_id (e_to e) n).
    by destruct (has_id (e_to e) n).
  - by destruct (has_id (e_to e) n).
Qed.

Lemma countEdge_counted ns e : Forall counted ns → Forall counted (countEdge ns e).
Proof.
  intros Hc. unfold countEdge.
  assert (∀ (pred : GraphNode → bool) f l,
            (∀ n, counted n → counted (f n)) →
            Forall counted l → Forall counted (update_first pred f l)) as Hup.
  { intros pred f l Hf. induction 1 as [|n l Hn Hl IH]; simpl; [done|].
    destruct (pred n); constructor; auto. }
  apply Hup; [|apply Hup; [|done]].
  - intros n [Ha Hb]. split; [done | by eexists].
  - intros n [Ha Hb]. split; [by eexists | done].
Qed.

Lemma find_fold_countEdge i es ns :
  Forall counted ns →
  find_first (has_id i) (fold_left countEdge es ns)
  = addCounts es <$> find_first (has_id i) ns.
Proof.
  revert ns. induction es as [|e es IH]; intros ns Hc; simpl.
  - destruct (find_first (has_id i) ns) as [n|] eqn:Hn; [|done]. simpl. f_equal.
    symmetry. apply addCounts_nil. apply find_first_Some in Hn as [Hn _].
    rewrite Forall_forall in Hc. by apply Hc.
  - rewrite IH by by apply countEdge_counted. rewrite find_countEdge.
    destruct (find_first (has_id i) ns) as [n|]; [|done]. simpl. f_equal.
    apply addCounts_cons.
Qed.

Lemma find_markCircleNodes i ns c :
  counts <$> find_first (has_id i) (markCircleNodes ns c)
  = counts <$> find_first (has_id i) ns.
Proof.
  unfold markCircleNodes. revert ns. induction c as [|x c IH]; intros ns; [done|].
  simpl. rewrite IH, find_update_first by done.
  destruct (find_first (has_id i) ns) as [n|]; [|done]. simpl.
  by destruct (has_id x n).
Qed.

Lemma find_fold_markCircleNodes i cs ns :
  counts <$> find_first (has_id i) (fold_left markCircleNodes cs ns)
  = counts <$> find_first (has_id i) ns.
Proof.
  revert ns. induction cs as [|c cs IH]; intros ns; [done|].
  simpl. by rewrite IH, find_markCircleNodes.
Qed.

Lemma edges_from_endpoints es es' i :
  map endpoints es = map endpoints es' →
  List.length (edges_from es i) = List.length (edges_from es' i).
Proof.
  revert es'. induction es as [|e es IH]; intros [|e' es']; simpl; try done.
  intros [= Hf Ht Hrest]. unfold edges_from in *. rewrite !filter_cons.
  specialize (IH es' Hrest).
  repeat (destruct (decide _) as [?|?]; try congruence); simpl; congruence.
Qed.

Lemma edges_to_endpoints es es' i :
  map endpoints es = map endpoints es' →
  List.length (edges_to es i) = List.length (edges_to es' i).
Proof.
  revert es'. induction es as [|e es IH]; intros [|e' es']; simpl; try done.
  intros [= Hf Ht Hrest]. unfold edges_to in *. rewrite !filter_cons.
  specialize (IH es' Hrest).
  repeat (destruct (decide _) as [?|?]; try congruence); simpl; congruence.
Qed.

Lemma endpoints_length es es' :
  map endpoints es = map endpoints es' → List.length es = List.length es'.
Proof. intros H. by rewrite <- (length_map endpoints es), H, length_map. Qed.

Lemma markCircleNodes_counts ns c : map counts (markCircleNodes ns c) = map counts ns.
Proof.
  unfold markCircleNodes.
  apply (fold_left_invariant (λ s, map counts s = map counts ns)); [done|].
  intros s x _ Hs. by rewrite update_first_map.
Qed.

Lemma fold_markCircleNodes_counts cs ns :
  map counts (fold_left markCircleNodes cs ns) = map counts ns.
Proof.
  apply (fold_left_invariant (λ s, map counts s = map counts ns)); [done|].
  intros s c _ Hs. by rewrite markCircleNodes_counts.
Qed.

Lemma sum_incDependencyCount x ns :
  sum_list (map dependencyCountOf (update_first (has_id x) incDependencyCount ns))
  = sum_list (map dependencyCountOf ns) + (if bool_decide (x ∈ map n_id ns) then 1 else 0).
Proof.
  induction ns as [|n ns IH]; [done|]. cbn [map update_first].
  unfold has_id at 1. destruct (String.eqb_spec (n_id n) x) as [Hx|Hx]; cbn [map sum_list].
  - rewrite bool_decide_true by (apply elem_of_cons; by left).
    unfold dependencyCountOf at 1; cbn [n_dependencyCount incDependencyCount].
    rewrite or_default_zero. unfold dependencyCountOf, default, id. lia.
  - rewrite IH. rewrite (bool_decide_ext (x ∈ n_id n :: map n_id ns) (x ∈ map n_id ns)).
    + lia.
    + rewrite elem_of_cons. split; [intros [?|?]; [congruence | done] | by right].
Qed.

Lemma sum_incDependentCount x ns :
  sum_list (map dependentCountOf (update_first (has_id x) incDependentCount ns))
  = sum_list (map dependentCountOf ns) + (if bool_decide (x ∈ map n_id ns) then 1 else 0).
Proof.
  induction ns as [|n ns IH]; [done|]. cbn [map update_first].
  unfold has_id at 1. destruct (String.eqb_spec (n_id n) x) as [Hx|Hx]; cbn [map sum_list].
  - rewrite bool_decide_true by (apply elem_of_cons; by left).
    unfold dependentCountOf at 1; cbn [n_dependentCount incDependentCount].
    rewrite or_default_zero. unfold dependentCountOf, default, id. lia.
  - rewrite IH. rewrite (bool_decide_ext (x ∈ n_id n :: map n_id ns) (x ∈ map n_id ns)).
    + lia.
    + rewrite elem_of_cons. split; [intros [?|?]; [congruence | done] | by right].
Qed.

Lemma sum_countEdge ns e :
  e.(e_from) ∈ map n_id ns → e.(e_to) ∈ map n_id ns →
  sum_list (map dependencyCountOf (countEdge ns e)) = S (sum_list (map dependencyCountOf ns))
  ∧ sum_list (map dependentCountOf (countEdge ns e)) = S (sum_list (map dependentCountOf ns)).
Proof.
  intros Hf Ht. unfold countEdge. split.
  - rewrite (update_first_map dependencyCountOf) by done.
    rewrite sum_incDependencyCount, bool_decide_true by done. lia.
  - rewrite sum_incDependentCount.
    rewrite (update_first_map n_id), bool_decide_true by done.
    rewrite (update_first_map dependentCountOf) by done. lia.
Qed.

Lemma sum_fold_countEdge es ns :
  (∀ e, e ∈ es → e.(e_from) ∈ map n_id ns ∧ e.(e_to) ∈ map n_id ns) →
  sum_list (map dependencyCountOf (fold_left countEdge es ns))
  = sum_list (map dependencyCountOf ns) + List.length es
  ∧ sum_list (map dependentCountOf (fold_left countEdge es ns))
    = sum_list (map dependentCountOf ns) + List.length es.
Proof.
  revert ns. induction es as [|e es IH]; intros ns Hes; simpl; [lia|].
  destruct (Hes e) as [Hf Ht]; [by left|].
  destruct (sum_countEdge ns e Hf Ht) as [H1 H2].
  destruct (IH (countEdge ns e)) as [H3 H4].
  - intros e' He'. rewrite countEdge_ids. apply Hes. by right.
  - rewrite H3, H4, H1, H2. lia.
Qed.

Lemma sum_makeNode files :
  sum_list (map dependencyCountOf (map makeNode files)) = 0
  ∧ sum_list (map dependentCountOf (map makeNode files)) = 0.
Proof. induction files as [|f files [IH1 IH2]]; simpl; [done|]. by rewrite IH1, IH2. Qed.

Lemma map_counts_dependencyCountOf ns ns' :
  map counts ns = map counts ns' →
  map dependencyCountOf ns = map dependencyCountOf ns'
  ∧ map dependentCountOf ns = map dependentCountOf ns'.
Proof.
  revert ns'. induction ns as [|n ns IH]; intros [|n' ns']; simpl; try done.
  intros [= Hid Hdc Htc Hrest]. destruct (IH ns' Hrest) as [-> ->].
  unfold dependencyCountOf, dependentCountOf. by rewrite Hdc, Htc.
Qed.

Lemma find_index_Some {A} (pred : A → bool) (l : list A) (i : nat) :
  find_index pred l = Some i →
  ∃ x, l !! i = Some x ∧ find_first pred l = Some x ∧ pred x = true.
Proof.
  revert i. induction l as [|y l IH]; intros i; simpl; [done|].
  destruct (pred y) eqn:Hy.
  - intros [= <-]. by exists y.
  - destruct (find_index pred l) as [j|]; [|done]. intros [= <-].
    destruct (IH j eq_refl) as (x & Hx & Hf & Hp). by exists x.
Qed.

Lemma find_index_ids x (ns ns' : list GraphNode) :
  map n_id ns = map n_id ns' → find_index (has_id x) ns = find_index (has_id x) ns'.
Proof.
  revert ns'. induction ns as [|n ns IH]; intros [|n' ns']; simpl; try done.
  intros [= Hid Hrest]. unfold has_id at 1 3. rewrite Hid, (IH ns' Hrest). done.
Qed.

Lemma update_first_lookup_ne {A} (pred : A → bool) (f : A → A) (l : list A) (i : nat) :
  find_index pred l ≠ Some i → update_first pred f l !! i = l !! i.
Proof.
  revert i. induction l as [|y l IH]; intros i Hi; simpl in *; [done|].
  destruct (pred y).
  - destruct i as [|i]; [done|]. done.
  - destruct i as [|i]; [done|]. simpl. apply IH. intros Hj. apply Hi. by rewrite Hj.
Qed.

(** A node that comes after another node of the same identifier is never
    the one that a lookup by identifier returns: no update reaches it. *)
Lemma update_first_shadowed x (f : GraphNode → GraphNode) ns i n :
  ns !! i = Some n → find_index (has_id n.(n_id)) ns ≠ Some i →
  update_first (has_id x) f ns !! i = Some n.
Proof.
  intros Hi Hsh. rewrite update_first_lookup_ne; [done|].
  intros Hx. apply Hsh.
  destruct (find_index_Some _ _ _ Hx) as (y & Hy & _ & Hid).
  rewrite Hi in Hy. injection Hy as <-.
  unfold has_id in Hid. apply String.eqb_eq in Hid. by rewrite Hid.
Qed.

Lemma assemble_shadowed extract files i n0 :
  map makeNode files !! i = Some n0 →
  find_index (has_id n0.(n_id)) (map makeNode files) ≠ Some i →
  (assemble extract files).(nodes) !! i = Some n0.
Proof.
  intros Hi Hsh. unfold assemble; simpl.
  set (ns0 := map makeNode files) in *.
  set (Q := λ s : list GraphNode, map n_id s = map n_id ns0 ∧ s !! i = Some n0).
  assert (∀ x f s, (∀ y, n_id (f y) = n_id y) → Q s → Q (update_first (has_id x) f s))
    as Hstep.
  { intros x f s Hf [Hids Hs]. split; [by rewrite update_first_map|].
    apply update_first_shadowed; [done|]. by rewrite (find_index_ids _ _ _ Hids). }
  enough (Q (fold_left markCircleNodes
               (detectCircularDependencies (fold_left countEdge (buildEdges extract ns0 files) ns0)
                  (buildEdges extract ns0 files))
               (fold_left countEdge (buildEdges extract ns0 files) ns0))) as [_ H] by done.
  apply fold_left_invariant.
  - apply fold_left_invariant; [done|].
    intros s e _ Hs. unfold countEdge. by repeat apply Hstep.
  - intros s c _ Hs. unfold markCircleNodes. apply fold_left_invariant; [done|].
    intros s' x _ Hs'. by apply Hstep.
Qed.

Lemma filter_none {A} (P : A → Prop) `{∀ x, Decision (P x)} (l : list A) :
  (∀ x, x ∈ l → ¬ P x) → filter P l = [].
Proof.
  induction l as [|x l IH]; intros Hl; [done|].
  rewrite filter_cons, decide_False by (apply Hl; by left).
  apply IH. intros y Hy. apply Hl. by right.
Qed.

(** X27. In every built graph a count belongs to the node that the lookup
    by identifier returns, the first node of that identifier: its
    dependency count is the number of edges whose source denotes it and
    its dependent count the number of edges whose target denotes it.
    When the identifiers are pairwise distinct, each node's counts are the
    numbers of edges that carry its identifier as source and as target.
    The dependency counts always add up to the number of edges, and so do
    the dependent counts. *)
Theorem counts_match_edges (extract : CodeFile → list DependencyInfo)
    (files : list CodeFile) :
  let g := assemble extract files in
  (∀ i n, g.(nodes) !! i = Some n →
     n.(n_dependencyCount) = Some (List.length (edges_out_of g.(nodes) g.(edges) i))
     ∧ n.(n_dependentCount) = Some (List.length (edges_into g.(nodes) g.(edges) i)))
  ∧ (NoDup (map n_id g.(nodes)) →
     ∀ n, n ∈ g.(nodes) →
       n.(n_dependencyCount) = Some (List.length (edges_from g.(edges) n.(n_id)))
       ∧ n.(n_dependentCount) = Some (List.length (edges_to g.(edges) n.(n_id))))
  ∧ sum_list (map dependencyCountOf g.(nodes)) = List.length g.(edges)
  ∧ sum_list (map dependentCountOf g.(nodes)) = List.length g.(edges).
Proof.
  intros g.
  set (nodes0 := map makeNode files).
  set (edges0 := buildEdges extract nodes0 files).
  assert (map counts g.(nodes) = map counts (fold_left countEdge edges0 nodes0)) as Hcounts.
  { unfold g, assemble; simpl. by rewrite fold_markCircleNodes_counts. }
  assert (map endpoints g.(edges) = map endpoints edges0) as Hends.
  { apply assemble_edge_endpoints. }
  assert (∀ i n, find_first (has_id i) g.(nodes) = Some n →
     n.(n_dependencyCount) = Some (List.length (edges_from g.(edges) i))
     ∧ n.(n_dependentCount) = Some (List.length (edges_to g.(edges) i))) as Hkeyed.
  { intros i n Hn.
    assert (counts <$> find_first (has_id i) g.(nodes)
            = counts <$> (addCounts edges0 <$> find_first (has_id i) nodes0)) as Hfind.
    { unfold g, assemble; simpl. fold nodes0. fold edges0.
      rewrite find_fold_markCircleNodes, find_fold_countEdge; [done|].
      apply Forall_forall. intros m Hm. apply elem_of_map in Hm as (f & -> & _).
      split; by eexists. }
    rewrite Hn in Hfind.
    destruct (find_first (has_id i) nodes0) as [n0|] eqn:Hn0; [|done].
    apply find_first_Some in Hn0 as [Hin0 Hid0].
    apply elem_of_map in Hin0 as (f & -> & _).
    unfold has_id in Hid0. apply String.eqb_eq in Hid0.
    simpl in Hfind. unfold counts in Hfind. injection Hfind as Hid Hdc Htc.
    rewrite Hdc, Htc. cbn [n_id makeNode] in *. rewrite Hid0.
    rewrite (edges_from_endpoints _ _ _ Hends), (edges_to_endpoints _ _ _ Hends).
    done. }
  split; [|split].
  - intros i n Hi.
    assert (map n_id g.(nodes) = map n_id nodes0) as Hids
      by (unfold g, nodes0; by rewrite assemble_node_ids, makeNode_ids).
    destruct (decide (find_index (has_id n.(n_id)) g.(nodes) = Some i)) as [Hfirst|Hsh].
    + (* the node is the one its identifier denotes *)
      destruct (find_index_Some _ _ _ Hfirst) as (m & Hm & Hfind & _).
      rewrite Hi in Hm. injection Hm as <-.
      destruct (Hkeyed _ _ Hfind) as [-> ->].
      assert (∀ x, find_index (has_id x) g.(nodes) = Some i ↔ x = n.(n_id)) as Hden.
      { intros x. split; [|by intros ->].
        intros Hx. destruct (find_index_Some _ _ _ Hx) as (m & Hm & _ & Hid).
        rewrite Hi in Hm. injection Hm as <-.
        unfold has_id in Hid. by apply String.eqb_eq in Hid. }
      unfold edges_out_of, edges_into, edges_from, edges_to.
      split; do 2 f_equal; apply list_filter_iff; intros e; symmetry; apply Hden.
    + (* another node of the same identifier comes first *)
      assert (∃ n0, nodes0 !! i = Some n0 ∧ n_id n0 = n_id n) as (n0 & Hi0 & Hid0).
      { apply (f_equal (λ l, l !! i)) in Hids. rewrite !lookup_map, Hi in Hids.
        destruct (nodes0 !! i) as [n0|]; [|done]. exists n0. split; [done|].
        simpl in Hids. congruence. }
      assert (g.(nodes) !! i = Some n0) as Hsame.
      { apply assemble_shadowed; [done|]. rewrite Hid0.
        by rewrite <- (find_index_ids _ _ _ Hids). }
      rewrite Hi in Hsame. injection Hsame as ->.
      apply list_elem_of_lookup_2, elem_of_map in Hi0 as (f & -> & _).
      cbn [makeNode n_dependencyCount n_dependentCount].
      unfold edges_out_of, edges_into.
      rewrite !filter_none; [done| |].
      * intros e _ Hx. apply Hsh.
        destruct (find_index_Some _ _ _ Hx) as (m & Hm & _ & Hid).
        rewrite Hi in Hm. injection Hm as <-.
        unfold has_id in Hid. apply String.eqb_eq in Hid. by rewrite Hid.
      * intros e _ Hx. apply Hsh.
        destruct (find_index_Some _ _ _ Hx) as (m & Hm & _ & Hid).
        rewrite Hi in Hm. injection Hm as <-.
        unfold has_id in Hid. apply String.eqb_eq in Hid. by rewrite Hid.
  - intros Hnd n Hn. apply Hkeyed. by apply find_first_self.
  - destruct (map_counts_dependencyCountOf _ _ Hcounts) as [-> ->].
    rewrite (endpoints_length _ _ Hends).
    destruct (sum_fold_countEdge edges0 nodes0) as [-> ->].
    + intros e He. apply buildEdges_endpoints in He as [Hf Ht].
      split; [unfold nodes0; by rewrite makeNode_ids | done].
    + unfold nodes0. destruct (sum_makeNode files) as [-> ->]. done.
Qed.

(** C5 (the code at the failing input). The files a/b.ts and a\b.ts (a
    POSIX file name that contains a backslash) get the same identifier
    a/b.ts. The only reference is the import of c.ts in a\b.ts; its edge
    has the source a/b.ts, and the lookup by identifier adds the count to
    the first node of that identifier, the node of the file a/b.ts, which
    has no reference. The node of a\b.ts keeps the dependency count 0
    although one edge has its identifier as source. *)
Theorem C5_shared_identifier_miscounted :
  ∃ g n, shownGraph sharedIdWorld = Some g
         ∧ map n_path g.(nodes) = ["a/b.ts"; "a\b.ts"; "c.ts"]
         ∧ map tally g.(edges) = [("a/b.ts", "c.ts", Some 1, 1)]
         ∧ g.(nodes) !! 1 = Some n
         ∧ n.(n_id) = "a/b.ts"
         ∧ List.length (edges_from g.(edges) n.(n_id)) = 1
         ∧ n.(n_dependencyCount) = Some 0
         ∧ map counts g.(nodes)
           = [("a/b.ts", Some 1, Some 0); ("a/b.ts", Some 0, Some 0);
              ("c.ts", Some 0, Some 1)].
Proof.
  eexists. eexists. split; [vm_compute; reflexivity|].
  repeat split; vm_compute; reflexivity.
Qed.

(** ** The traversal of [detectCircularDependencies] *)

Section ForEach.
Context {A S : Type}.

(** An invariant that may mention the elements processed so far. *)
Lemma forEachM_invariant (P : list A → S → Prop) (body : S → A → option S)
    (l : list A) (s s' : S) :
  forEachM body l s = Some s' →
  P [] s →
  (∀ pre x s1 s2, x ∈ l → body s1 x = Some s2 → P pre s1 → P (pre ++ [x]) s2) →
  P l s'.
Proof.
  intros Hrun Hs Hstep.
  enough (∀ pre, P pre s → (∀ x, x ∈ l → x ∈ l) → P (pre ++ l) s') as H
    by (apply (H []); done).
  clear Hs. revert s Hrun Hstep.
  induction l as [|x l IH]; intros s Hrun Hstep pre Hs _; simpl in Hrun.
  - injection Hrun as <-. by rewrite app_nil_r.
  - destruct (body s x) as [s1|] eqn:Hb; [|done].
    rewrite (cons_middle x pre l), app_assoc.
    apply (IH s1); [done | | | done].
    + intros pre' y t1 t2 Hy. apply Hstep. by right.
    + apply (Hstep pre x s s1); [by left | done | done].
Qed.

Lemma forEachM_total (P : S → Prop) (body : S → A → option S) (l : list A) (s : S) :
  P s →
  (∀ s x, x ∈ l → P s → ∃ s', body s x = Some s' ∧ P s') →
  ∃ s', forEachM body l s = Some s' ∧ P s'.
Proof.
  revert s. induction l as [|x l IH]; intros s Hs Hstep; simpl; [eauto|].
  destruct (Hstep s x) as (s1 & -> & Hs1); [by left | done |].
  apply IH; [done|]. intros t y Hy. apply Hstep. by right.
Qed.

End ForEach.

(** The array that [adjList] holds for [k]: the targets of the edges that
    leave [k], in the order of the edges. *)
Lemma buildAdjList_lookup (es : list GraphEdge) (k : string) :
  default [] (buildAdjList es !! k) = map e_to (edges_from es k).
Proof.
  unfold buildAdjList, edges_from.
  induction es as [|e es IH] using rev_ind; [done|].
  rewrite fold_left_app, filter_app, map_app; simpl.
  rewrite filter_cons, filter_nil.
  destruct (decide (e_from e = k)) as [<-|Hne].
  - rewrite lookup_insert_eq; simpl. by rewrite <- IH.
  - rewrite lookup_insert_ne by done. by rewrite IH, app_nil_r.
Qed.

Lemma neighbors_edge (es : list GraphEdge) (k x : string) :
  x ∈ default [] (buildAdjList es !! k) ↔ edge_rel es k x.
Proof.
  rewrite buildAdjList_lookup. unfold edge_rel, edges_from. split.
  - intros H. apply elem_of_map in H as (e & -> & He).
    apply list_elem_of_filter in He as [Hf He]. eauto.
  - intros (e & He & Hf & <-). apply elem_of_map_2.
    apply list_elem_of_filter. done.
Qed.

(** *** The traversal returns: the nesting bound is never reached *)

Lemma size_list_to_set_le (l : list string) :
  (size (list_to_set l : gset string) ≤ List.length l)%nat.
Proof.
  induction l as [|x l IH]; [done|].
  cbn [list_to_set List.length]. rewrite size_union_alt, size_singleton.
  pose proof (subseteq_size (list_to_set l ∖ {[x]}) (list_to_set l : gset string)) as H.
  assert (list_to_set l ∖ {[x]} ⊆ (list_to_set l : gset string)) as Hsub by set_solver.
  specialize (H Hsub). lia.
Qed.

Section Total.
Variable es : list GraphEdge.
(** The identifiers that the traversal can meet. *)
Variable U : gset string.
Hypothesis U_closed : ∀ x y, edge_rel es x y → y ∈ U.

Lemma dfs_total depth nodeId path st :
  nodeId ∈ U → st.(visited) ⊆ U → (size (U ∖ st.(visited)) < depth)%nat →
  ∃ st', dfs (buildAdjList es) depth nodeId path st = Some st'
         ∧ st.(visited) ⊆ st'.(visited) ∧ st'.(visited) ⊆ U.
Proof.
  revert nodeId path st. induction depth as [|depth IH]; intros nodeId path st HU Hsub Hsize;
    [lia|]. simpl.
  destruct (bool_decide (nodeId ∈ recStack st)).
  { destruct (indexOf path nodeId); [|eauto].
    destruct (someSorted _ _) as [found circular']. eauto. }
  destruct (bool_decide (nodeId ∈ visited st)) eqn:Hvis; [eauto|].
  apply bool_decide_eq_false in Hvis.
  set (st1 := {| circular := circular st; visited := visited st ∪ {[nodeId]};
                 recStack := recStack st ∪ {[nodeId]} |}).
  destruct (forEachM_total
              (λ s, visited st1 ⊆ visited s ∧ visited s ⊆ U)
              (λ s neighbor, dfs (buildAdjList es) depth neighbor (path ++ [nodeId]) s)
              (default [] (buildAdjList es !! nodeId)) st1) as (st2 & -> & H1 & H2).
  - split; [done|]. simpl. set_solver.
  - intros s x Hx [Hs1 Hs2].
    destruct (IH x (path ++ [nodeId]) s) as (s' & Hrun & Hg & Hu).
    + apply (U_closed nodeId). by apply neighbors_edge.
    + done.
    + assert (U ∖ visited s ⊆ U ∖ visited st1) as Hle by set_solver.
      apply subseteq_size in Hle.
      assert (U ∖ visited st1 ⊂ U ∖ visited st) as Hlt.
      { simpl. apply strict_spec_alt. split; [set_solver|].
        intros Heq. assert (nodeId ∈ U ∖ visited st) as Hin by set_solver.
        rewrite <- Heq in Hin. set_solver. }
      apply subset_size in Hlt. lia.
    + exists s'. split; [done|]. split; [set_solver | done].
  - eexists. split; [done|]. simpl in *. split; [set_solver | done].
Qed.

End Total.

Lemma universe_closed ns es x y : edge_rel es x y → y ∈ universe ns es.
Proof.
  intros (e & He & _ & <-). unfold universe. apply elem_of_list_to_set.
  apply elem_of_app. right. by apply elem_of_map_2.
Qed.

Lemma universe_size ns es : (size (universe ns es) < dfsDepth ns es)%nat.
Proof.
  unfold universe, dfsDepth.
  pose proof (size_list_to_set_le (map n_id ns ++ map e_to es)) as H.
  rewrite length_app, !length_map in H. lia.
Qed.

(** The traversal always returns a state: the bound [dfsDepth] is enough
    for every node list and every edge list. *)
Lemma runDfs_total ns es : ∃ st, runDfs ns es = Some st ∧ st.(visited) ⊆ universe ns es.
Proof.
  unfold runDfs.
  apply (forEachM_total (λ s, visited s ⊆ universe ns es)); [set_solver|].
  intros s n Hn Hs. unfold dfsFrom.
  destruct (bool_decide _); [eauto|].
  destruct (dfs_total es (universe ns es) (universe_closed ns es)
              (dfsDepth ns es) (n_id n) [] s) as (s' & Hrun & _ & Hu).
  - unfold universe. apply elem_of_list_to_set, elem_of_app. left. by apply elem_of_map_2.
  - done.
  - pose proof (universe_size ns es).
    assert (universe ns es ∖ visited s ⊆ universe ns es) as Hle by set_solver.
    apply subseteq_size in Hle. lia.
  - eauto.
Qed.

(** *** Walks and cycles *)

Section Walks.
Variable es : list GraphEdge.

Lemma is_walk_app_r l1 l2 : is_walk es (l1 ++ l2) → is_walk es l2.
Proof.
  induction l1 as [|x l1 IH]; [done|]. intros H. apply IH.
  destruct l1 as [|y l1]; simpl in *.
  - by destruct l2 as [|z l2]; [|destruct H].
  - by destruct H.
Qed.

Lemma is_walk_app_l l1 l2 : is_walk es (l1 ++ l2) → is_walk es l1.
Proof.
  induction l1 as [|x l1 IH]; [done|]. intros H.
  destruct l1 as [|y l1]; [done|]. simpl in *. destruct H as [Hxy H]. split; [done|].
  by apply IH.
Qed.

Lemma is_walk_snoc l x y :
  is_walk es (l ++ [x]) → edge_rel es x y → is_walk es ((l ++ [x]) ++ [y]).
Proof.
  intros Hw Hxy. induction l as [|z l IH]; simpl in *; [done|].
  destruct (l ++ [x]) as [|h t] eqn:Hl; [by destruct l|].
  simpl in *. destruct Hw as [Hzh Hw]. split; [done | by apply IH].
Qed.

Lemma walk_tc a w b : is_walk es (a :: w ++ [b]) → tc (edge_rel es) a b.
Proof.
  revert a. induction w as [|c w IH]; intros a; simpl.
  - intros [H _]. by apply tc_once.
  - intros [H Hw]. eapply tc_l; [done | by apply IH].
Qed.

Lemma closed_walk_on_cycle x w z :
  is_walk es (x :: w ++ [x]) → z ∈ x :: w ++ [x] → on_cycle es z.
Proof.
  intros Hw Hz. unfold on_cycle.
  assert (tc (edge_rel es) x x) as Hx by by apply walk_tc in Hw.
  apply elem_of_cons in Hz as [->|Hz]; [done|].
  apply elem_of_app in Hz as [Hz|Hz]; [|by apply list_elem_of_singleton in Hz as ->].
  apply list_elem_of_split in Hz as (w1 & w2 & ->).
  assert (tc (edge_rel es) x z) as Hxz.
  { apply (walk_tc x w1 z).
    apply (is_walk_app_l _ (w2 ++ [x])). simpl. by rewrite <- !app_assoc in *. }
  assert (tc (edge_rel es) z x) as Hzx.
  { apply (walk_tc z w2 x).
    apply (is_walk_app_r (x :: w1)). simpl. by rewrite <- !app_assoc in Hw. }
  by etrans.
Qed.

Lemma on_cycle_leaves x : on_cycle es x → ∃ y, edge_rel es x y.
Proof. unfold on_cycle. intros H. inversion H; eauto. Qed.

End Walks.

Lemma edge_rel_endpoints es es' x y :
  map endpoints es = map endpoints es' → edge_rel es x y → edge_rel es' x y.
Proof.
  intros Hends (e & He & Hf & Ht).
  apply (elem_of_map_2 endpoints) in He. rewrite Hends in He.
  apply elem_of_map in He as (e' & Heq & He').
  unfold endpoints in Heq. injection Heq as Hf' Ht'.
  exists e'. split; [done|]. split; congruence.
Qed.

Lemma on_cycle_endpoints es es' x :
  map endpoints es = map endpoints es' → on_cycle es x → on_cycle es' x.
Proof.
  intros Hends. unfold on_cycle. generalize x at 2 4.
  intros y H. induction H as [a b H|a b c H _ IH].
  - apply tc_once. by eapply edge_rel_endpoints.
  - eapply tc_l; [by eapply edge_rel_endpoints | done].
Qed.

Lemma indexOf_drop (l : list string) (x : string) (k : nat) :
  indexOf l x = Some k → ∃ tail, drop k l = x :: tail.
Proof.
  revert k. induction l as [|y l IH]; intros k; simpl; [done|].
  destruct (String.eqb_spec y x) as [->|Hne].
  - intros [= <-]. eauto.
  - destruct (indexOf l x) as [j|]; [|done]. intros [= <-]. by apply IH.
Qed.

Lemma indexOf_elem (l : list string) (x : string) : x ∈ l → is_Some (indexOf l x).
Proof.
  induction l as [|y l IH]; [by intros ?%elem_of_nil|]. simpl.
  destruct (String.eqb_spec y x) as [->|Hne]; [eauto|].
  intros [?|Hin]%elem_of_cons; [congruence|].
  destruct (IH Hin) as [j ->]. eauto.
Qed.

Lemma sort_elem (l : list string) (x : string) : x ∈ Js.sort l ↔ x ∈ l.
Proof. unfold Js.sort. by rewrite merge_sort_Permutation. Qed.

Lemma someSorted_Forall2 key cs :
  Forall2 (λ c' c, ∀ x, x ∈ c' ↔ x ∈ c) (someSorted key cs).2 cs.
Proof.
  induction cs as [|c cs IH]; simpl; [constructor|].
  destruct (String.eqb _ key); simpl.
  - constructor; [apply sort_elem|]. apply Forall2_same_length_lookup_2; [done|].
    intros i a b Ha Hb. by simplify_eq.
  - destruct (someSorted key cs) as [found rest]; simpl in *.
    constructor; [apply sort_elem | done].
Qed.

Lemma someSorted_found key cs : (someSorted key cs).1 = true → (someSorted key cs).2 ≠ [].
Proof. destruct cs as [|c cs]; simpl; [done|]. by repeat case_match. Qed.

(** *** Soundness: what is recorded lies on cycles *)

Section Sound.
Variable es : list GraphEdge.

Lemma dfs_sound depth nodeId path st st' :
  dfs (buildAdjList es) depth nodeId path st = Some st' →
  is_walk es (path ++ [nodeId]) →
  st.(recStack) = list_to_set path →
  cycles_ok es st.(circular) →
  cycles_ok es st'.(circular) ∧ st'.(recStack) = st.(recStack).
Proof.
  revert nodeId path st st'.
  induction depth as [|depth IH]; intros nodeId path st st' Hrun Hw Hrec Hok; [done|].
  simpl in Hrun.
  destruct (bool_decide (nodeId ∈ recStack st)) eqn:Hhit.
  { destruct (indexOf path nodeId) as [k|] eqn:Hidx; [|by injection Hrun as <-].
    pose proof (someSorted_Forall2
                  (Js.join "->" (Js.sort (drop k path ++ [nodeId]))) (circular st)) as HF.
    destruct (someSorted _ (circular st)) as [found circular'] eqn:Hsome.
    injection Hrun as <-. simpl in *. split; [|done].
    assert (cycles_ok es circular') as Hok'.
    { intros c' x Hc' Hx. apply list_elem_of_lookup in Hc' as [i Hi].
      destruct (Forall2_lookup_l _ _ _ _ _ HF Hi) as (c & Hc & Hcc').
      apply (Hok c x); [by eapply list_elem_of_lookup_2 | by apply Hcc']. }
    destruct found; [done|].
    intros c x [Hc|Hc]%elem_of_app; [by eapply Hok'|].
    apply list_elem_of_singleton in Hc as ->. intros Hx.
    apply (proj1 (sort_elem _ _)) in Hx.
    apply indexOf_drop in Hidx as [tail Htail]. rewrite Htail in Hx.
    apply (closed_walk_on_cycle es nodeId tail); [|done].
    apply (is_walk_app_r es (take k path)).
    change (nodeId :: tail ++ [nodeId]) with ((nodeId :: tail) ++ [nodeId]).
    by rewrite <- Htail, app_assoc, take_drop. }
  destruct (bool_decide (nodeId ∈ visited st)); [by injection Hrun as <-|].
  apply bool_decide_eq_false in Hhit.
  destruct (forEachM _ _ _) as [st2|] eqn:Hfold; [|done]. injection Hrun as <-. simpl.
  apply (forEachM_invariant
           (λ _ s, cycles_ok es (circular s) ∧ recStack s = recStack st ∪ {[nodeId]}))
    in Hfold as [Hok2 Hrec2].
  - split; [done|]. rewrite Hrec2. set_solver.
  - done.
  - intros pre x s1 s2 Hx Hbody [Hok1 Hrec1].
    apply IH in Hbody as [Hok2 Hrec2].
    + split; [done | congruence].
    + apply is_walk_snoc; [done | by apply neighbors_edge].
    + rewrite Hrec1, Hrec, list_to_set_app_L. simpl. set_solver.
    + done.
Qed.

Lemma runDfs_sound ns st : runDfs ns es = Some st → cycles_ok es st.(circular).
Proof.
  unfold runDfs. intros Hrun.
  apply (forEachM_invariant (λ _ s, cycles_ok es (circular s) ∧ recStack s = ∅))
    in Hrun as [H _]; [done | |].
  - split; [|done]. intros c x Hc. by apply elem_of_nil in Hc.
  - intros pre n s1 s2 Hn Hbody [Hok Hrec]. unfold dfsFrom in Hbody.
    destruct (bool_decide _); [by injection Hbody as <-|].
    apply dfs_sound in Hbody as [Hok2 Hrec2]; [split; [done | congruence] | done | done | done].
Qed.

End Sound.

(** *** Completeness: a cycle in the graph leaves a record *)

Lemma someSorted_length key cs : List.length (someSorted key cs).2 = List.length cs.
Proof. eapply Forall2_length, someSorted_Forall2. Qed.

Section Complete.
Variable es : list GraphEdge.

(** The records are never removed. *)
Lemma dfs_circular_mono depth nodeId path st st' :
  dfs (buildAdjList es) depth nodeId path st = Some st' →
  st'.(circular) = [] → st.(circular) = [].
Proof.
  revert nodeId path st st'.
  induction depth as [|depth IH]; intros nodeId path st st' Hrun Hnil; [done|].
  simpl in Hrun.
  destruct (bool_decide (nodeId ∈ recStack st)).
  { destruct (indexOf path nodeId) as [k|]; [|by injection Hrun as <-].
    pose proof (someSorted_length
                  (Js.join "->" (Js.sort (drop k path ++ [nodeId]))) (circular st)) as HL.
    destruct (someSorted _ (circular st)) as [found circular'].
    injection Hrun as <-. simpl in *.
    destruct found; [|by destruct circular'].
    subst circular'. by destruct (circular st). }
  destruct (bool_decide (nodeId ∈ visited st)); [by injection Hrun as <-|].
  destruct (forEachM _ _ _) as [st2|] eqn:Hfold; [|done]. injection Hrun as <-.
  simpl in Hnil.
  apply (forEachM_invariant (λ _ s, circular s = [] → circular st = [])) in Hfold; auto.
  intros pre x s1 s2 _ Hbody H1 H2. apply H1. by eapply IH.
Qed.

Lemma closed_rtc (X : gset string) x y :
  (∀ a b, a ∈ X → edge_rel es a b → b ∈ X) →
  x ∈ X → rtc (edge_rel es) x y → y ∈ X.
Proof. intros Hcl Hx H. induction H as [|a b c Hab _ IH]; [done|]. eauto. Qed.

Lemma finish_node (X : gset string) (v : string) :
  (∀ a b, a ∈ X → edge_rel es a b → b ∈ X) →
  (∀ a, a ∈ X → ¬ on_cycle es a) →
  v ∉ X →
  (∀ b, edge_rel es v b → b ∈ X) →
  (∀ a b, a ∈ X ∪ {[v]} → edge_rel es a b → b ∈ X ∪ {[v]})
  ∧ (∀ a, a ∈ X ∪ {[v]} → ¬ on_cycle es a).
Proof.
  intros Hcl Hac Hv Hsucc. split.
  - intros a b [Ha|Ha]%elem_of_union Hab.
    + apply elem_of_union. left. eauto.
    + apply elem_of_singleton in Ha as ->. apply elem_of_union. left. eauto.
  - intros a [Ha|Ha]%elem_of_union; [eauto|].
    apply elem_of_singleton in Ha as ->. unfold on_cycle. intros Hc.
    apply Hv. inversion Hc as [? ? H|? b ? H Hb]; subst.
    + eauto.
    + apply (closed_rtc X b v); [done | eauto | by apply tc_rtc].
Qed.

Lemma dfs_complete depth nodeId path st st' :
  dfs (buildAdjList es) depth nodeId path st = Some st' →
  st.(recStack) = list_to_set path →
  acyclic_so_far es st →
  st'.(circular) = [] →
  acyclic_so_far es st' ∧ st'.(recStack) = st.(recStack)
  ∧ st.(visited) ⊆ st'.(visited) ∧ nodeId ∈ finished st'.
Proof.
  revert nodeId path st st'.
  induction depth as [|depth IH]; intros nodeId path st st' Hrun Hrec Hinv Hnil; [done|].
  simpl in Hrun.
  destruct (bool_decide (nodeId ∈ recStack st)) eqn:Hhit.
  { exfalso. apply bool_decide_eq_true in Hhit.
    destruct (indexOf_elem path nodeId) as [k Hk].
    { apply (elem_of_list_to_set (C := gset string)). by rewrite <- Hrec. }
    rewrite Hk in Hrun.
    pose proof (someSorted_found
                  (Js.join "->" (Js.sort (drop k path ++ [nodeId]))) (circular st)) as HF.
    destruct (someSorted _ (circular st)) as [found circular'].
    injection Hrun as <-. simpl in *.
    destruct found; [by apply HF | by destruct circular']. }
  apply bool_decide_eq_false in Hhit.
  destruct (bool_decide (nodeId ∈ visited st)) eqn:Hvis.
  { apply bool_decide_eq_true in Hvis. injection Hrun as <-.
    repeat split; try done; try apply Hinv. unfold finished. set_solver. }
  apply bool_decide_eq_false in Hvis.
  destruct (forEachM _ _ _) as [st2|] eqn:Hfold; [|done]. injection Hrun as <-.
  simpl in Hnil.
  set (st1 := {| circular := circular st; visited := visited st ∪ {[nodeId]};
                 recStack := recStack st ∪ {[nodeId]} |}) in *.
  assert (acyclic_so_far es st2 ∧ recStack st2 = recStack st1
          ∧ visited st1 ⊆ visited st2
          ∧ ∀ x, x ∈ default [] (buildAdjList es !! nodeId) → x ∈ finished st2)
    as (Hinv2 & Hrec2 & Hvis2 & Hsucc).
  { revert Hnil.
    apply (forEachM_invariant
             (λ pre s, circular s = [] →
                acyclic_so_far es s ∧ recStack s = recStack st1
                ∧ visited st1 ⊆ visited s ∧ ∀ x, x ∈ pre → x ∈ finished s)
             _ _ _ _ Hfold).
    - intros _. split; [|split; [done|split; [done|]]].
      + assert (finished st1 = finished st) as Hfin.
        { unfold finished. simpl. set_solver. }
        unfold acyclic_so_far. by rewrite Hfin.
      + intros x Hx. by apply elem_of_nil in Hx.
    - intros pre x s1 s2 Hx Hbody H1 Hnil2.
      destruct H1 as (Hinv1 & Hrec1 & Hvis1 & Hpre); [by eapply dfs_circular_mono|].
      apply IH in Hbody as (Hinv2 & Hrec2 & Hvis2 & Hx2); [|  | done | done].
      + split; [done|]. split; [congruence|]. split; [set_solver|].
        intros y [Hy|Hy]%elem_of_app.
        * specialize (Hpre y Hy). unfold finished in *. rewrite Hrec2. set_solver.
        * by apply list_elem_of_singleton in Hy as ->.
      + rewrite Hrec1, list_to_set_app_L. simpl. rewrite Hrec. set_solver. }
  assert (finished {| circular := circular st2; visited := visited st2;
                      recStack := recStack st2 ∖ {[nodeId]} |}
          = finished st2 ∪ {[nodeId]}) as Hfin.
  { unfold finished. simpl. rewrite Hrec2. simpl in *.
    apply set_eq. intros z. destruct (decide (z = nodeId)); set_solver. }
  assert (nodeId ∉ finished st2) as Hnot.
  { unfold finished. rewrite Hrec2. simpl. set_solver. }
  destruct Hinv2 as [Hcl2 Hac2].
  destruct (finish_node (finished st2) nodeId Hcl2 Hac2 Hnot) as [Hcl Hac].
  { intros b Hb. apply Hsucc. by apply neighbors_edge. }
  split; [|split; [|split]].
  - unfold acyclic_so_far. rewrite Hfin. done.
  - simpl. rewrite Hrec2. simpl. set_solver.
  - simpl in *. set_solver.
  - rewrite Hfin. set_solver.
Qed.

Lemma runDfs_complete ns st x :
  runDfs ns es = Some st →
  (∀ e, e ∈ es → e.(e_from) ∈ map n_id ns) →
  on_cycle es x →
  st.(circular) ≠ [].
Proof.
  unfold runDfs. intros Hrun Hsrc Hx Hnil.
  assert (acyclic_so_far es st ∧ recStack st = ∅ ∧ ∀ n, n ∈ ns → n.(n_id) ∈ visited st)
    as ([_ Hac] & Hrec & Hall).
  { revert Hnil.
    apply (forEachM_invariant
             (λ pre s, circular s = [] →
                acyclic_so_far es s ∧ recStack s = ∅
                ∧ ∀ n, n ∈ pre → n.(n_id) ∈ visited s) _ _ _ _ Hrun).
    - intros _. split; [|split; [done|]].
      + split; unfold finished; simpl; set_solver.
      + intros n Hn. by apply elem_of_nil in Hn.
    - intros pre n s1 s2 Hn Hbody H1 Hnil2. unfold dfsFrom in Hbody.
      destruct (bool_decide (n_id n ∈ visited s1)) eqn:Hvis.
      + injection Hbody as <-. apply bool_decide_eq_true in Hvis.
        destruct (H1 Hnil2) as (Hinv & Hrec & Hall). split; [done|]. split; [done|].
        intros m [Hm|Hm]%elem_of_app; [eauto|].
        by apply list_elem_of_singleton in Hm as ->.
      + destruct H1 as (Hinv & Hrec & Hall); [by eapply dfs_circular_mono|].
        apply dfs_complete in Hbody as (Hinv2 & Hrec2 & Hvis2 & Hfin); [|done..].
        split; [done|]. split; [congruence|].
        intros m [Hm|Hm]%elem_of_app.
        * specialize (Hall m Hm). set_solver.
        * apply list_elem_of_singleton in Hm as ->. unfold finished in Hfin. set_solver. }
  apply (Hac x); [|done]. unfold finished. rewrite Hrec.
  destruct (on_cycle_leaves es x Hx) as (y & e & He & <- & _).
  specialize (Hsrc e He). apply elem_of_map in Hsrc as (n & -> & Hn).
  specialize (Hall n Hn). set_solver.
Qed.

End Complete.

(** ** Marking *)

Lemma elem_of_update_first {A : Type} (pred : A → bool) (f : A → A) (l : list A) (y : A) :
  y ∈ update_first pred f l → y ∈ l ∨ ∃ x, x ∈ l ∧ pred x = true ∧ y = f x.
Proof.
  induction l as [|x l IH]; simpl; [by left|].
  destruct (pred x) eqn:Hx.
  - intros [->|Hy]%elem_of_cons.
    + right. exists x. split; [by left | done].
    + left. by right.
  - intros [->|Hy]%elem_of_cons; [left; by left|].
    destruct (IH Hy) as [?|(z & Hz & Hp & ->)]; [left; by right|].
    right. exists z. split; [by right | done].
Qed.









(** No record is empty: a record holds at least the node that closes it. *)
Lemma dfs_records_nonempty adjList depth nodeId path st st' :
  dfs adjList depth nodeId path st = Some st' →
  (∀ c, c ∈ st.(circular) → c ≠ []) →
  ∀ c, c ∈ st'.(circular) → c ≠ [].
Proof.
  revert nodeId path st st'.
  induction depth as [|depth IH]; intros nodeId path st st' Hrun Hst; [done|].
  simpl in Hrun.
  destruct (bool_decide (nodeId ∈ recStack st)).
  { destruct (indexOf path nodeId) as [k|]; [|by injection Hrun as <-].
    pose proof (someSorted_Forall2
                  (Js.join "->" (Js.sort (drop k path ++ [nodeId]))) (circular st)) as HF.
    destruct (someSorted _ (circular st)) as [found circular'].
    injection Hrun as <-. simpl in *.
    assert (∀ c, c ∈ circular' → c ≠ []) as Hc'.
    { intros c' Hc' ->. apply list_elem_of_lookup in Hc' as [i Hi].
      destruct (Forall2_lookup_l _ _ _ _ _ HF Hi) as (c & Hc & Hcc').
      apply (Hst c); [by eapply list_elem_of_lookup_2|].
      destruct c as [|z c]; [done|]. exfalso.
      apply (not_elem_of_nil z), Hcc'. by left. }
    destruct found; [done|].
    intros c [Hc|Hc]%elem_of_app; [by apply Hc'|].
    apply list_elem_of_singleton in Hc as ->. intros Hnil.
    assert (nodeId ∈ Js.sort (drop k path ++ [nodeId])) as Hin.
    { apply sort_elem, elem_of_app. right. by left. }
    rewrite Hnil in Hin. by apply elem_of_nil in Hin. }
  destruct (bool_decide (nodeId ∈ visited st)); [by injection Hrun as <-|].
  destruct (forEachM _ _ _) as [st2|] eqn:Hfold; [|done]. injection Hrun as <-.
  simpl.
  apply (forEachM_invariant (λ _ s, ∀ c, c ∈ circular s → c ≠ []) _ _ _ _ Hfold); [done|].
  intros pre x s1 s2 _ Hbody Hs1. by eapply IH.
Qed.

Lemma runDfs_records_nonempty ns es st :
  runDfs ns es = Some st → ∀ c, c ∈ st.(circular) → c ≠ [].
Proof.
  unfold runDfs. intros Hrun.
  apply (forEachM_invariant (λ _ s, ∀ c, c ∈ circular s → c ≠ []) _ _ _ _ Hrun).
  - intros c Hc. by apply elem_of_nil in Hc.
  - intros pre n s1 s2 _ Hbody Hs1. unfold dfsFrom in Hbody.
    destruct (bool_decide _); [by injection Hbody as <-|]. by eapply dfs_records_nonempty.
Qed.

(** The cycle records of a built graph. *)
Lemma assemble_cycles extract files :
  let nodes0 := map makeNode files in
  let edges0 := buildEdges extract nodes0 files in
  let nodes1 := fold_left countEdge edges0 nodes0 in
  ∃ st, runDfs nodes1 edges0 = Some st
        ∧ (assemble extract files).(circularDependencies) = st.(circular)
        ∧ (assemble extract files).(nodes) = fold_left markCircleNodes st.(circular) nodes1.
Proof.
  intros nodes0 edges0 nodes1.
  destruct (runDfs_total nodes1 edges0) as (st & Hrun & _).
  exists st. unfold assemble, detectCircularDependencies; simpl.
  fold nodes0. fold edges0. fold nodes1. by rewrite Hrun.
Qed.

(** *** Every cycle leaves a record, when the keys tell records apart *)

Import More.

Lemma contains_arrow_tail c s : contains_arrow (String c s) = false → contains_arrow s = false.
Proof.
  intros H. destruct s as [|d s]; [done|].
  cbn [contains_arrow] in H.
  destruct (Ascii.eqb_spec c "-") as [->|Hc].
  - destruct (Ascii.eqb_spec d ">") as [->|Hd]; [done|].
    destruct d as [[] [] [] [] [] [] [] []]; try done.
  - destruct c as [[] [] [] [] [] [] [] []]; try done.
Qed.

Lemma edgeKey_inj a b a' b' :
  contains_arrow a = false → contains_arrow a' = false →
  edgeKey a b = edgeKey a' b' → a = a' ∧ b = b'.
Proof.
  unfold edgeKey. revert a'. induction a as [|c a IH]; intros [|c' a'] Ha Ha' Heq;
    cbn in Heq.
  - injection Heq as Heq. by subst.
  - exfalso. injection Heq as Hc Heq. subst c'.
    destruct a' as [|d a']; cbn in Heq; [by injection Heq|].
    injection Heq as Hd _. by subst d.
  - exfalso. injection Heq as Hc Heq. subst c.
    destruct a as [|d a]; cbn in Heq; [by injection Heq|].
    injection Heq as Hd _. by subst d.
  - injection Heq as Hc Heq. subst c'.
    destruct (IH a' (contains_arrow_tail _ _ Ha) (contains_arrow_tail _ _ Ha') Heq) as [-> ->].
    done.
Qed.









Section Covering.
Variable es : list GraphEdge.





Hypothesis targets_plain : ∀ x y, edge_rel es x y → contains_arrow y = false.



End Covering.






(** ** Recorded cycles are sorted copies of the path slice *)

Lemma has_edge_spec es x y : has_edge es x y = true ↔ edge_rel es x y.
Proof.
  unfold has_edge, edge_rel. rewrite existsb_exists. split.
  - intros (e & He & Hb). apply andb_true_iff in Hb as [H1 H2].
    apply String.eqb_eq in H1, H2. exists e. by rewrite list_elem_of_In.
  - intros (e & He & <- & <-). exists e. rewrite <- list_elem_of_In.
    by rewrite !String.eqb_refl.
Qed.

Lemma is_walkb_spec es w : is_walkb es w = true ↔ is_walk es w.
Proof.
  induction w as [|x w IH]; [done|]. destruct w as [|y w]; [done|].
  cbn [is_walkb is_walk]. rewrite andb_true_iff, has_edge_spec, IH. done.
Qed.

Lemma str_le_total : Total Js.str_le.
Proof. intros a b. apply String.leb_total. Qed.

Lemma sort_sorted l : Sorted Js.str_le (Js.sort l).
Proof. unfold Js.sort. apply Sorted_merge_sort, str_le_total. Qed.

Lemma someSorted_sorted key cs :
  Forall (Sorted Js.str_le) cs → Forall (Sorted Js.str_le) (someSorted key cs).2.
Proof.
  induction 1 as [|c cs Hc Hcs IH]; simpl; [done|].
  destruct (String.eqb _ key); simpl.
  - constructor; [apply sort_sorted | done].
  - destruct (someSorted key cs) as [found rest]; simpl in *.
    constructor; [apply sort_sorted | done].
Qed.

Lemma dfs_records_sorted adjList depth nodeId path st st' :
  dfs adjList depth nodeId path st = Some st' →
  Forall (Sorted Js.str_le) st.(circular) →
  Forall (Sorted Js.str_le) st'.(circular).
Proof.
  revert nodeId path st st'.
  induction depth as [|depth IH]; intros nodeId path st st' Hrun Hst; [done|].
  simpl in Hrun.
  destruct (bool_decide (nodeId ∈ recStack st)).
  { destruct (indexOf path nodeId) as [k|]; [|by injection Hrun as <-].
    pose proof (someSorted_sorted
                  (Js.join "->" (Js.sort (drop k path ++ [nodeId]))) (circular st) Hst) as HS.
    destruct (someSorted _ (circular st)) as [found circular'].
    injection Hrun as <-. simpl in *. destruct found; [done|].
    apply Forall_app. split; [done|]. constructor; [|done]. apply sort_sorted. }
  destruct (bool_decide (nodeId ∈ visited st)); [by injection Hrun as <-|].
  destruct (forEachM _ _ _) as [st2|] eqn:Hfold; [|done]. injection Hrun as <-.
  simpl.
  apply (forEachM_invariant (λ _ s, Forall (Sorted Js.str_le) (circular s)) _ _ _ _ Hfold);
    [done|]. intros pre x s1 s2 _ Hbody Hs1. by eapply IH.
Qed.

(** Whatever the graph, every record that the detector returns is in
    sorted order: the path order of the slice is lost. *)
Lemma recorded_cycles_sorted ns es c :
  c ∈ detectCircularDependencies ns es → Sorted Js.str_le c.
Proof.
  unfold detectCircularDependencies.
  destruct (runDfs ns es) as [st|] eqn:Hrun; [|by intros ?%elem_of_nil].
  revert c. apply Forall_forall. unfold runDfs in Hrun.
  apply (forEachM_invariant (λ _ s, Forall (Sorted Js.str_le) (circular s)) _ _ _ _ Hrun).
  - constructor.
  - intros pre n s1 s2 _ Hbody Hs1. unfold dfsFrom in Hbody.
    destruct (bool_decide _); [by injection Hbody as <-|]. by eapply dfs_records_sorted.
Qed.

(** C2 (the code at the failing input). On the cycle a.ts -> c.ts ->
    b.ts -> a.ts the traversal closes the path slice [a.ts; c.ts; b.ts]
    with a.ts; the in-place sort that builds the deduplication key
    reorders it, and the record kept is [a.ts; a.ts; b.ts; c.ts]: it is
    not a walk along the edges, and no edge is flagged. *)
Theorem C2_recorded_cycle_is_sorted :
  ∃ g, shownGraph cycle3World = Some g
       ∧ map endpoints g.(edges) = [("a.ts", "c.ts"); ("b.ts", "a.ts"); ("c.ts", "b.ts")]
       ∧ is_walk g.(edges) ["a.ts"; "c.ts"; "b.ts"; "a.ts"]
       ∧ g.(circularDependencies) = [["a.ts"; "a.ts"; "b.ts"; "c.ts"]]
       ∧ ¬ is_walk g.(edges) ["a.ts"; "a.ts"; "b.ts"; "c.ts"]
       ∧ map e_isCircular g.(edges) = [None; None; None].
Proof.
  eexists. split; [vm_compute; reflexivity|].
  split; [reflexivity|]. split; [by apply is_walkb_spec|].
  split; [reflexivity|]. split; [|reflexivity].
  intros H. by apply is_walkb_spec in H.
Qed.


(** The condition on the identifiers is needed: the cycle of x.ts and
    y.ts->z.ts->z.ts is recorded, and the record of the cycle of z.ts and
    x.ts->x.ts->y.ts is then taken for a duplicate, because both have the
    key x.ts->x.ts->y.ts->z.ts->z.ts; no node of the second cycle is
    flagged. *)
Example colliding_cycle_keys :
  ∃ g, shownGraph keyClashWorld = Some g
       ∧ is_walk g.(edges) ["z.ts"; "x.ts->x.ts->y.ts"; "z.ts"]
       ∧ g.(circularDependencies) = [["x.ts"; "x.ts"; "y.ts->z.ts->z.ts"]]
       ∧ map (λ n, (n.(n_id), n.(n_isCircular))) g.(nodes)
         = [("x.ts", Some true); ("y.ts->z.ts->z.ts", Some true);
            ("z.ts", None); ("x.ts->x.ts->y.ts", None)]
       ∧ cycleKeyOf ["z.ts"; "x.ts->x.ts->y.ts"; "z.ts"]
         = cycleKeyOf ["x.ts"; "y.ts->z.ts->z.ts"; "x.ts"].
Proof.
  eexists. split; [vm_compute; reflexivity|].
  split; [by apply is_walkb_spec|]. repeat split; vm_compute; reflexivity.
Qed.

(** ** Aggregation of references into edges *)

Lemma buildEdges_events extract ns files st :
  fold_left (addFile extract ns) files st = fold_left (step ns) (events extract files) st.
Proof.
  revert st. induction files as [|f files IH]; intros st; [done|].
  unfold events in *. cbn [flat_map fold_left]. rewrite fold_left_app, <- IH. f_equal.
  unfold addFile. generalize (extract f). intros ds. revert st.
  induction ds as [|d ds IHd]; intros st; [done|]. simpl. by rewrite IHd.
Qed.

Lemma linkCount_snoc ns pre ev a b :
  linkCount ns (pre ++ [ev]) a b
  = linkCount ns pre a b + (if decide (links ns a b ev) then 1 else 0).
Proof.
  unfold linkCount. rewrite filter_app, length_app, filter_cons, filter_nil.
  by destruct (decide _).
Qed.

Lemma linkCount_pos ns pre a b ev :
  ev ∈ pre → links ns a b ev → (1 ≤ linkCount ns pre a b)%nat.
Proof.
  intros Hin Hl. unfold linkCount.
  assert (ev ∈ filter (links ns a b) pre) as H by by apply list_elem_of_filter.
  destruct (filter (links ns a b) pre); [by apply elem_of_nil in H | simpl; lia].
Qed.

Lemma elem_of_alter_endpoints (f : GraphEdge → GraphEdge) i (l : list GraphEdge) e :
  (∀ x, endpoints (f x) = endpoints x) →
  e ∈ l → ∃ e', e' ∈ alter f i l ∧ endpoints e' = endpoints e.
Proof.
  intros Hf He. apply list_elem_of_lookup in He as [j Hj].
  destruct (decide (i = j)) as [->|Hne].
  - exists (f e). split; [|done]. apply list_elem_of_lookup. exists j.
    by rewrite list_lookup_alter_eq, Hj.
  - exists e. split; [|done]. apply list_elem_of_lookup. exists j.
    by rewrite list_lookup_alter_ne.
Qed.

Section Aggregation.
Variable ns : list GraphNode.
Variable evs : list (CodeFile * DependencyInfo).
Hypothesis Hkeys : keys_distinct ns evs.

Lemma step_ok pre ev st :
  (∀ x, x ∈ pre ++ [ev] → x ∈ evs) →
  store_ok ns pre st → store_ok ns (pre ++ [ev]) (step ns st ev).
Proof.
  intros Hsub [HA HB HC HD].
  assert (ev ∈ evs) as Hev by (apply Hsub, elem_of_app; right; by left).
  assert (∀ x, x ∈ pre → x ∈ evs) as Hpre by (intros x Hx; apply Hsub, elem_of_app; by left).
  unfold step, addDependency. fold (targetOf ns ev).
  destruct (targetOf ns ev) as [t|] eqn:Ht.
  2: { (* unresolved: nothing changes and no pair gains a reference *)
    split; [done | done | |].
    - intros e He. destruct (HC e He) as ((ev0 & Hin0 & Hl0) & Hne & Hnz & Hc & Hv).
      rewrite linkCount_snoc. destruct (decide (links ns _ _ ev)) as [[_ Hl]|_];
        [congruence|]. rewrite Nat.add_0_r.
      split; [exists ev0; split; [apply elem_of_app; by left | done] | done].
    - intros ev' b [Hin|Hin]%elem_of_app; [by apply HD|].
      apply list_elem_of_singleton in Hin as ->. congruence. }
  destruct (Js.truthy t && negb (t =? sourceOf ev)%string) eqn:Hgo.
  2: { (* empty target or self-reference: no edge has that pair *)
    assert (t = "" ∨ t = sourceOf ev) as Hbad.
    { apply andb_false_iff in Hgo as [Hgo|Hgo].
      - left. unfold Js.truthy in Hgo. apply negb_false_iff in Hgo. by apply String.eqb_eq.
      - right. apply negb_false_iff in Hgo. by apply String.eqb_eq. }
    split; [done | done | |].
    - intros e He. destruct (HC e He) as ((ev0 & Hin0 & Hl0) & Hne & Hnz & Hc & Hv).
      rewrite linkCount_snoc. destruct (decide (links ns _ _ ev)) as [[Hs Hl]|_].
      { exfalso. rewrite Ht in Hl. injection Hl as Hl. destruct Hbad; congruence. }
      rewrite Nat.add_0_r.
      split; [exists ev0; split; [apply elem_of_app; by left | done] | done].
    - intros ev' b [Hin|Hin]%elem_of_app; [by apply HD|].
      apply list_elem_of_singleton in Hin as ->. intros Hb. rewrite Ht in Hb.
      injection Hb as <-. intros ? ?. destruct Hbad; congruence. }
  apply andb_true_iff in Hgo as [Hnz Hns].
  assert (t ≠ "") as Hnz'.
  { unfold Js.truthy in Hnz. apply negb_true_iff in Hnz. by apply String.eqb_neq. }
  assert (t ≠ sourceOf ev) as Hns'.
  { apply negb_true_iff in Hns. by apply String.eqb_neq. }
  set (a := sourceOf ev) in *.
  assert (links ns a t ev) as Hlink by done.
  (* an edge of the store has the pair (a, t) exactly when its key is the key *)
  assert (∀ e, e ∈ es_edges st → edgeKey (e_from e) (e_to e) = edgeKey a t →
               e_from e = a ∧ e_to e = t) as Hinj.
  { intros e He Hk. destruct (HC e He) as ((ev0 & Hin0 & Hs0 & Ht0) & _).
    rewrite <- Hs0 in Hk |- *. by apply (Hkeys ev0 ev (e_to e) t); auto. }
  assert (∀ e, e ∈ es_edges st → (e_from e, e_to e) ≠ (a, t) →
               linkCount ns (pre ++ [ev]) (e_from e) (e_to e)
               = linkCount ns pre (e_from e) (e_to e)) as Hother.
  { intros e He Hne. rewrite linkCount_snoc.
    destruct (decide (links ns _ _ ev)) as [[Hs Hl]|_]; [|lia].
    exfalso. apply Hne. fold a in Hs. rewrite Ht in Hl. injection Hl as Hl. congruence. }
  destruct (es_edgeMap st !! edgeKey a t) as [i|] eqn:Hmap.
  - (* the key is known: its edge is updated in place *)
    destruct (HB _ _ Hmap) as (e0 & Hi & Hk0).
    assert (e0 ∈ es_edges st) as He0 by by eapply list_elem_of_lookup_2.
    destruct (Hinj e0 He0 Hk0) as [Hf0 Ht0].
    split; cbn [es_edges es_edgeMap].
    + intros j e Hj. destruct (decide (i = j)) as [<-|Hne].
      * rewrite list_lookup_alter_eq, Hi in Hj. injection Hj as <-. simpl.
        by rewrite Hf0, Ht0.
      * rewrite list_lookup_alter_ne in Hj by done. by apply HA.
    + intros key j Hj. destruct (HB _ _ Hj) as (e & He & Hk).
      destruct (decide (i = j)) as [<-|Hne].
      * exists (bumpEdge e0). rewrite list_lookup_alter_eq, Hi. split; [done|].
        rewrite Hi in He. injection He as <-. done.
      * exists e. by rewrite list_lookup_alter_ne.
    + intros e He. apply list_elem_of_lookup in He as [j Hj].
      destruct (decide (i = j)) as [<-|Hne].
      * rewrite list_lookup_alter_eq, Hi in Hj. injection Hj as <-. simpl.
        destruct (HC e0 He0) as (_ & Hne0 & Hnz0 & Hc0 & Hv0).
        rewrite Hf0, Ht0 in *.
        pose proof (linkCount_snoc ns pre ev a t) as Hsn.
        rewrite decide_True in Hsn by done.
        assert (1 ≤ linkCount ns pre a t)%nat as Hpos.
        { destruct (HC e0 He0) as ((ev0 & Hin0 & Hl0) & _).
          rewrite Hf0, Ht0 in Hl0. by eapply linkCount_pos. }
        split; [exists ev; split; [apply elem_of_app; right; by left | done]|].
        split; [done|]. split; [done|]. rewrite Hc0, Hsn.
        destruct (linkCount ns pre a t) as [|c]; [lia|]. simpl.
        split; f_equal; lia.
      * rewrite list_lookup_alter_ne in Hj by done.
        assert (e ∈ es_edges st) as He by by eapply list_elem_of_lookup_2.
        destruct (HC e He) as ((ev0 & Hin0 & Hl0) & Hne1 & Hnz1 & Hc & Hv).
        rewrite Hother; [|done|].
        -- split; [exists ev0; split; [apply elem_of_app; by left | done] | done].
        -- intros [= Hf Hto]. apply Hne.
           pose proof (HA _ _ Hj) as Hkj. rewrite Hf, Hto, Hmap in Hkj. congruence.
    + intros ev' b Hin Hb Hbz Hbs.
      assert (∃ e, e ∈ es_edges st ∧ e_from e = sourceOf ev' ∧ e_to e = b)
        as (e & He & Hf & Hto).
      { apply elem_of_app in Hin as [Hin|Hin]; [by apply HD|].
        apply list_elem_of_singleton in Hin as ->. exists e0.
        rewrite Ht in Hb. injection Hb as <-. done. }
      destruct (elem_of_alter_endpoints bumpEdge i (es_edges st) e) as (e' & He' & Hends);
        [done | done |].
      unfold endpoints in Hends. injection Hends as Hf' Ht'.
      exists e'. split; [done|]. split; congruence.
  - (* a new key: no edge has the pair yet, a new edge is pushed *)
    assert (∀ e, e ∈ es_edges st → (e_from e, e_to e) ≠ (a, t)) as Hfresh.
    { intros e He [= Hf Hto]. apply list_elem_of_lookup in He as [j Hj].
      pose proof (HA _ _ Hj) as Hkj. rewrite Hf, Hto, Hmap in Hkj. done. }
    assert (linkCount ns pre a t = 0) as Hzero.
    { destruct (linkCount ns pre a t) as [|c] eqn:Hc; [done|]. exfalso.
      unfold linkCount in Hc.
      destruct (filter (links ns a t) pre) as [|ev0 rest] eqn:Hfil; [done|].
      assert (ev0 ∈ filter (links ns a t) pre) as Hin0 by (rewrite Hfil; by left).
      apply list_elem_of_filter in Hin0 as [[Hs0 Ht0] Hin0].
      destruct (HD ev0 t Hin0 Ht0 Hnz') as (e & He & Hf & Hto); [congruence|].
      apply (Hfresh e He). congruence. }
    split; cbn [es_edges es_edgeMap].
    + intros j e Hj. apply lookup_app_Some in Hj as [Hj|[Hlen Hj]].
      * rewrite lookup_insert_ne; [by apply HA|].
        intros Hk. pose proof (HA _ _ Hj) as Hkj. rewrite <- Hk, Hmap in Hkj. done.
      * apply list_lookup_singleton_Some in Hj as [Hj <-]. cbn [newEdge e_from e_to].
        rewrite lookup_insert_eq. f_equal. lia.
    + intros key j Hj. apply lookup_insert_Some in Hj as [[<- <-]|[Hne Hj]].
      * exists (newEdge ev.1 a t ev.2). split; [|done].
        rewrite lookup_app_r by done. by rewrite Nat.sub_diag.
      * destruct (HB _ _ Hj) as (e & He & Hk). exists e. split; [|done].
        by apply lookup_app_l_Some.
    + intros e [He|He]%elem_of_app.
      * destruct (HC e He) as ((ev0 & Hin0 & Hl0) & Hne1 & Hnz1 & Hc & Hv).
        rewrite Hother; [|done|by apply Hfresh].
        split; [exists ev0; split; [apply elem_of_app; by left | done] | done].
      * apply list_elem_of_singleton in He as ->. simpl.
        pose proof (linkCount_snoc ns pre ev a t) as Hsn.
        rewrite decide_True, Hzero in Hsn by done. rewrite Hsn.
        split; [exists ev; split; [apply elem_of_app; right; by left | done]|].
        done.
    + intros ev' b Hin Hb Hbz Hbs. apply elem_of_app in Hin as [Hin|Hin].
      * destruct (HD ev' b Hin Hb Hbz Hbs) as (e & He & Hf & Hto).
        exists e. split; [apply elem_of_app; by left | done].
      * apply list_elem_of_singleton in Hin as ->.
        rewrite Ht in Hb. injection Hb as <-.
        eexists. split; [apply elem_of_app; right; by left | done].
Qed.

Lemma fold_step_ok st :
  store_ok ns [] st → store_ok ns evs (fold_left (step ns) evs st).
Proof.
  intros Hst.
  enough (∀ pre rest st, pre ++ rest = evs → store_ok ns pre st →
                         store_ok ns (pre ++ rest) (fold_left (step ns) rest st)) as H.
  { apply (H [] evs st); done. }
  clear st Hst. intros pre rest. revert pre.
  induction rest as [|ev rest IH]; intros pre st Heq Hst; simpl.
  - by rewrite app_nil_r.
  - rewrite (cons_middle ev pre rest), app_assoc. apply IH.
    + by rewrite <- app_assoc.
    + apply step_ok; [|done]. intros x Hx. rewrite <- Heq.
      rewrite (cons_middle ev pre rest), app_assoc. apply elem_of_app. by left.
Qed.

End Aggregation.

Lemma store_ok_empty ns : store_ok ns [] emptyEdgeStore.
Proof.
  split; simpl.
  - intros i e H. by rewrite lookup_nil in H.
  - intros key i H. by rewrite lookup_empty in H.
  - intros e H. by apply elem_of_nil in H.
  - intros ev b H. by apply elem_of_nil in H.
Qed.

Lemma filter_at_most_one {A} (P : A → Prop) `{∀ x, Decision (P x)} (l : list A) :
  (∀ i j x y, l !! i = Some x → l !! j = Some y → P x → P y → i = j) →
  (List.length (filter P l) ≤ 1)%nat.
Proof.
  induction l as [|x l IH]; intros Huniq; [simpl; lia|].
  assert (List.length (filter P l) ≤ 1)%nat as Hl.
  { apply IH. intros i j u v Hi Hj Hu Hv.
    assert (S i = S j) by (by apply (Huniq (S i) (S j) u v)). lia. }
  rewrite filter_cons. destruct (decide (P x)) as [Hx|Hx]; [|done].
  destruct (filter P l) as [|y rest] eqn:Hf; [simpl; lia|]. exfalso.
  assert (y ∈ filter P l) as Hy by (rewrite Hf; by left).
  apply list_elem_of_filter in Hy as [Hy Hin].
  apply list_elem_of_lookup in Hin as [j Hj].
  assert (0 = S j) by (by apply (Huniq 0 (S j) x y)). lia.
Qed.

Lemma refs_between_linkCount extract files a b :
  List.length (refs_between extract files a b)
  = linkCount (map makeNode files) (events extract files) a b.
Proof.
  unfold refs_between, linkCount, events. generalize (map makeNode files) as ns. intros ns.
  induction files as [|f files IH]; [done|].
  cbn [flat_map]. rewrite filter_app, !length_app, IH. f_equal.
  generalize (extract f). intros ds.
  destruct (String.eqb_spec (getNodeId (relativePath f)) a) as [Ha|Ha].
  - induction ds as [|d ds IHd]; [done|]. cbn [map]. rewrite !filter_cons.
    destruct (decide (findMatchingNode (d_path d) ns = Some b)) as [Hd|Hd].
    + rewrite decide_True by done. simpl. by rewrite IHd.
    + rewrite decide_False; [done|]. by intros [_ ?].
  - induction ds as [|d ds IHd]; [done|]. cbn [map]. rewrite filter_cons.
    rewrite decide_False; [done|]. by intros [? _].
Qed.

Lemma edges_between_tally es es' a b :
  map tally es = map tally es' →
  map tally (edges_between es a b) = map tally (edges_between es' a b).
Proof.
  unfold edges_between. revert es'.
  induction es as [|e es IH]; intros [|e' es'] Heq; try done.
  cbn [map] in Heq.
  assert (tally e = tally e' ∧ map tally es = map tally es') as [He Hrest]
    by (split; congruence).
  rewrite !filter_cons.
  assert (e_from e = e_from e' ∧ e_to e = e_to e') as [Hf Ht]
    by (unfold tally in He; split; congruence).
  destruct (decide (e_from e = a ∧ e_to e = b)) as [Hd|Hd].
  - rewrite decide_True by (rewrite <- Hf, <- Ht; done).
    cbn [map]. rewrite He. f_equal. by apply IH.
  - rewrite decide_False by (rewrite <- Hf, <- Ht; done). by apply IH.
Qed.

Lemma markCircleEdges_tally es c :
  map tally (markCircleEdges es c) = map tally es.
Proof.
  unfold markCircleEdges.
  apply (fold_left_invariant (λ s, map tally s = map tally es)); [done|].
  intros s [x y] _ Hs. by rewrite update_first_map.
Qed.

Lemma assemble_edge_tally extract files :
  map tally (assemble extract files).(edges)
  = map tally (buildEdges extract (map makeNode files) files).
Proof.
  unfold assemble; simpl.
  apply (fold_left_invariant
           (λ s, map tally s = map tally (buildEdges extract (map makeNode files) files)));
    [done|].
  intros s c _ Hs. by rewrite markCircleEdges_tally.
Qed.

(** When no two pairs of identifiers give the same edge key, the pair
    (a, b) of distinct identifiers has no edge if no reference of a file
    with identifier a resolved to b, and otherwise exactly one, whose
    count is the number k of these references and whose value is
    min(k, 5). *)
Theorem edges_aggregate_references extract files a b :
  keys_distinct (map makeNode files) (events extract files) →
  a ≠ b → b ≠ "" →
  let k := List.length (refs_between extract files a b) in
  map tally (edges_between (assemble extract files).(edges) a b)
  = if (k =? 0)%nat then [] else [(a, b, Some k, Nat.min k 5)].
Proof.
  intros Hkeys Hab Hb k.
  rewrite (edges_between_tally _ _ a b (assemble_edge_tally extract files)).
  unfold buildEdges. rewrite buildEdges_events.
  set (ns := map makeNode files) in *. set (evs := events extract files) in *.
  pose proof (fold_step_ok ns evs Hkeys emptyEdgeStore (store_ok_empty ns)) as [HA HB HC HD].
  set (st := fold_left (step ns) evs emptyEdgeStore) in *.
  assert (k = linkCount ns evs a b) as Hk by apply refs_between_linkCount.
  assert (List.length (edges_between (es_edges st) a b) ≤ 1)%nat as Hone.
  { apply filter_at_most_one. intros i j x y Hi Hj [Hx1 Hx2] [Hy1 Hy2].
    pose proof (HA _ _ Hi) as Ki. pose proof (HA _ _ Hj) as Kj.
    rewrite Hx1, Hx2 in Ki. rewrite Hy1, Hy2 in Kj. congruence. }
  destruct (edges_between (es_edges st) a b) as [|e rest] eqn:Hbetween.
  - (* no edge: no reference *)
    destruct (Nat.eqb_spec k 0) as [_|Hpos]; [done|]. exfalso.
    rewrite Hk in Hpos. unfold linkCount in Hpos.
    destruct (filter (links ns a b) evs) as [|ev more] eqn:Hfil; [done|].
    assert (ev ∈ filter (links ns a b) evs) as Hin by (rewrite Hfil; by left).
    apply list_elem_of_filter in Hin as [[Hs Ht] Hin].
    destruct (HD ev b Hin Ht Hb) as (e & He & Hf & Hto); [congruence|].
    assert (e ∈ edges_between (es_edges st) a b) as Hmem.
    { apply list_elem_of_filter. split; [split; congruence | done]. }
    rewrite Hbetween in Hmem. by apply elem_of_nil in Hmem.
  - destruct rest as [|e' rest]; [|simpl in Hone; lia].
    assert (e ∈ edges_between (es_edges st) a b) as Hmem by (rewrite Hbetween; by left).
    apply list_elem_of_filter in Hmem as [[Hf Hto] He].
    destruct (HC e He) as ((ev & Hin & Hl) & _ & _ & Hc & Hv).
    rewrite Hf, Hto in Hl, Hc, Hv. rewrite <- Hk in Hc, Hv.
    assert (1 ≤ k)%nat as Hpos by (rewrite Hk; by eapply linkCount_pos).
    destruct (Nat.eqb_spec k 0) as [?|_]; [lia|].
    simpl. unfold tally. by rewrite Hf, Hto, Hc, Hv.
Qed.

Lemma step_proper ns st ev :
  Forall proper (es_edges st) → Forall proper (es_edges (step ns st ev)).
Proof.
  intros Hst. unfold step, addDependency.
  destruct (findMatchingNode _ ns) as [t|]; [|done].
  destruct (Js.truthy t && negb (t =? sourceOf ev)%string) eqn:Hgo; [|done].
  apply andb_true_iff in Hgo as [_ Hns]. apply negb_true_iff, String.eqb_neq in Hns.
  destruct (es_edgeMap st !! _) as [i|]; cbn [es_edges].
  - apply Forall_lookup. intros j e Hj. destruct (decide (i = j)) as [<-|Hne].
    + rewrite list_lookup_alter_eq in Hj.
      destruct (es_edges st !! i) as [e0|] eqn:Hi; [|done]. injection Hj as <-.
      destruct (proj1 (Forall_lookup _ _) Hst _ _ Hi) as (Hne & c & Hc & Hv).
      split; [done|]. exists (S c). unfold bumpEdge. cbn [e_count e_value].
      rewrite Hc. cbn [or_default]. split; [f_equal; lia|].
      replace (S c + 1) with (S (S c)) by lia. done.
    + rewrite list_lookup_alter_ne in Hj by done.
      by apply (proj1 (Forall_lookup _ _) Hst _ _ Hj).
  - apply Forall_app. split; [done|]. apply Forall_singleton.
    split; [cbn [newEdge e_from e_to]; congruence|]. by exists 0.
Qed.

(** X12. Whatever the keys, no edge joins an identifier to itself, and every
    edge has a positive count and the value min(count, 5). *)
Theorem edges_are_proper extract files e :
  e ∈ (assemble extract files).(edges) → proper e.
Proof.
  intros He. apply (elem_of_map_2 tally) in He. rewrite assemble_edge_tally in He.
  apply elem_of_map in He as (e0 & Htally & He0).
  assert (proper e0) as (Hne & c & Hc & Hv).
  { revert e0 He0 Htally. unfold buildEdges. rewrite buildEdges_events. intros e0 He0 _.
    revert e0 He0. apply Forall_forall.
    apply (fold_left_invariant (λ st, Forall proper (es_edges st))); [by constructor|].
    intros st ev _. apply step_proper. }
  unfold tally in Htally. injection Htally as Hf Ht Hcount Hvalue.
  split; [congruence|]. exists c. split; congruence.
Qed.

Lemma twice_keys_distinct :
  keys_distinct (map makeNode (scannedFiles twiceWorld))
    (events (extractorOf twiceWorld) (scannedFiles twiceWorld)).
Proof.
  intros ev ev' b b' Hev Hev' Hb Hb' _.
  vm_compute in Hev, Hev'.
  repeat (apply elem_of_cons in Hev as [->|Hev]); try by apply elem_of_nil in Hev.
  all: repeat (apply elem_of_cons in Hev' as [->|Hev']); try by apply elem_of_nil in Hev'.
  all: vm_compute in Hb, Hb'; injection Hb as <-; injection Hb' as <-; done.
Qed.

(** The two imports of b.ts in a.ts make one edge of count 2 and value 2. *)
Example twice_one_edge :
  map tally (edges_between (assemble (extractorOf twiceWorld) (scannedFiles twiceWorld)).(edges)
               "a.ts" "b.ts")
  = [("a.ts", "b.ts", Some 2, 2)].
Proof.
  exact (edges_aggregate_references (extractorOf twiceWorld) (scannedFiles twiceWorld)
           "a.ts" "b.ts" twice_keys_distinct ltac:(done) ltac:(done)).
Qed.

(** C1 (the code at the failing input). With the files a.ts,
    a.ts->b.ts, b.ts->c.ts and c.ts, the reference of a.ts to b.ts->c.ts
    and the reference of a.ts->b.ts to c.ts get the same edge key
    [a.ts->b.ts->c.ts]: the second one increments the edge of the first.
    No edge leaves a.ts->b.ts although one of its references resolved to
    c.ts, and the edge from a.ts to b.ts->c.ts counts 2 for one
    reference. *)
Theorem C1_edge_key_collision :
  ∃ g, shownGraph collisionWorld = Some g
       ∧ g = assemble (extractorOf collisionWorld) (scannedFiles collisionWorld)
       ∧ map n_id g.(nodes) = ["a.ts"; "a.ts->b.ts"; "b.ts->c.ts"; "c.ts"]
       ∧ List.length (refs_between (extractorOf collisionWorld)
                        (scannedFiles collisionWorld) "a.ts->b.ts" "c.ts") = 1
       ∧ edges_between g.(edges) "a.ts->b.ts" "c.ts" = []
       ∧ List.length (refs_between (extractorOf collisionWorld)
                        (scannedFiles collisionWorld) "a.ts" "b.ts->c.ts") = 1
       ∧ map e_count (edges_between g.(edges) "a.ts" "b.ts->c.ts") = [Some 2].
Proof.
  eexists. split; [vm_compute; reflexivity|].
  repeat split; vm_compute; reflexivity.
Qed.

(** ** Node matching *)

Lemma matchable_false ns d :
  matchable ns d = false → findMatchingNode d.(d_path) ns = None.
Proof.
  unfold matchable, findMatchingNode. intros H.
  apply orb_false_iff in H as [H1 H2].
  destruct (find_first (λ n, n_path n =? d_path d)%string ns) as [n|] eqn:E1.
  { assert (is_Some (find_first (λ n, n_path n =? d_path d)%string ns)) as Hs by eauto.
    apply find_first_existsb in Hs. congruence. }
  destruct (find_first (λ n, Path.basename (n_path n) =? Path.basename (d_path d))%string ns)
    as [n|] eqn:E2; [|done].
  assert (is_Some (find_first
            (λ n, Path.basename (n_path n) =? Path.basename (d_path d))%string ns)) as Hs
    by eauto.
  apply find_first_existsb in Hs. congruence.
Qed.

Lemma buildEdges_matchable extract ns files :
  buildEdges (λ f, List.filter (matchable ns) (extract f)) ns files
  = buildEdges extract ns files.
Proof.
  unfold buildEdges. f_equal. generalize emptyEdgeStore.
  induction files as [|f files IH]; intros st; [done|]. simpl. rewrite IH. f_equal.
  unfold addFile. apply fold_left_filter_skip.
  intros s d Hd. unfold addDependency. by rewrite (matchable_false ns d Hd).
Qed.

(** [find] returns the first element that satisfies the test: no element
    before it does. *)
Lemma find_first_position {A : Type} (pred : A → bool) (l : list A) (x : A) :
  find_first pred l = Some x →
  ∃ k, l !! k = Some x ∧ pred x = true
       ∧ ∀ j y, (j < k)%nat → l !! j = Some y → pred y = false.
Proof.
  induction l as [|y l IH]; simpl; [done|].
  destruct (pred y) eqn:Hy.
  - intros [= ->]. exists 0. split; [done|]. split; [done|]. intros j z Hj. lia.
  - intros H. destruct (IH H) as (k & Hk & Hp & Hbefore).
    exists (S k). split; [done|]. split; [done|].
    intros [|j] z Hj Hz; simpl in Hz; [congruence|]. apply (Hbefore j); [lia | done].
Qed.

Lemma findMatchingNode_Some depPath ns i :
  findMatchingNode depPath ns = Some i →
  ∃ k n, ns !! k = Some n ∧ n.(n_id) = i
       ∧ ((n.(n_path) = depPath
           ∧ ∀ j m, (j < k)%nat → ns !! j = Some m → m.(n_path) ≠ depPath)
          ∨ ((∀ m, m ∈ ns → m.(n_path) ≠ depPath)
             ∧ Path.basename n.(n_path) = Path.basename depPath
             ∧ ∀ j m, (j < k)%nat → ns !! j = Some m →
                 Path.basename m.(n_path) ≠ Path.basename depPath)).
Proof.
  unfold findMatchingNode.
  destruct (find_first (λ n, n_path n =? depPath)%string ns) as [n|] eqn:E1.
  - intros [= <-]. apply find_first_position in E1 as (k & Hk & Hp & Hbefore).
    apply String.eqb_eq in Hp. exists k, n. split; [done|]. split; [done|]. left.
    split; [done|]. intros j m Hj Hm. apply String.eqb_neq. by apply (Hbefore j).
  - destruct (find_first (λ n, Path.basename (n_path n) =? Path.basename depPath)%string ns)
      as [n|] eqn:E2; [|done].
    intros [= <-]. apply find_first_position in E2 as (k & Hk & Hp & Hbefore).
    apply String.eqb_eq in Hp. exists k, n. split; [done|]. split; [done|]. right.
    split; [|split; [done|]].
    + intros m Hm.
      pose proof (proj1 (find_first_None _ _) E1 m Hm) as Hne. by apply String.eqb_neq in Hne.
    + intros j m Hj Hm. apply String.eqb_neq. by apply (Hbefore j).
Qed.

Lemma findMatchingNode_None depPath ns :
  findMatchingNode depPath ns = None
  ↔ ∀ m, m ∈ ns → m.(n_path) ≠ depPath
               ∧ Path.basename m.(n_path) ≠ Path.basename depPath.
Proof.
  unfold findMatchingNode. split.
  - destruct (find_first (λ n, n_path n =? depPath)%string ns) as [n|] eqn:E1; [done|].
    destruct (find_first (λ n, Path.basename (n_path n) =? Path.basename depPath)%string ns)
      as [n|] eqn:E2; [done|].
    intros _ m Hm.
    pose proof (proj1 (find_first_None _ _) E1 m Hm) as H1.
    pose proof (proj1 (find_first_None _ _) E2 m Hm) as H2.
    by apply String.eqb_neq in H1, H2.
  - intros H.
    assert (find_first (λ n, n_path n =? depPath)%string ns = None) as ->.
    { apply find_first_None. intros m Hm. apply String.eqb_neq. by apply H. }
    assert (find_first (λ n, Path.basename (n_path n) =? Path.basename depPath)%string ns
            = None) as ->; [|done].
    apply find_first_None. intros m Hm. apply String.eqb_neq. by apply H.
Qed.

(** C4 (amended). A reference whose resolved path is the relative path
    of no collected file and whose base name is the base name of no
    collected file is as good as unresolved: the graph is the one built
    without it, and these are the only references that node matching
    sends nowhere. Node matching only returns identifiers of collected
    nodes: that of the first node with that relative path or else, when
    no node has that path, that of the first node with the same base
    name. *)
Theorem C4_unmatched_references_make_no_edge (extract : CodeFile → list DependencyInfo)
    (files : list CodeFile) :
  let nodes0 := map makeNode files in
  assemble (λ f, List.filter (matchable nodes0) (extract f)) files = assemble extract files
  ∧ (∀ depPath,
       findMatchingNode depPath nodes0 = None
       ↔ ∀ m, m ∈ nodes0 → m.(n_path) ≠ depPath
                    ∧ Path.basename m.(n_path) ≠ Path.basename depPath)
  ∧ (∀ depPath i,
       findMatchingNode depPath nodes0 = Some i →
       ∃ k n, nodes0 !! k = Some n ∧ n.(n_id) = i
            ∧ ((n.(n_path) = depPath
                ∧ ∀ j m, (j < k)%nat → nodes0 !! j = Some m → m.(n_path) ≠ depPath)
               ∨ ((∀ m, m ∈ nodes0 → m.(n_path) ≠ depPath)
                  ∧ Path.basename n.(n_path) = Path.basename depPath
                  ∧ ∀ j m, (j < k)%nat → nodes0 !! j = Some m →
                      Path.basename m.(n_path) ≠ Path.basename depPath))).
Proof.
  intros nodes0. split; [|split].
  - unfold assemble. fold nodes0. by rewrite buildEdges_matchable.
  - intros depPath. apply findMatchingNode_None.
  - intros depPath i. apply findMatchingNode_Some.
Qed.

(** C4 (counterexample). a.ts imports ./node_modules/lib/utils; the file
    node_modules/lib/utils.ts exists on disk and is not collected (its
    directory is ignored). The reference resolves to it, node matching
    falls back to the base name and an edge to src/utils.ts is created. *)
Lemma C4_uncollected_target_makes_edge :
  ∃ g, shownGraph fallbackWorld = Some g
       ∧ map relativePath (scannedFiles fallbackWorld) = ["a.ts"; "src/utils.ts"]
       ∧ map d_path (flat_map (extractorOf fallbackWorld) (scannedFiles fallbackWorld))
         = ["node_modules/lib/utils.ts"]
       ∧ map endpoints g.(edges) = [("a.ts", "src/utils.ts")].
Proof. eexists. split; [vm_compute; reflexivity|]. repeat split; vm_compute; reflexivity. Qed.

(** ** Go imports *)

Lemma tryAliases_no_prefix env ws aliases importPath exts :
  (∀ alias aliasPath, (alias, aliasPath) ∈ aliases → Js.startsWith importPath alias = false) →
  tryAliases env ws aliases importPath exts = None.
Proof.
  induction aliases as [|[alias aliasPath] aliases IH]; intros H; [done|]. simpl.
  rewrite (H alias aliasPath) by (by left). apply IH.
  intros a p Hin. apply (H a p). by right.
Qed.

Lemma flat_map_nil {A B : Type} (f : A → list B) (l : list A) :
  (∀ x, x ∈ l → f x = []) → flat_map f l = [].
Proof.
  induction l as [|x l IH]; intros H; [done|]. simpl.
  rewrite (H x) by (by left). apply IH. intros y Hy. apply H. by right.
Qed.

(** C6 (amended). An import of a Go file that begins neither with a dot
    nor with a slash (nor with a configured alias) is never probed: it is
    unresolved whatever files exist, and a Go file whose imports are all
    of that kind contributes no reference, hence no edge. An import that
    begins with a dot or a slash resolves as soon as the resolved path
    with [.go] appended is a file. *)
Theorem C6_go_import_resolution (env : Env) (ws : string) (this : DependencyGraph) :
  (∀ importPath dir exts,
     module_root this importPath →
     resolveImportPath env ws this importPath dir exts = None)
  ∧ (∀ file,
       file.(language) = "go" →
       (∀ m p, m ∈ exec_all env goImportRegex file.(content) →
               m.(m_group1) = Some p → module_root this p) →
       (∀ b blockContent m p,
          b ∈ exec_all env goImportBlockRegex file.(content) →
          b.(m_group1) = Some blockContent →
          m ∈ exec_all env blockRegex blockContent →
          m.(m_group1) = Some p → module_root this p) →
       extractDependencies env ws this file = [])
  ∧ (∀ importPath dir,
       this.(tsConfigPaths) = [] →
       Js.startsWith importPath "." || Js.startsWith importPath "/" = true →
       fileExists env (Path.resolve (cwd env) dir importPath +:+ ".go") = true →
       resolveImportPath env ws this importPath dir [".go"]
       = Some (relativeToWorkspace env ws (Path.resolve (cwd env) dir importPath +:+ ".go"))).
Proof.
  assert (∀ importPath dir exts,
            module_root this importPath →
            resolveImportPath env ws this importPath dir exts = None) as Hres.
  { intros importPath dir exts (Hdot & Hslash & Halias). unfold resolveImportPath.
    rewrite tryAliases_no_prefix by done. by rewrite Hdot, Hslash. }
  split; [done|]. split.
  - intros file Hlang Hsingle Hblock. unfold extractDependencies. rewrite Hlang. simpl.
    rewrite !flat_map_nil; [done | |].
    + intros b Hb. destruct (m_group1 b) as [blockContent|] eqn:Hg; [|done].
      apply flat_map_nil. intros m Hm. destruct (m_group1 m) as [p|] eqn:Hp; [|done].
      by rewrite (Hres p _ _ (Hblock b blockContent m p Hb Hg Hm Hp)).
    + intros m Hm. destruct (m_group1 m) as [p|] eqn:Hp; [|done].
      rewrite (Hres p _ _ (Hsingle m p Hm Hp)). by destruct (Js.truthy p).
  - intros importPath dir Htable Hrel Hfile. unfold resolveImportPath.
    rewrite Htable. simpl. by rewrite Hrel, Hfile.
Qed.

(** C6 (counterexample). main.go imports pkg/util and pkg/util.go is a
    collected file: the reference is extracted by the pattern and left
    unresolved, no edge is created. Written ./pkg/util, the same import
    gives the edge. *)
Lemma C6_go_module_root_import_unresolved :
  ∃ g g', shownGraph goWorld = Some g
       ∧ map n_id g.(nodes) = ["main.go"; "pkg/util.go"]
       ∧ exec_all goWorld.(env) goImportRegex goText
         = [{| m_index := 0; m_group1 := Some "pkg/util" |}]
       ∧ fileExists goWorld.(env) "/ws/pkg/util.go" = true
       ∧ g.(edges) = []
       ∧ shownGraph goRelWorld = Some g'
       ∧ map endpoints g'.(edges) = [("main.go", "pkg/util.go")].
Proof.
  eexists. eexists. split; [vm_compute; reflexivity|].
  repeat split; vm_compute; reflexivity.
Qed.

(** ** The collector *)

(** Induction on directory trees. *)
Lemma Entry_tree_ind (P : Entry → Prop) :
  (∀ name text, P (File name text)) →
  (∀ name, P (Dir name None)) →
  (∀ name entries, Forall P entries → P (Dir name (Some entries))) →
  (∀ name, P (Other name)) →
  ∀ e, P e.
Proof.
  intros HF HN HD HO.
  fix IH 1. intros [name text|name [entries|]|name]; [apply HF| |apply HN|apply HO].
  apply HD. induction entries as [|e entries IHe]; constructor; [apply IH | apply IHe].
Qed.

Section ScanFacts.
Variable cwd : string.
Variable rootPath : string.

(** The inlined loop of a sub-directory is [scanEntries]. *)
Lemma scanEntry_dir currentPath name entries files :
  scanEntry cwd rootPath currentPath (Dir name (Some entries)) files
  = if shouldIgnore (Path.relative cwd rootPath (Path.join [currentPath; name]))
    then Returned files
    else scanEntries cwd rootPath (Path.join [currentPath; name]) entries files.
Proof.
  cbn [scanEntry entry_name]. destruct (shouldIgnore _); [done|].
  revert files. induction entries as [|e entries IH]; intros files; [done|].
  cbn [scanEntries]. destruct (scanEntry _ _ _ e files); [apply IH | done].
Qed.

Lemma scanEntries_app currentPath es1 es2 files :
  scanEntries cwd rootPath currentPath (es1 ++ es2) files
  = match scanEntries cwd rootPath currentPath es1 files with
    | Returned files' => scanEntries cwd rootPath currentPath es2 files'
    | Thrown d => Thrown d
    end.
Proof.
  revert files. induction es1 as [|e es1 IH]; intros files; [done|]. simpl.
  destruct (scanEntry _ _ _ e files); [apply IH | done].
Qed.

(** A file whose read fails leaves no trace. *)
Lemma scanEntries_prune e :
  ∀ currentPath files,
    scanEntries cwd rootPath currentPath (prune e) files
    = scanEntry cwd rootPath currentPath e files.
Proof.
  induction e as [name [text|]|name|name entries IH|name] using Entry_tree_ind;
    intros currentPath files.
  - cbn [prune scanEntries]. by destruct (scanEntry _ _ _ _ files).
  - cbn [prune scanEntries scanEntry entry_name].
    destruct (shouldIgnore _); [done|].
    by destruct (includes supportedExtensions (Path.extname name)).
  - cbn [prune scanEntries]. by destruct (scanEntry _ _ _ _ files).
  - cbn [prune scanEntries]. rewrite !scanEntry_dir.
    destruct (shouldIgnore _); [done|].
    assert (∀ files, scanEntries cwd rootPath (Path.join [currentPath; name])
                       (flat_map prune entries) files
                     = scanEntries cwd rootPath (Path.join [currentPath; name]) entries files)
      as ->; [|by destruct (scanEntries _ _ _ entries files)].
    clear files. induction IH as [|e entries He _ IHes]; intros files; [done|].
    cbn [flat_map]. rewrite scanEntries_app, He. cbn [scanEntries].
    destruct (scanEntry _ _ _ e files); [apply IHes | done].
  - cbn [prune scanEntries]. by destruct (scanEntry _ _ _ _ files).
Qed.

Lemma scanEntries_flat_prune currentPath entries files :
  scanEntries cwd rootPath currentPath (flat_map prune entries) files
  = scanEntries cwd rootPath currentPath entries files.
Proof.
  revert files. induction entries as [|e entries IH]; intros files; [done|].
  cbn [flat_map]. rewrite scanEntries_app, scanEntries_prune. cbn [scanEntries].
  destruct (scanEntry _ _ _ e files); [apply IH | done].
Qed.

(** The scan returns exactly when every directory it enters can be
    listed. *)
Lemma scanEntry_listable e :
  ∀ currentPath files,
    if listable cwd rootPath currentPath e
    then ∃ files', scanEntry cwd rootPath currentPath e files = Returned files'
    else ∃ d, scanEntry cwd rootPath currentPath e files = Thrown d.
Proof.
  induction e as [name text|name|name entries IH|name] using Entry_tree_ind;
    intros currentPath files.
  - cbn [listable scanEntry entry_name]. destruct (shouldIgnore _); cbn [orb]; [eauto|].
    destruct (includes supportedExtensions (Path.extname name)); [|eauto].
    destruct text; eauto.
  - cbn [listable scanEntry entry_name]. destruct (shouldIgnore _); cbn [orb]; eauto.
  - cbn [listable entry_name]. rewrite scanEntry_dir.
    destruct (shouldIgnore _); cbn [orb]; [eauto|].
    generalize (Path.join [currentPath; name]). intros full. revert files.
    induction IH as [|e entries He _ IHes]; intros files; [simpl; eauto|].
    cbn [forallb scanEntries]. specialize (He full files).
    destruct (listable cwd rootPath full e); simpl.
    + destruct He as [files' ->]. apply IHes.
    + destruct He as [d ->]. eauto.
  - cbn [listable scanEntry entry_name]. destruct (shouldIgnore _); cbn [orb]; eauto.
Qed.

Lemma scanEntries_listable currentPath entries files :
  if forallb (listable cwd rootPath currentPath) entries
  then ∃ files', scanEntries cwd rootPath currentPath entries files = Returned files'
  else ∃ d, scanEntries cwd rootPath currentPath entries files = Thrown d.
Proof.
  revert files. induction entries as [|e entries IH]; intros files; [simpl; eauto|].
  cbn [forallb scanEntries].
  pose proof (scanEntry_listable e currentPath files) as He.
  destruct (listable cwd rootPath currentPath e); simpl.
  - destruct He as [files' ->]. apply IH.
  - destruct He as [d ->]. eauto.
Qed.

End ScanFacts.

Lemma scanWorkspace_prune cwd rootPath listing :
  scanWorkspace cwd rootPath (pruneListing listing) = scanWorkspace cwd rootPath listing.
Proof.
  unfold scanWorkspace, scanDirectory. destruct listing as [entries|]; [|done].
  simpl. apply scanEntries_flat_prune.
Qed.

Lemma scanWorkspace_listable cwd rootPath listing :
  if listableListing cwd rootPath listing
  then ∃ files, scanWorkspace cwd rootPath listing = Returned files
  else ∃ d, scanWorkspace cwd rootPath listing = Thrown d.
Proof.
  unfold scanWorkspace, scanDirectory, listableListing.
  destruct listing as [entries|]; [apply scanEntries_listable | eauto].
Qed.

(** C8. A file whose content cannot be read is left out: the scan gives
    what it gives on the tree without that file, and with every entered
    directory listable it returns and the command shows the graph over
    the files read. When a directory that the scan enters cannot be
    listed, the scan throws, the command reports the failure and shows no
    graph (the panel is left as it was). *)
Theorem C8_read_failures (host : HostState) (world : World)
    (folder : Folder) (others : list Folder) :
  world.(workspaceFolders) = folder :: others →
  let scan listing := scanWorkspace (cwd world.(env)) folder.(fsPath) listing in
  scan (pruneListing folder.(folderListing)) = scan folder.(folderListing)
  ∧ (listableListing (cwd world.(env)) folder.(fsPath) folder.(folderListing) = true →
     ∃ files,
       scan folder.(folderListing) = Returned files
       ∧ let g := (buildGraph world.(env) new_DependencyGraph files folder.(fsPath)).2 in
         showVisualization host world = ({| currentPanel := Some g |}, Shown g))
  ∧ (listableListing (cwd world.(env)) folder.(fsPath) folder.(folderListing) = false →
     ∃ dir,
       scan folder.(folderListing) = Thrown dir
       ∧ showVisualization host world = (host, Failed dir)).
Proof.
  intros Hfolders scan. split; [apply scanWorkspace_prune|].
  pose proof (scanWorkspace_listable (cwd world.(env)) folder.(fsPath)
                folder.(folderListing)) as H.
  split; intros Hl; rewrite Hl in H.
  - destruct H as [files Hfiles]. exists files. split; [done|].
    unfold showVisualization. by rewrite Hfolders, Hfiles.
  - destruct H as [dir Hdir]. exists dir. split; [done|].
    unfold showVisualization. by rewrite Hfolders, Hdir.
Qed.

(** ** State across scans *)

Lemma setAliases_effective table entries :
  setAliases table entries = applySets (effective entries) table.
Proof.
  revert table. induction entries as [|[key value] entries IH]; intros table; [done|].
  destruct value as [[|[first|] items]|]; simpl; by rewrite ?IH.
Qed.

Lemma map_set_same table k v v' : map_set (map_set table k v) k v' = map_set table k v'.
Proof.
  induction table as [|[k0 v0] table IH]; simpl.
  - by rewrite String.eqb_refl.
  - destruct (String.eqb_spec k0 k) as [->|Hne]; simpl.
    + by rewrite String.eqb_refl.
    + apply String.eqb_neq in Hne. by rewrite Hne, IH.
Qed.

Lemma map_set_keys table k v k' :
  k' ∈ map fst (map_set table k v) ↔ k' = k ∨ k' ∈ map fst table.
Proof.
  induction table as [|[k0 v0] table IH]; simpl.
  - rewrite list_elem_of_singleton. split; [by left | intros [?|?%elem_of_nil]; done].
  - destruct (String.eqb_spec k0 k) as [->|Hne]; simpl; rewrite !elem_of_cons.
    + tauto.
    + rewrite IH. tauto.
Qed.

Lemma map_set_swap table k v k' v' :
  k ≠ k' → k ∈ map fst table →
  map_set (map_set table k v) k' v' = map_set (map_set table k' v') k v.
Proof.
  intros Hne. induction table as [|[k0 v0] table IH]; simpl; [by intros ?%elem_of_nil|].
  intros Hin.
  destruct (String.eqb_spec k0 k) as [Hk|Hk].
  - subst k0. apply String.eqb_neq in Hne as Hne1. rewrite Hne1. simpl.
    by rewrite Hne1, String.eqb_refl.
  - destruct (String.eqb_spec k0 k') as [Hk'|Hk'].
    + subst k0. simpl. rewrite String.eqb_refl.
      apply String.eqb_neq in Hk as Hk1. by rewrite Hk1.
    + simpl. apply String.eqb_neq in Hk as Hk1. apply String.eqb_neq in Hk' as Hk2.
      rewrite Hk1, Hk2. f_equal. apply IH.
      apply elem_of_cons in Hin as [?|?]; [|done]. simpl in *. congruence.
Qed.

Lemma applySets_keys sets table k :
  k ∈ map fst table → k ∈ map fst (applySets sets table).
Proof.
  revert table. induction sets as [|[k1 v1] sets IH]; intros table Hk; [done|].
  simpl. apply IH. apply map_set_keys. by right.
Qed.

Lemma applySets_sets_keys sets table k v :
  (k, v) ∈ sets → k ∈ map fst (applySets sets table).
Proof.
  revert table. induction sets as [|[k1 v1] sets IH]; intros table;
    [by intros ?%elem_of_nil|].
  intros [[= <- <-]|Hin]%elem_of_cons; simpl.
  - apply applySets_keys, map_set_keys. by left.
  - by apply IH.
Qed.

Lemma applySets_absorb sets table k v :
  (∀ k1 v1, (k1, v1) ∈ sets → k1 ∈ map fst table) →
  map_set (applySets sets (map_set table k v)) k v = map_set (applySets sets table) k v.
Proof.
  revert table. induction sets as [|[k1 v1] sets IH]; intros table Hkeys; [simpl|].
  - apply map_set_same.
  - simpl. destruct (decide (k1 = k)) as [->|Hne].
    + by rewrite map_set_same.
    + rewrite <- (map_set_swap table k1 v1 k v); [|done|by eapply Hkeys; left].
      apply IH. intros k2 v2 Hin. apply map_set_keys. right. eapply Hkeys. by right.
Qed.

(** Loading the same aliases a second time changes nothing. *)
Lemma applySets_idempotent sets table :
  applySets sets (applySets sets table) = applySets sets table.
Proof.
  induction sets as [|[k v] sets IH] using rev_ind; [done|].
  unfold applySets in *. rewrite !fold_left_app. simpl.
  change (fold_left (λ t kv, map_set t kv.1 kv.2) sets) with (applySets sets) in *.
  rewrite applySets_absorb by (intros k1 v1 Hin; by eapply applySets_sets_keys).
  by rewrite IH.
Qed.

Lemma loadTsConfigPaths_idempotent env this ws :
  loadTsConfigPaths env (loadTsConfigPaths env this ws) ws = loadTsConfigPaths env this ws.
Proof.
  unfold loadTsConfigPaths.
  destruct (readTsConfig env _) as [|entries] eqn:Hread; rewrite ?Hread; [done|].
  simpl. by rewrite !setAliases_effective, applySets_idempotent.
Qed.

(** What a second call of [buildGraph] on the same object does, for the
    same root and environment: the object, whatever its state before the
    first call, is left as the first call left it, and the graph is the
    one that the first call would have returned for these files. *)
Lemma buildGraph_again env (this : DependencyGraph) files files' ws :
  buildGraph env (buildGraph env this files ws).1 files' ws
  = ((buildGraph env this files ws).1, (buildGraph env this files' ws).2).
Proof.
  unfold buildGraph. cbn [fst snd].
  set (this0 := {| workspacePath := ws; tsConfigPaths := tsConfigPaths this |}).
  assert ({| workspacePath := ws;
             tsConfigPaths := tsConfigPaths (loadTsConfigPaths env this0 ws) |}
          = loadTsConfigPaths env this0 ws) as ->.
  { unfold loadTsConfigPaths. by destruct (readTsConfig _ _). }
  by rewrite loadTsConfigPaths_idempotent.
Qed.

(** C9 (amended). The command makes its own [CodeScanner] and
    [DependencyGraph] on every run: what it shows for a tree after an
    earlier run on any workspace is what it shows from any other host
    state. The state that a [DependencyGraph] object carries from one
    [buildGraph] call to the next is its alias table only (the root is
    overwritten). An object used again for the same root and environment
    returns the graph that the first call returns for the same files and
    stays as the first call left it, whatever its state before, since
    loading the same aliases again leaves the table as it is. (Used
    again for another root, the object keeps the aliases of the first
    root.) *)
Theorem C9_scans_are_independent (host host' : HostState) (world earlier : World)
    (env : Env) (this : DependencyGraph) (files files' : list CodeFile) (ws : string) :
  (showVisualization (showVisualization host earlier).1 world).2
  = (showVisualization host' world).2
  ∧ (let first := buildGraph env this files ws in
     buildGraph env first.1 files ws = first
     ∧ buildGraph env first.1 files' ws = (first.1, (buildGraph env this files' ws).2))
  ∧ (∀ other, tsConfigPaths other = tsConfigPaths this →
       buildGraph env other files ws = buildGraph env this files ws).
Proof.
  split; [|split; [split|]].
  - unfold showVisualization at 1 3.
    destruct (workspaceFolders world) as [|folder others]; [done|].
    by destruct (scanWorkspace _ _ _).
  - rewrite buildGraph_again. by destruct (buildGraph env this files ws).
  - apply buildGraph_again.
  - intros other Hother. unfold buildGraph. by rewrite Hother.
Qed.

(** C9 (counterexample). One [DependencyGraph] object used for /ws1 and
    then for /ws2 keeps the aliases that the configuration of /ws1 sets:
    the import of @lib/x in /ws2, which has no configuration, then makes
    an edge that an object of its own does not make. *)
Lemma C9_reused_object_keeps_aliases :
  let used := (buildGraph aliasEnv new_DependencyGraph [] "/ws1").1 in
  tsConfigPaths used = [("@lib", "src")]
  ∧ map endpoints (buildGraph aliasEnv used aliasFiles "/ws2").2.(edges)
    = [("a.ts", "src/x.ts")]
  ∧ (buildGraph aliasEnv new_DependencyGraph aliasFiles "/ws2").2.(edges) = [].
Proof. repeat split; vm_compute; reflexivity. Qed.

(** ** Paths below the workspace root *)

Lemma split_nonempty sep s : Js.split sep s ≠ [].
Proof.
  destruct s as [|c s]; [done|]. simpl. destruct (Ascii.eqb c sep); [done|].
  by destruct (Js.split sep s).
Qed.

Lemma split_app_sep sep a b :
  Js.split sep (a +:+ String sep b) = Js.split sep a ++ Js.split sep b.
Proof.
  induction a as [|c a IH]; simpl.
  - by rewrite Ascii.eqb_refl.
  - destruct (Ascii.eqb c sep); [by rewrite IH|].
    rewrite IH. pose proof (split_nonempty sep a) as Hne.
    by destruct (Js.split sep a).
Qed.

Lemma split_no_slash s : no_slash s = true → Js.split "/" s = [s].
Proof.
  unfold no_slash. induction s as [|c s IH]; [done|]. simpl.
  intros [Hc Hs]%andb_true_iff. apply negb_true_iff in Hc.
  unfold Path.sep in Hc. rewrite Hc. by rewrite IH.
Qed.

Lemma join_cons x y l : Js.join "/" (x :: y :: l) = x +:+ String "/" (Js.join "/" (y :: l)).
Proof. done. Qed.

Lemma split_join l :
  l ≠ [] → forallb no_slash l = true → Js.split "/" (Js.join "/" l) = l.
Proof.
  induction l as [|x l IH]; [done|]. intros _ [Hx Hl]%andb_true_iff.
  destruct l as [|y l]; [by apply split_no_slash|].
  rewrite join_cons, split_app_sep, split_no_slash by done.
  by rewrite IH.
Qed.

Lemma valid_name_no_slash s : valid_name s = true → no_slash s = true.
Proof. unfold valid_name. by intros [_ ?]%andb_true_iff. Qed.

Lemma valid_names_no_slash l : forallb valid_name l = true → forallb no_slash l = true.
Proof.
  induction l as [|x l IH]; [done|]. simpl. intros [Hx Hl]%andb_true_iff.
  by rewrite valid_name_no_slash, IH.
Qed.

Lemma valid_name_inv s :
  valid_name s = true → (s =? "")%string = false ∧ (s =? ".")%string = false
                        ∧ (s =? "..")%string = false.
Proof.
  unfold valid_name. intros [[[H1 H2]%andb_true_iff H3]%andb_true_iff _]%andb_true_iff.
  by rewrite !negb_true_iff in *.
Qed.

Lemma nonempty_valid s : valid_name s = true → Path.nonempty s = true.
Proof.
  intros Hs. destruct (valid_name_inv s Hs) as (H1 & _). unfold Path.nonempty. by rewrite H1.
Qed.

Lemma normalizeSegments_valid allowAboveRoot acc l :
  (∀ s, s ∈ l → s = "" ∨ valid_name s = true) →
  Path.normalizeSegments allowAboveRoot acc l
  = rev acc ++ filter (λ s, Path.nonempty s = true) l.
Proof.
  revert acc. induction l as [|s l IH]; intros acc Hl.
  - simpl. by rewrite filter_nil, app_nil_r.
  - assert (∀ t, t ∈ l → t = "" ∨ valid_name t = true) as Hl'
      by (intros t Ht; apply Hl; by right).
    destruct (Hl s) as [->|Hs]; [by left | |].
    + rewrite filter_cons_False by done. cbn [Path.normalizeSegments String.eqb orb].
      by apply IH.
    + rewrite filter_cons_True by by apply nonempty_valid.
      destruct (valid_name_inv s Hs) as (H1 & H2 & H3).
      cbn [Path.normalizeSegments]. rewrite H1, H2, H3. cbn [orb].
      rewrite IH by done. simpl. by rewrite <- app_assoc.
Qed.

Lemma filter_valid_names l :
  forallb valid_name l = true → filter (λ s, Path.nonempty s = true) l = l.
Proof.
  induction l as [|x l IH]; [done|]. simpl. intros [Hx Hl]%andb_true_iff.
  rewrite filter_cons_True by by apply nonempty_valid. by rewrite IH.
Qed.

Lemma split_abs_path l :
  forallb valid_name l = true →
  Js.split "/" (abs_path l) = "" :: match l with [] => [""] | _ => l end.
Proof.
  intros Hl. unfold abs_path. simpl. f_equal.
  destruct l as [|x l]; [done|]. apply split_join; [done | by apply valid_names_no_slash].
Qed.

Lemma split_abs_path_elems l s :
  forallb valid_name l = true → s ∈ Js.split "/" (abs_path l) → s = "" ∨ valid_name s = true.
Proof.
  intros Hl. rewrite split_abs_path by done.
  intros [->|Hs]%elem_of_cons; [by left|].
  destruct l as [|x l]; [left; by apply list_elem_of_singleton in Hs|].
  right. rewrite forallb_forall in Hl. apply Hl. by apply list_elem_of_In.
Qed.

Lemma segments_abs_path l : forallb valid_name l = true → Path.segments (abs_path l) = l.
Proof.
  intros Hl. unfold Path.segments. change Path.sep with "/"%char.
  rewrite split_abs_path by done.
  rewrite filter_cons_False by done.
  destruct l as [|x l]; [done|]. by apply filter_valid_names.
Qed.

Lemma abs_path_inj l l' :
  forallb valid_name l = true → forallb valid_name l' = true →
  abs_path l = abs_path l' → l = l'.
Proof.
  intros Hl Hl' Heq. by rewrite <- (segments_abs_path l), <- (segments_abs_path l'), Heq.
Qed.

Lemma isAbsolute_slash rest : Path.isAbsolute (String "/" rest) = true.
Proof.
  unfold Path.isAbsolute, Js.startsWith. simpl.
  destruct (ascii_dec "/" "/") as [_|Hne]; [by destruct rest | done].
Qed.

Lemma isAbsolute_abs_path l rest : Path.isAbsolute (abs_path l +:+ rest) = true.
Proof. apply isAbsolute_slash. Qed.

Lemma isAbsolute_abs_path' l : Path.isAbsolute (abs_path l) = true.
Proof. apply isAbsolute_slash. Qed.

Lemma app_slash a b : a +:+ "/" +:+ b = a +:+ String "/" b.
Proof. done. Qed.

Lemma resolve_abs_path cwd l :
  forallb valid_name l = true → Path.resolve cwd (abs_path l) "" = abs_path l.
Proof.
  intros Hl. unfold Path.resolve.
  change (Path.isAbsolute "") with false. cbv iota.
  rewrite isAbsolute_abs_path'. rewrite isAbsolute_abs_path. cbn [negb].
  rewrite app_slash. change Path.sep with "/"%char.
  rewrite split_app_sep, normalizeSegments_valid.
  - rewrite filter_app. change (Js.split "/" "") with [""].
    rewrite (filter_cons_False _ "" []) by done. rewrite filter_nil, app_nil_r.
    change (filter (λ s, Path.nonempty s = true) (Js.split "/" (abs_path l)))
      with (Path.segments (abs_path l)).
    by rewrite segments_abs_path.
  - intros s [Hs|Hs]%elem_of_app; [by eapply split_abs_path_elems|].
    left. by apply list_elem_of_singleton in Hs.
Qed.

Lemma strip_common_prefix rs xs : Path.strip_common rs (rs ++ xs) = ([], xs).
Proof.
  induction rs as [|r rs IH]; simpl; [by destruct xs|]. by rewrite String.eqb_refl.
Qed.

Lemma forallb_valid_app l1 l2 :
  forallb valid_name (l1 ++ l2) = true
  ↔ forallb valid_name l1 = true ∧ forallb valid_name l2 = true.
Proof. by rewrite forallb_app, andb_true_iff. Qed.

(** The path of an entry relative to the root is the chain of names that
    leads to it. *)
Lemma relative_below cwd rs xs :
  forallb valid_name rs = true → forallb valid_name xs = true → xs ≠ [] →
  Path.relative cwd (abs_path rs) (abs_path (rs ++ xs)) = Js.join "/" xs.
Proof.
  intros Hrs Hxs Hne.
  assert (forallb valid_name (rs ++ xs) = true) as Hall by by apply forallb_valid_app.
  assert (abs_path rs ≠ abs_path (rs ++ xs)) as Hdiff.
  { intros Heq. apply abs_path_inj in Heq; [|done..].
    apply Hne. apply (app_inv_head rs). by rewrite app_nil_r. }
  unfold Path.relative.
  apply String.eqb_neq in Hdiff as Hd. rewrite Hd.
  rewrite !resolve_abs_path by done. rewrite Hd.
  rewrite !segments_abs_path by done. by rewrite strip_common_prefix.
Qed.

Lemma list_ascii_app a b :
  list_ascii_of_string (a +:+ b) = list_ascii_of_string a ++ list_ascii_of_string b.
Proof. induction a as [|c a IH]; simpl; [done | by rewrite IH]. Qed.

Lemma endsWithSlash_name a name :
  valid_name name = true → Path.endsWithSlash (a +:+ name) = false.
Proof.
  intros Hv. pose proof (valid_name_no_slash name Hv) as Hns.
  destruct (valid_name_inv name Hv) as (Hne & _).
  unfold Path.endsWithSlash. rewrite list_ascii_app, rev_app_distr.
  unfold no_slash in Hns. rewrite forallb_forall in Hns.
  destruct (rev (list_ascii_of_string name)) as [|c r] eqn:Hrev.
  - apply (f_equal (@rev ascii)) in Hrev. rewrite rev_involutive in Hrev. simpl in Hrev.
    destruct name; [done | discriminate].
  - simpl. apply negb_true_iff, Hns, in_rev. rewrite Hrev. by left.
Qed.

Lemma join_snoc_nonempty l name :
  forallb valid_name l = true → valid_name name = true →
  (Js.join "/" (l ++ [name]) =? "")%string = false.
Proof.
  intros Hl Hn. apply String.eqb_neq. intros Heq.
  assert (Js.split "/" (Js.join "/" (l ++ [name])) = l ++ [name]) as Hs.
  { apply split_join; [by destruct l|].
    apply valid_names_no_slash, forallb_valid_app. split; [done|]. simpl. by rewrite Hn. }
  rewrite Heq in Hs. destruct (valid_name_inv name Hn) as (Hne & _).
  destruct l as [|x [|y l]]; simpl in Hs; try done.
  injection Hs as <-. done.
Qed.

Lemma app_slash_assoc a name : a +:+ String "/" name = (a +:+ "/") +:+ name.
Proof.
  induction a as [|c a IH]; [done|].
  change (String c (a +:+ String "/" name) = String c ((a +:+ "/") +:+ name)).
  by f_equal.
Qed.

(** The full path of an entry is the path of its directory followed by
    its name. *)
Lemma join_below l name :
  forallb valid_name l = true → valid_name name = true →
  Path.join [abs_path l; name] = abs_path (l ++ [name]).
Proof.
  intros Hl Hn. unfold Path.join.
  rewrite filter_cons_True by done.
  rewrite filter_cons_True by by apply nonempty_valid.
  rewrite filter_nil.
  change (Js.join "/" [abs_path l; name]) with (abs_path l +:+ String "/" name).
  assert ((abs_path l +:+ String "/" name =? "")%string = false) as -> by done.
  unfold Path.normalize.
  assert ((abs_path l +:+ String "/" name =? "")%string = false) as -> by done.
  rewrite isAbsolute_abs_path. cbn [negb]. change Path.sep with "/"%char.
  rewrite split_app_sep, (split_no_slash name) by by apply valid_name_no_slash.
  rewrite normalizeSegments_valid.
  2: { intros s [Hs|Hs]%elem_of_app; [by eapply split_abs_path_elems|].
       right. by apply list_elem_of_singleton in Hs as ->. }
  rewrite filter_app, (filter_cons_True _ name) by by apply nonempty_valid.
  rewrite filter_nil.
  change (filter (λ s, Path.nonempty s = true) (Js.split "/" (abs_path l)))
    with (Path.segments (abs_path l)).
  rewrite segments_abs_path by done. simpl rev. cbn [app].
  rewrite join_snoc_nonempty by done.
  by rewrite app_slash_assoc, endsWithSlash_name.
Qed.

(** ** What the collector admits *)

Lemma includes_spec a x : includes a x = true ↔ x ∈ a.
Proof.
  unfold includes. rewrite existsb_exists. split.
  - intros (y & Hy & Heq). apply String.eqb_eq in Heq as ->. by apply list_elem_of_In.
  - intros Hx. exists x. split; [by apply list_elem_of_In | apply String.eqb_refl].
Qed.

Lemma ignoredSegs_true segs :
  ignoredSegs segs = true ↔ ∃ seg, seg ∈ segs ∧ seg ∈ ignorePatterns.
Proof.
  unfold ignoredSegs. rewrite existsb_exists. split.
  - intros (p & Hp & Hin). apply includes_spec in Hin. exists p.
    split; [done | by apply list_elem_of_In].
  - intros (seg & Hs & Hp). exists seg. split; [by apply list_elem_of_In|].
    by apply includes_spec.
Qed.

Lemma ignoredSegs_false segs :
  ignoredSegs segs = false ↔ ∀ seg, seg ∈ segs → seg ∉ ignorePatterns.
Proof.
  rewrite <- not_true_iff_false, ignoredSegs_true. split.
  - intros H seg Hs Hp. apply H. eauto.
  - intros H (seg & Hs & Hp). by apply (H seg).
Qed.

Lemma ignoredSegs_mono segs more :
  ignoredSegs segs = true → ignoredSegs (segs ++ more) = true.
Proof.
  rewrite !ignoredSegs_true. intros (seg & Hs & Hp). exists seg.
  split; [|done]. apply elem_of_app. by left.
Qed.

Lemma shouldIgnore_join segs :
  segs ≠ [] → forallb valid_name segs = true →
  shouldIgnore (Js.join "/" segs) = ignoredSegs segs.
Proof.
  intros Hne Hv. unfold shouldIgnore, ignoredSegs. change Path.sep with "/"%char.
  rewrite split_join; [done | done | by apply valid_names_no_slash].
Qed.

Lemma file_at_file_in entries dirs name text :
  file_at entries dirs name text ↔ ∃ e, e ∈ entries ∧ file_in e dirs name text.
Proof.
  split.
  - intros H. destruct H as [entries name text Hin|entries d sub dirs name text Hin Hsub].
    + exists (File name (Some text)). by split.
    + exists (Dir d (Some sub)). split; [done|]. simpl. eauto.
  - intros (e & He & Hf). destruct e as [n [t|]|d [sub|]|n]; simpl in Hf; try done.
    + destruct Hf as (-> & -> & ->). by constructor.
    + destruct Hf as (dirs' & -> & Hsub). by econstructor.
Qed.

Lemma file_at_valid entries dirs name text :
  forallb valid_entry entries = true → file_at entries dirs name text →
  forallb valid_name (dirs ++ [name]) = true.
Proof.
  intros Hv H. induction H as [entries name text Hin|entries d sub dirs name text Hin Hsub IH].
  - rewrite forallb_forall in Hv. apply list_elem_of_In, Hv in Hin. simpl in *.
    by rewrite Hin.
  - rewrite forallb_forall in Hv. apply list_elem_of_In, Hv in Hin. simpl in Hin.
    apply andb_true_iff in Hin as [Hd Hs]. simpl. by rewrite Hd, IH.
Qed.

Section Collector.
Variable cwd : string.
(** The segments of the workspace root. *)
Variable rs : list string.
Hypothesis rs_valid : forallb valid_name rs = true.

Lemma entry_paths ds name :
  forallb valid_name ds = true → valid_name name = true →
  Path.join [abs_path (rs ++ ds); name] = abs_path (rs ++ ds ++ [name])
  ∧ shouldIgnore (Path.relative cwd (abs_path rs) (abs_path (rs ++ ds ++ [name])))
    = ignoredSegs (ds ++ [name])
  ∧ Path.relative cwd (abs_path rs) (abs_path (rs ++ ds ++ [name]))
    = Js.join "/" (ds ++ [name]).
Proof.
  intros Hds Hn.
  assert (forallb valid_name (ds ++ [name]) = true) as Hdn.
  { apply forallb_valid_app. split; [done|]. simpl. by rewrite Hn. }
  split; [|split].
  - rewrite join_below; [by rewrite <- app_assoc | by apply forallb_valid_app | done].
  - rewrite relative_below; [|done|done|by destruct ds].
    apply shouldIgnore_join; [by destruct ds | done].
  - apply relative_below; [done | done | by destruct ds].
Qed.

Lemma entries_add entries :
  Forall (entry_adds cwd rs) entries →
  forallb valid_entry entries = true →
  ∀ ds files files',
    forallb valid_name ds = true →
    scanEntries cwd (abs_path rs) (abs_path (rs ++ ds)) entries files = Returned files' →
    ∃ new, files' = files ++ new
           ∧ ∀ cf, cf ∈ new ↔
               ∃ dirs name text, file_at entries dirs name text
                                 ∧ admitted (ds ++ dirs) name
                                 ∧ cf = fileRecord rs (ds ++ dirs) name text.
Proof.
  induction 1 as [|e entries He _ IH]; intros Hv ds files files' Hds Hrun.
  - injection Hrun as <-. exists []. split; [by rewrite app_nil_r|].
    intros cf. split; [by intros ?%elem_of_nil|].
    intros (dirs & name & text & Hat & _). apply file_at_file_in in Hat as (e & He & _).
    by apply elem_of_nil in He.
  - simpl in Hv. apply andb_true_iff in Hv as [Hve Hves]. cbn [scanEntries] in Hrun.
    destruct (scanEntry _ _ _ e files) as [files1|] eqn:Hrun1; [|done].
    destruct (He Hve ds files files1 Hds Hrun1) as (new1 & -> & Hnew1).
    destruct (IH Hves ds _ files' Hds Hrun) as (new2 & -> & Hnew2).
    exists (new1 ++ new2). split; [by rewrite app_assoc|].
    intros cf. rewrite elem_of_app, Hnew1, Hnew2. split.
    + intros [(dirs & name & text & Hin & H)|(dirs & name & text & Hat & H)];
        exists dirs, name, text; (split; [|done]).
      * apply file_at_file_in. exists e. split; [by left | done].
      * apply file_at_file_in in Hat as (e' & He' & Hin').
        apply file_at_file_in. exists e'. split; [by right | done].
    + intros (dirs & name & text & Hat & H).
      apply file_at_file_in in Hat as (e' & [->|He']%elem_of_cons & Hin').
      * left. eauto.
      * right. exists dirs, name, text. split; [|done].
        apply file_at_file_in. eauto.
Qed.

Lemma every_entry_adds e : entry_adds cwd rs e.
Proof.
  induction e as [name text|name|name entries IH|name] using Entry_tree_ind;
    intros Hv ds files files' Hds Hrun.
  - simpl in Hv. destruct (entry_paths ds name Hds Hv) as (Hj & Hi & Hr).
    cbn [scanEntry entry_name] in Hrun. rewrite Hj, Hi, Hr in Hrun.
    destruct (ignoredSegs (ds ++ [name])) eqn:Hig.
    { injection Hrun as <-. exists []. split; [by rewrite app_nil_r|].
      intros cf. split; [by intros ?%elem_of_nil|].
      intros (dirs & n & t & Hin & [Hadm _] & _). destruct text as [text|]; [|done].
      destruct Hin as (-> & -> & ->). rewrite app_nil_r in Hadm. congruence. }
    destruct (includes supportedExtensions (Path.extname name)) eqn:Hext.
    + destruct text as [text|]; injection Hrun as <-.
      * exists [fileRecord rs ds name text]. split; [done|].
        intros cf. rewrite list_elem_of_singleton. split.
        -- intros ->. exists [], name, text. rewrite app_nil_r. done.
        -- intros (dirs & n & t & (-> & -> & ->) & _ & ->). by rewrite app_nil_r.
      * exists []. split; [by rewrite app_nil_r|].
        intros cf. split; [by intros ?%elem_of_nil|]. by intros (? & ? & ? & [] & _).
    + injection Hrun as <-. exists []. split; [by rewrite app_nil_r|].
      intros cf. split; [by intros ?%elem_of_nil|].
      intros (dirs & n & t & Hin & [_ Hadm] & _). destruct text as [text|]; [|done].
      destruct Hin as (-> & -> & ->). congruence.
  - simpl in Hv. rewrite andb_true_r in Hv.
    destruct (entry_paths ds name Hds Hv) as (Hj & Hi & Hr).
    cbn [scanEntry entry_name] in Hrun. rewrite Hj, Hi in Hrun.
    destruct (ignoredSegs (ds ++ [name])); [|done].
    injection Hrun as <-. exists []. split; [by rewrite app_nil_r|].
    intros cf. split; [by intros ?%elem_of_nil|]. by intros (? & ? & ? & [] & _).
  - simpl in Hv. apply andb_true_iff in Hv as [Hv Hsub].
    destruct (entry_paths ds name Hds Hv) as (Hj & Hi & Hr).
    rewrite scanEntry_dir, Hj, Hi in Hrun.
    destruct (ignoredSegs (ds ++ [name])) eqn:Hig.
    { injection Hrun as <-. exists []. split; [by rewrite app_nil_r|].
      intros cf. split; [by intros ?%elem_of_nil|].
      intros (dirs & n & t & (dirs' & -> & _) & [Hadm _] & _).
      apply (ignoredSegs_mono _ (dirs' ++ [n])) in Hig.
      rewrite <- !app_assoc in Hig, Hadm. simpl in *. congruence. }
    destruct (entries_add entries IH Hsub (ds ++ [name]) files files') as (new & -> & Hnew).
    { apply forallb_valid_app. split; [done|]. simpl. by rewrite Hv. }
    { done. }
    exists new. split; [done|]. intros cf. rewrite Hnew.
    assert (∀ dirs', (ds ++ [name]) ++ dirs' = ds ++ name :: dirs') as Hassoc
      by (intros dirs'; by rewrite <- app_assoc).
    split.
    + intros (dirs' & n & t & Hat & Hadm & ->). exists (name :: dirs'), n, t.
      split; [simpl; eauto|]. by rewrite <- Hassoc.
    + intros (dirs & n & t & (dirs' & -> & Hat) & Hadm & ->). exists dirs', n, t.
      split; [done|]. by rewrite Hassoc.
  - simpl in Hv. destruct (entry_paths ds name Hds Hv) as (Hj & Hi & Hr).
    cbn [scanEntry entry_name] in Hrun. rewrite Hj, Hi in Hrun.
    assert (files' = files) as -> by (destruct (ignoredSegs _); by injection Hrun).
    exists []. split; [by rewrite app_nil_r|].
    intros cf. split; [by intros ?%elem_of_nil|]. by intros (? & ? & ? & [] & _).
Qed.

(** The files that a scan returns are the admitted files of the tree. *)
Lemma scanWorkspace_files entries files :
  forallb valid_entry entries = true →
  scanWorkspace cwd (abs_path rs) (Some entries) = Returned files →
  ∀ cf, cf ∈ files ↔
    ∃ dirs name text, file_at entries dirs name text
                      ∧ admitted dirs name ∧ cf = fileRecord rs dirs name text.
Proof.
  intros Hv Hrun. unfold scanWorkspace, scanDirectory in Hrun.
  destruct (entries_add entries) with (ds := @nil string) (files := @nil CodeFile)
    (files' := files) as (new & -> & Hnew); [|done|done| |done].
  - apply Forall_forall. intros e _. apply every_entry_adds.
  - by rewrite app_nil_r.
Qed.

End Collector.

(** C7. For a regular, readable file of the tree, found through the
    directories [dirs] under the name [name]: the collector returns a
    record with its relative path exactly when the extension of [name] is
    a supported one and no segment of the relative path is equal to an
    ignored name; the record then carries the text of the file. Segments
    are compared as whole strings, so a name that only contains an ignored
    name does not exclude the file. *)
Theorem C7_collector_admits (cwd : string) (rs : list string) (entries : list Entry)
    (files : list CodeFile) (dirs : list string) (name text : string) :
  forallb valid_name rs = true →
  forallb valid_entry entries = true →
  scanWorkspace cwd (abs_path rs) (Some entries) = Returned files →
  file_at entries dirs name text →
  ((∃ cf, cf ∈ files ∧ cf.(relativePath) = Js.join "/" (dirs ++ [name]))
   ↔ includes supportedExtensions (Path.extname name) = true
     ∧ ∀ seg, seg ∈ dirs ++ [name] → seg ∉ ignorePatterns)
  ∧ (includes supportedExtensions (Path.extname name) = true →
     (∀ seg, seg ∈ dirs ++ [name] → seg ∉ ignorePatterns) →
     ∃ cf, cf ∈ files
           ∧ cf.(relativePath) = Js.join "/" (dirs ++ [name])
           ∧ cf.(path) = abs_path (rs ++ dirs ++ [name])
           ∧ cf.(content) = text).
Proof.
  intros Hrs Hv Hrun Hat.
  pose proof (scanWorkspace_files cwd rs Hrs entries files Hv Hrun) as Hfiles.
  assert (includes supportedExtensions (Path.extname name) = true →
          (∀ seg, seg ∈ dirs ++ [name] → seg ∉ ignorePatterns) →
          fileRecord rs dirs name text ∈ files) as Hin.
  { intros Hext Hseg. apply Hfiles. exists dirs, name, text.
    split; [done|]. split; [|done]. split; [by apply ignoredSegs_false | done]. }
  split; [split|].
  - intros (cf & Hcf & Hrel).
    apply Hfiles in Hcf as (dirs' & name' & text' & Hat' & [Hig Hext] & ->).
    simpl in Hrel.
    assert (dirs' ++ [name'] = dirs ++ [name]) as Heq.
    { rewrite <- (split_join (dirs' ++ [name'])), <- (split_join (dirs ++ [name])).
      - by rewrite Hrel.
      - by destruct dirs.
      - by eapply valid_names_no_slash, file_at_valid.
      - by destruct dirs'.
      - by eapply valid_names_no_slash, file_at_valid. }
    apply app_inj_tail in Heq as [-> ->].
    split; [done | by apply ignoredSegs_false].
  - intros [Hext Hseg]. exists (fileRecord rs dirs name text). split; [by apply Hin | done].
  - intros Hext Hseg. exists (fileRecord rs dirs name text). split; [by apply Hin | done].
Qed.

(** ** The theorems at the example workspaces *)

Lemma C10_witness :
  let g := assemble (extractorOf cycle3World) (scannedFiles cycle3World) in
  cycle3Edge ∈ g.(edges)
  ∧ (∃ n, n ∈ g.(nodes) ∧ n.(n_id) = "a.ts")
  ∧ (∃ n, n ∈ g.(nodes) ∧ n.(n_id) = "c.ts").
Proof.
  intros g.
  assert (cycle3Edge ∈ g.(edges)) as He by (vm_compute; apply list_elem_of_here).
  split; [exact He|].
  exact (C10_edge_endpoints_are_nodes (extractorOf cycle3World) (scannedFiles cycle3World)
           cycle3Edge He).
Defined.

Lemma counts_match_edges_witness :
  let g := assemble (extractorOf chordWorld) (scannedFiles chordWorld) in
  (∃ n, g.(nodes) !! 0 = Some n
        ∧ n.(n_dependencyCount) = Some (List.length (edges_out_of g.(nodes) g.(edges) 0))
        ∧ n.(n_dependentCount) = Some (List.length (edges_into g.(nodes) g.(edges) 0)))
  ∧ NoDup (map n_id g.(nodes))
  ∧ ∀ n, n ∈ g.(nodes) →
      n.(n_dependencyCount) = Some (List.length (edges_from g.(edges) n.(n_id)))
      ∧ n.(n_dependentCount) = Some (List.length (edges_to g.(edges) n.(n_id))).
Proof.
  intros g.
  assert (is_Some (g.(nodes) !! 0)) as [n Hn] by (vm_compute; eauto).
  assert (NoDup (map n_id g.(nodes))) as Hnd.
  { refine (bool_decide_unpack _ _). vm_compute. exact I. }
  split; [|split; [exact Hnd|]].
  - exists n. split; [exact Hn|].
    exact (proj1 (counts_match_edges (extractorOf chordWorld)
                    (scannedFiles chordWorld)) 0 n Hn).
  - exact (proj1 (proj2 (counts_match_edges (extractorOf chordWorld)
                           (scannedFiles chordWorld))) Hnd).
Defined.


Lemma C4_witness :
  let nodes0 := map makeNode (scannedFiles fallbackWorld) in
  findMatchingNode "node_modules/lib/utils.ts" nodes0 = Some "src/utils.ts"
  ∧ ∃ k n, nodes0 !! k = Some n ∧ n.(n_id) = "src/utils.ts"
         ∧ ((n.(n_path) = "node_modules/lib/utils.ts"
             ∧ ∀ j m, (j < k)%nat → nodes0 !! j = Some m →
                 m.(n_path) ≠ "node_modules/lib/utils.ts")
            ∨ ((∀ m, m ∈ nodes0 → m.(n_path) ≠ "node_modules/lib/utils.ts")
               ∧ Path.basename n.(n_path) = Path.basename "node_modules/lib/utils.ts"
               ∧ ∀ j m, (j < k)%nat → nodes0 !! j = Some m →
                   Path.basename m.(n_path) ≠ Path.basename "node_modules/lib/utils.ts")).
Proof.
  intros nodes0.
  assert (findMatchingNode "node_modules/lib/utils.ts" nodes0 = Some "src/utils.ts") as Hm
    by (vm_compute; reflexivity).
  split; [exact Hm|].
  exact (proj2 (proj2 (C4_unmatched_references_make_no_edge (extractorOf fallbackWorld)
                         (scannedFiles fallbackWorld)))
           "node_modules/lib/utils.ts" "src/utils.ts" Hm).
Defined.

Lemma C6_witness :
  module_root freshGraph "pkg/util"
  ∧ resolveImportPath goWorld.(env) "/ws" freshGraph "pkg/util" "/ws" [".go"] = None
  ∧ extractDependencies goWorld.(env) "/ws" freshGraph
      {| path := "/ws/main.go"; relativePath := "main.go"; content := goText;
         language := "go" |} = []
  ∧ resolveImportPath goRelWorld.(env) "/ws" freshGraph "./pkg/util" "/ws" [".go"]
    = Some "pkg/util.go".
Proof.
  assert (module_root freshGraph "pkg/util") as Hroot.
  { split; [reflexivity|]. split; [reflexivity|]. intros alias aliasPath Hin.
    by apply elem_of_nil in Hin. }
  destruct (C6_go_import_resolution goWorld.(env) "/ws" freshGraph) as (H1 & H2 & _).
  destruct (C6_go_import_resolution goRelWorld.(env) "/ws" freshGraph) as (_ & _ & H3).
  split; [exact Hroot|]. split; [exact (H1 "pkg/util" "/ws" [".go"] Hroot)|]. split.
  - apply H2; [reflexivity | |].
    + intros m p Hm Hp. vm_compute in Hm. apply list_elem_of_singleton in Hm as ->.
      injection Hp as <-. exact Hroot.
    + intros b blockContent m p Hb. vm_compute in Hb. by apply elem_of_nil in Hb.
  - rewrite (H3 "./pkg/util" "/ws"); [vm_compute; reflexivity | reflexivity..].
Defined.

Lemma C7_witness :
  forallb valid_name ["ws"] = true
  ∧ forallb valid_entry substringEntries = true
  ∧ scanWorkspace "/" (abs_path ["ws"]) (Some substringEntries) = Returned substringFiles
  ∧ file_at substringEntries ["rebuild"] "buildutils.ts" "export {}"
  ∧ file_at substringEntries ["build"] "gen.ts" "export {}"
  ∧ (∃ cf, cf ∈ substringFiles ∧ cf.(relativePath) = "rebuild/buildutils.ts")
  ∧ ¬ (∃ cf, cf ∈ substringFiles ∧ cf.(relativePath) = "build/gen.ts").
Proof.
  assert (scanWorkspace "/" (abs_path ["ws"]) (Some substringEntries)
          = Returned substringFiles) as Hscan by (vm_compute; reflexivity).
  assert (file_at substringEntries ["rebuild"] "buildutils.ts" "export {}") as Hat1.
  { eapply file_below; [left|]. apply file_here. left. }
  assert (file_at substringEntries ["build"] "gen.ts" "export {}") as Hat2.
  { eapply file_below; [right; left|]. apply file_here. left. }
  split; [reflexivity|]. split; [reflexivity|]. split; [exact Hscan|].
  split; [exact Hat1|]. split; [exact Hat2|]. split.
  - apply (proj1 (C7_collector_admits "/" ["ws"] substringEntries substringFiles
                    ["rebuild"] "buildutils.ts" "export {}"
                    eq_refl eq_refl Hscan Hat1)).
    split; [reflexivity|]. intros seg Hseg Hign.
    assert (ignoredSegs ["rebuild"; "buildutils.ts"] = false) as Hig by reflexivity.
    rewrite ignoredSegs_false in Hig. by apply (Hig seg).
  - intros Hcf.
    apply (proj1 (C7_collector_admits "/" ["ws"] substringEntries substringFiles
                    ["build"] "gen.ts" "export {}"
                    eq_refl eq_refl Hscan Hat2)) in Hcf as [_ Hseg].
    apply (Hseg "build"); [left|]. unfold ignorePatterns. do 3 right. left.
Defined.

Lemma C8_witness :
  scanWorkspace "/" "/ws" (pruneListing (Some unreadableFileEntries))
    = scanWorkspace "/" "/ws" (Some unreadableFileEntries)
  ∧ listableListing "/" "/ws" (Some unreadableFileEntries) = true
  ∧ (∃ g, showVisualization noPanel unreadableFileWorld
          = ({| currentPanel := Some g |}, Shown g)
          ∧ map n_id g.(nodes) = ["b.ts"])
  ∧ listableListing "/" "/ws" (Some unreadableDirEntries) = false
  ∧ showVisualization noPanel unreadableDirWorld = (noPanel, Failed "/ws/src").
Proof.
  destruct (C8_read_failures noPanel unreadableFileWorld
              {| fsPath := "/ws"; folderListing := Some unreadableFileEntries |} []
              eq_refl) as (H1 & H2 & _).
  destruct (C8_read_failures noPanel unreadableDirWorld
              {| fsPath := "/ws"; folderListing := Some unreadableDirEntries |} []
              eq_refl) as (_ & _ & H3).
  split; [exact H1|]. split; [reflexivity|]. split.
  - destruct (H2 eq_refl) as (files & Hfiles & Hshow).
    eexists. split; [exact Hshow|].
    vm_compute in Hfiles. injection Hfiles as <-. vm_compute. reflexivity.
  - split; [reflexivity|].
    destruct (H3 eq_refl) as (dir & Hdir & Hshow).
    vm_compute in Hdir. injection Hdir as <-. exact Hshow.
Defined.

(** * Further properties *)

Import More.

(** ** The node list and the statistics *)

Lemma split_length c s : List.length (Js.split c s) = S (occurrences c s).
Proof.
  induction s as [|d s IH]; [done|]. simpl.
  destruct (Ascii.eqb d c); simpl; [by rewrite IH|].
  destruct (Js.split c s) as [|h t]; [done|]. simpl in *. done.
Qed.

Lemma makeNode_createdFields f : createdFields (makeNode f) = fileFields f.
Proof.
  unfold createdFields, fileFields, makeNode, getNodeId, getLanguageGroup. simpl.
  by rewrite split_length.
Qed.

Lemma countEdge_createdFields ns e :
  map createdFields (countEdge ns e) = map createdFields ns.
Proof. unfold countEdge. by rewrite !update_first_map. Qed.

Lemma markCircleNodes_createdFields ns c :
  map createdFields (markCircleNodes ns c) = map createdFields ns.
Proof.
  unfold markCircleNodes.
  apply (fold_left_invariant (λ s, map createdFields s = map createdFields ns)); [done|].
  intros s x _ Hs. by rewrite update_first_map.
Qed.

Lemma assemble_createdFields (extract : CodeFile → list DependencyInfo) (files : list CodeFile) :
  map createdFields (assemble extract files).(nodes) = map fileFields files.
Proof.
  unfold assemble; simpl.
  transitivity (map createdFields (map makeNode files)).
  - transitivity (map createdFields
        (fold_left countEdge (buildEdges extract (map makeNode files) files)
           (map makeNode files))).
    + apply (fold_left_invariant (λ s, map createdFields s = map createdFields
        (fold_left countEdge (buildEdges extract (map makeNode files) files)
           (map makeNode files)))); [done|].
      intros s c _ Hs. by rewrite markCircleNodes_createdFields.
    + apply (fold_left_invariant
               (λ s, map createdFields s = map createdFields (map makeNode files))); [done|].
      intros s e _ Hs. by rewrite countEdge_createdFields.
  - rewrite map_map. apply map_ext. intros f. apply makeNode_createdFields.
Qed.

Lemma assemble_nodes_length (extract : CodeFile → list DependencyInfo) (files : list CodeFile) :
  List.length (assemble extract files).(nodes) = List.length files.
Proof.
  pose proof (f_equal (@List.length _) (assemble_createdFields extract files)) as H.
  by rewrite !length_map in H.
Qed.

Lemma assemble_nodes_languages (extract : CodeFile → list DependencyInfo)
    (files : list CodeFile) :
  map n_language (assemble extract files).(nodes) = map language files.
Proof.
  pose proof (f_equal (map (λ t : string * string * string * string * option nat
                                  * option nat * option nat, t.1.1.1.2))
                (assemble_createdFields extract files)) as H.
  by rewrite !map_map in H.
Qed.

(** X4. One node per file, in the order of the files: its identifier, label,
    path, language, size, line count and group are those of the file
    (the size is the length of the text in UTF-16 code units, the line
    count one more than the number of line feeds, the group that of the
    language or 0), and the counting of edges and the marking of cycles
    leave them as they are. *)
Theorem nodes_mirror_files (extract : CodeFile → list DependencyInfo) (files : list CodeFile) :
  map createdFields (assemble extract files).(nodes) = map fileFields files.
Proof. apply assemble_createdFields. Qed.

Lemma max_with_zero_upper (l : list nat) (x : nat) : x ∈ l → (x ≤ max_with_zero l)%nat.
Proof.
  induction l as [|y l IH]; [by intros ?%elem_of_nil|].
  intros [->|Hx]%elem_of_cons; simpl; [lia|]. specialize (IH Hx). lia.
Qed.

Lemma max_with_zero_attained (l : list nat) : l ≠ [] → max_with_zero l ∈ l.
Proof.
  induction l as [|y l IH]; [done|]. intros _. simpl.
  destruct l as [|z l].
  - simpl. rewrite Nat.max_0_r. by left.
  - destruct (Nat.max_spec y (max_with_zero (z :: l))) as [[_ ->]|[_ ->]].
    + right. by apply IH.
    + by left.
Qed.

Lemma max_le_sum (l : list nat) : (max_with_zero l ≤ sum_list l)%nat.
Proof. induction l as [|y l IH]; simpl; lia. Qed.

Lemma assemble_count_sums (extract : CodeFile → list DependencyInfo) (files : list CodeFile) :
  sum_list (map dependencyCountOf (assemble extract files).(nodes))
  = List.length (assemble extract files).(edges)
  ∧ sum_list (map dependentCountOf (assemble extract files).(nodes))
    = List.length (assemble extract files).(edges).
Proof.
  set (g := assemble extract files).
  set (nodes0 := map makeNode files).
  set (edges0 := buildEdges extract nodes0 files).
  assert (map counts g.(nodes) = map counts (fold_left countEdge edges0 nodes0)) as Hcounts.
  { unfold g, assemble; simpl. by rewrite fold_markCircleNodes_counts. }
  assert (map endpoints g.(edges) = map endpoints edges0) as Hends
    by apply assemble_edge_endpoints.
  destruct (map_counts_dependencyCountOf _ _ Hcounts) as [-> ->].
  rewrite (endpoints_length _ _ Hends).
  destruct (sum_fold_countEdge edges0 nodes0) as [-> ->].
  - intros e He. apply buildEdges_endpoints in He as [Hf Ht].
    split; [unfold nodes0; by rewrite makeNode_ids | done].
  - unfold nodes0. destruct (sum_makeNode files) as [-> ->]. done.
Qed.

(** X5. The statistics agree with the graph they come with: the totals are the
    lengths of the three lists, and there is one node per file; no node
    has more dependencies than [maxDependencies] or more dependents than
    [maxDependents]; each maximum is the count of some node, or 0 for the
    graph without nodes; and neither maximum exceeds the number of edges. *)
Theorem statistics_agree (extract : CodeFile → list DependencyInfo) (files : list CodeFile) :
  let g := assemble extract files in
  let s := g.(statistics) in
  List.length g.(nodes) = List.length files
  ∧ s.(totalNodes) = List.length g.(nodes)
  ∧ s.(totalEdges) = List.length g.(edges)
  ∧ s.(circularCount) = List.length g.(circularDependencies)
  ∧ Forall (λ n, (dependencyCountOf n ≤ s.(maxDependencies))%nat
                 ∧ (dependentCountOf n ≤ s.(maxDependents))%nat) g.(nodes)
  ∧ ((g.(nodes) = [] ∧ s.(maxDependencies) = 0 ∧ s.(maxDependents) = 0)
     ∨ ((∃ n, n ∈ g.(nodes) ∧ dependencyCountOf n = s.(maxDependencies))
        ∧ (∃ n, n ∈ g.(nodes) ∧ dependentCountOf n = s.(maxDependents))))
  ∧ (s.(maxDependencies) ≤ s.(totalEdges))%nat
  ∧ (s.(maxDependents) ≤ s.(totalEdges))%nat.
Proof.
  intros g s.
  assert (List.length g.(nodes) = List.length files) as Hlen.
    by apply assemble_nodes_length.
  assert (s.(maxDependencies) = max_with_zero (map dependencyCountOf g.(nodes))) as Hmax1.
  { unfold s, g, assemble; simpl. f_equal. apply map_ext. intros n. apply or_default_zero. }
  assert (s.(maxDependents) = max_with_zero (map dependentCountOf g.(nodes))) as Hmax2.
  { unfold s, g, assemble; simpl. f_equal. apply map_ext. intros n. apply or_default_zero. }
  split; [done|]. split; [done|]. split; [done|]. split; [done|]. split; [|split].
  - apply Forall_forall. intros n Hn. rewrite Hmax1, Hmax2.
    split; apply max_with_zero_upper; by apply elem_of_map_2.
  - destruct g.(nodes) as [|n ns] eqn:Hns.
    + left. by rewrite Hmax1, Hmax2.
    + right. rewrite Hmax1, Hmax2. split.
      * destruct (proj1 (elem_of_map dependencyCountOf (n :: ns) _)
                   (max_with_zero_attained (map dependencyCountOf (n :: ns)) ltac:(done)))
          as (m & Hm & Hin). by exists m.
      * destruct (proj1 (elem_of_map dependentCountOf (n :: ns) _)
                   (max_with_zero_attained (map dependentCountOf (n :: ns)) ltac:(done)))
          as (m & Hm & Hin). by exists m.
  - destruct (assemble_count_sums extract files) as [H1 H2]. fold g in H1, H2.
    change (totalEdges s) with (List.length g.(edges)).
    rewrite Hmax1, Hmax2, <- H1 at 1. rewrite <- H2. split; apply max_le_sum.
Qed.

Lemma dedup_first_elem (seen a : list string) (x : string) :
  x ∈ dedup_first seen a ↔ x ∈ a ∧ x ∉ seen.
Proof.
  revert seen. induction a as [|y a IH]; intros seen; simpl.
  - split; [by intros ?%elem_of_nil | by intros [?%elem_of_nil _]].
  - destruct (includes seen y) eqn:Hy.
    + apply includes_spec in Hy. rewrite IH. split.
      * intros [Ha Hs]. split; [by right | done].
      * intros [[->|Ha]%elem_of_cons Hs]; [done | done].
    + assert (y ∉ seen) as Hy' by (intros H%includes_spec; congruence).
      rewrite elem_of_cons, IH. split.
      * intros [->|[Ha Hs]]; [split; [by left | done]|].
        split; [by right|]. intros Hx. apply Hs. by right.
      * intros [[->|Ha]%elem_of_cons Hs]; [by left|].
        destruct (decide (x = y)) as [->|Hne]; [by left|]. right. split; [done|].
        by intros [?|?]%elem_of_cons.
Qed.

Lemma dedup_first_NoDup (seen a : list string) : NoDup (dedup_first seen a).
Proof.
  revert seen. induction a as [|y a IH]; intros seen; simpl; [constructor|].
  destruct (includes seen y); [apply IH|]. constructor; [|apply IH].
  intros [_ H]%dedup_first_elem. apply H. by left.
Qed.

Lemma dedup_first_sublist (seen a : list string) : sublist (dedup_first seen a) a.
Proof.
  revert seen. induction a as [|y a IH]; intros seen; simpl; [constructor|].
  destruct (includes seen y); [apply sublist_cons | apply sublist_skip]; apply IH.
Qed.

(** An element listed before another has an occurrence that comes before
    every occurrence of the other. *)
Lemma dedup_first_order (seen a : list string) (i j : nat) (x y : string) :
  dedup_first seen a !! i = Some x → dedup_first seen a !! j = Some y → (i < j)%nat →
  ∃ k, a !! k = Some x ∧ y ∉ take (S k) a.
Proof.
  revert seen i j. induction a as [|z a IH]; intros seen i j; simpl; [done|].
  destruct (includes seen z) eqn:Hz.
  - intros Hi Hj Hlt. destruct (IH seen i j Hi Hj Hlt) as (k & Hk & Hy).
    exists (S k). split; [done|]. cbn [take]. intros [->|Hin]%elem_of_cons; [|done].
    apply list_elem_of_lookup_2, dedup_first_elem in Hj as [_ Hns].
    apply Hns. by apply includes_spec.
  - intros Hi Hj Hlt. destruct j as [|j]; [lia|]. simpl in Hj.
    assert (y ≠ z) as Hyz.
    { intros ->. apply list_elem_of_lookup_2, dedup_first_elem in Hj as [_ Hns].
      apply Hns. by left. }
    destruct i as [|i]; simpl in Hi.
    + injection Hi as ->. exists 0. split; [done|]. cbn [take].
      intros [?|?%elem_of_nil]%elem_of_cons; done.
    + destruct (IH (z :: seen) i j Hi Hj) as (k & Hk & Hy); [lia|].
      exists (S k). split; [done|]. cbn [take]. by intros [?|?]%elem_of_cons.
Qed.

(** X6. The [languages] statistic lists every language that a file has, once,
    in the order of their first files: a language listed before another
    has a file that comes before every file of the other. *)
Theorem languages_statistic (extract : CodeFile → list DependencyInfo)
    (files : list CodeFile) :
  let ls := (assemble extract files).(statistics).(languages) in
  NoDup ls
  ∧ (∀ l, l ∈ ls ↔ l ∈ map language files)
  ∧ sublist ls (map language files)
  ∧ head ls = head (map language files)
  ∧ (∀ i j a b, ls !! i = Some a → ls !! j = Some b → (i < j)%nat →
       ∃ k, map language files !! k = Some a ∧ b ∉ take (S k) (map language files)).
Proof.
  intros ls.
  assert (ls = dedup_first [] (map language files)) as ->.
  { unfold ls. rewrite <- (assemble_nodes_languages extract files). done. }
  split; [apply dedup_first_NoDup|].
  split; [|split; [apply dedup_first_sublist|split]].
  - intros l. rewrite dedup_first_elem. split; [by intros [? _]|].
    intros H. split; [done|]. by intros ?%elem_of_nil.
  - by destruct (map language files).
  - intros i j a b. apply dedup_first_order.
Qed.

(** ** The edge list, whatever the keys *)

Lemma step_indexed ns st ev : indexed st → indexed (step ns st ev).
Proof.
  intros [HA HB]. unfold step, addDependency.
  destruct (findMatchingNode _ ns) as [t|]; [|done].
  destruct (Js.truthy t && negb (t =? sourceOf ev)%string); [|done].
  destruct (es_edgeMap st !! edgeKey (sourceOf ev) t) as [i|] eqn:Hmap.
  - split; cbn [es_edges es_edgeMap].
    + intros j e Hj. destruct (decide (i = j)) as [<-|Hne].
      * rewrite list_lookup_alter_eq in Hj.
        destruct (es_edges st !! i) as [e0|] eqn:Hi; [|done]. injection Hj as <-.
        exact (HA _ _ Hi).
      * rewrite list_lookup_alter_ne in Hj by done. by apply HA.
    + intros key j Hj. destruct (HB _ _ Hj) as (e & He & Hk).
      destruct (decide (i = j)) as [<-|Hne].
      * exists (bumpEdge e). by rewrite list_lookup_alter_eq, He.
      * exists e. by rewrite list_lookup_alter_ne.
  - split; cbn [es_edges es_edgeMap].
    + intros j e Hj. apply lookup_app_Some in Hj as [Hj|[Hlen Hj]].
      * rewrite lookup_insert_ne; [by apply HA|].
        intros Hk. pose proof (HA _ _ Hj) as Hkj. rewrite <- Hk, Hmap in Hkj. done.
      * apply list_lookup_singleton_Some in Hj as [Hj <-]. cbn [newEdge e_from e_to].
        rewrite lookup_insert_eq. f_equal. lia.
    + intros key j Hj. apply lookup_insert_Some in Hj as [[<- <-]|[Hne Hj]].
      * exists (newEdge ev.1 (sourceOf ev) t ev.2). split; [|done].
        rewrite lookup_app_r by done. by rewrite Nat.sub_diag.
      * destruct (HB _ _ Hj) as (e & He & Hk). exists e. split; [|done].
        by apply lookup_app_l_Some.
Qed.

Lemma indexed_empty : indexed emptyEdgeStore.
Proof.
  split; simpl.
  - intros i e H. by rewrite lookup_nil in H.
  - intros key i H. by rewrite lookup_empty in H.
Qed.

Lemma fold_step_indexed ns evs st : indexed st → indexed (fold_left (step ns) evs st).
Proof.
  intros Hst. apply (fold_left_invariant indexed); [done|].
  intros s ev _. apply step_indexed.
Qed.

Lemma buildEdges_indexed extract ns files :
  indexed (fold_left (addFile extract ns) files emptyEdgeStore).
Proof. rewrite buildEdges_events. apply fold_step_indexed, indexed_empty. Qed.

Lemma indexed_NoDup_keys st :
  indexed st → NoDup (map (λ e, edgeKey e.(e_from) e.(e_to)) st.(es_edges)).
Proof.
  intros [HA _]. apply NoDup_alt. intros i j key Hi Hj.
  rewrite lookup_map in Hi, Hj.
  destruct (es_edges st !! i) as [e|] eqn:Ei; [|done].
  destruct (es_edges st !! j) as [e'|] eqn:Ej; [|done].
  simpl in Hi, Hj. injection Hi as Hi. injection Hj as Hj.
  pose proof (HA _ _ Ei) as Ki. pose proof (HA _ _ Ej) as Kj.
  rewrite Hi in Ki. rewrite Hj in Kj. congruence.
Qed.

Lemma NoDup_map_compose {A B C} (f : A → B) (g : B → C) (l : list A) :
  NoDup (map (λ x, g (f x)) l) → NoDup (map f l).
Proof.
  intros H. rewrite <- (map_map f g) in H.
  change (NoDup (g <$> (f <$> l))) in H. by apply NoDup_fmap_1 in H.
Qed.

Lemma assemble_edge_keys (extract : CodeFile → list DependencyInfo) (files : list CodeFile) :
  NoDup (map (λ e, edgeKey e.(e_from) e.(e_to)) (assemble extract files).(edges)).
Proof.
  pose proof (assemble_edge_endpoints extract files) as Hends.
  pose proof (indexed_NoDup_keys _ (buildEdges_indexed extract (map makeNode files) files))
    as Hnd.
  fold (buildEdges extract (map makeNode files) files) in Hnd.
  rewrite <- (map_map endpoints (λ p, edgeKey p.1 p.2)) in Hnd.
  rewrite <- Hends, map_map in Hnd. exact Hnd.
Qed.

Lemma assemble_edge_pairs (extract : CodeFile → list DependencyInfo) (files : list CodeFile) :
  NoDup (map endpoints (assemble extract files).(edges)).
Proof.
  apply (NoDup_map_compose endpoints (λ p, edgeKey p.1 p.2)).
  apply assemble_edge_keys.
Qed.

(** X8. No two edges of a built graph have the same key [from->to]; so no two
    edges have the same source and the same target, and an ordered pair of
    identifiers has at most one edge. *)
Theorem at_most_one_edge_per_pair (extract : CodeFile → list DependencyInfo)
    (files : list CodeFile) :
  let es := (assemble extract files).(edges) in
  NoDup (map (λ e, edgeKey e.(e_from) e.(e_to)) es)
  ∧ NoDup (map endpoints es)
  ∧ ∀ a b, (List.length (edges_between es a b) ≤ 1)%nat.
Proof.
  intros es. split; [apply assemble_edge_keys|]. split; [apply assemble_edge_pairs|].
  intros a b. apply filter_at_most_one. intros i j x y Hi Hj [Hx1 Hx2] [Hy1 Hy2].
  pose proof (assemble_edge_pairs extract files) as Hnd. fold es in Hnd.
  apply (proj1 (NoDup_alt _) Hnd i j (a, b)); rewrite lookup_map.
  - rewrite Hi. unfold endpoints. simpl. by rewrite Hx1, Hx2.
  - rewrite Hj. unfold endpoints. simpl. by rewrite Hy1, Hy2.
Qed.

Lemma elem_of_events extract files ev :
  ev ∈ events extract files ↔ ev.1 ∈ files ∧ ev.2 ∈ extract ev.1.
Proof.
  unfold events. rewrite list_elem_of_In, in_flat_map. split.
  - intros (f & Hf & Hev). apply list_elem_of_In, elem_of_map in Hev as (d & -> & Hd).
    simpl. split; [by apply list_elem_of_In | done].
  - intros [Hf Hd]. exists ev.1. split; [by apply list_elem_of_In|].
    apply list_elem_of_In, elem_of_map. exists ev.2. split; [by destruct ev | done].
Qed.

Lemma step_made_from ns (evs : list (CodeFile * DependencyInfo)) st ev :
  ev ∈ evs →
  Forall (λ e, ∃ ev', ev' ∈ evs ∧ made_from ns e ev'.1 ev'.2) (es_edges st) →
  Forall (λ e, ∃ ev', ev' ∈ evs ∧ made_from ns e ev'.1 ev'.2) (es_edges (step ns st ev)).
Proof.
  intros Hev Hst. unfold step, addDependency.
  destruct (findMatchingNode _ ns) as [t|] eqn:Ht; [|done].
  destruct (Js.truthy t && negb (t =? sourceOf ev)%string); [|done].
  destruct (es_edgeMap st !! _) as [i|]; cbn [es_edges].
  - apply Forall_lookup. intros j e Hj. destruct (decide (i = j)) as [<-|Hne].
    + rewrite list_lookup_alter_eq in Hj.
      destruct (es_edges st !! i) as [e0|] eqn:Hi; [|done]. injection Hj as <-.
      exact (proj1 (Forall_lookup _ _) Hst _ _ Hi).
    + rewrite list_lookup_alter_ne in Hj by done.
      exact (proj1 (Forall_lookup _ _) Hst _ _ Hj).
  - apply Forall_app. split; [done|]. apply Forall_singleton.
    exists ev. split; [done|]. by repeat split.
Qed.

Lemma markCircleEdges_origin es c : map origin (markCircleEdges es c) = map origin es.
Proof.
  unfold markCircleEdges.
  apply (fold_left_invariant (λ s, map origin s = map origin es)); [done|].
  intros s [x y] _ Hs. by rewrite update_first_map.
Qed.

Lemma assemble_edge_origin extract files :
  map origin (assemble extract files).(edges)
  = map origin (buildEdges extract (map makeNode files) files).
Proof.
  unfold assemble; simpl.
  apply (fold_left_invariant
           (λ s, map origin s = map origin (buildEdges extract (map makeNode files) files)));
    [done|].
  intros s c _ Hs. by rewrite markCircleEdges_origin.
Qed.

(** X9. Edges are not invented: every edge of a built graph was made from a
    reference of a collected file, whose identifier is the source of the
    edge, that node matching sent to the target of the edge; the edge
    keeps the type of that reference and the title made for it. *)
Theorem every_edge_has_a_reference (extract : CodeFile → list DependencyInfo)
    (files : list CodeFile) :
  Forall (λ e, ∃ f d, f ∈ files ∧ d ∈ extract f ∧ made_from (map makeNode files) e f d)
    (assemble extract files).(edges).
Proof.
  set (ns := map makeNode files).
  assert (Forall (λ e, ∃ ev', ev' ∈ events extract files ∧ made_from ns e ev'.1 ev'.2)
            (buildEdges extract ns files)) as Hbuilt.
  { unfold buildEdges. rewrite buildEdges_events.
    apply (fold_left_invariant
             (λ st, Forall (λ e, ∃ ev', ev' ∈ events extract files
                                        ∧ made_from ns e ev'.1 ev'.2) (es_edges st)));
      [by constructor|].
    intros st ev Hev. by apply step_made_from. }
  apply Forall_forall. intros e He.
  apply (elem_of_map_2 origin) in He. rewrite assemble_edge_origin in He.
  apply elem_of_map in He as (e0 & Ho & He0).
  destruct (proj1 (Forall_forall _ _) Hbuilt e0 He0) as (ev & Hev & Hf & Ht & Hty & Hti).
  apply elem_of_events in Hev as [Hfile Hd].
  exists ev.1, ev.2. split; [done|]. split; [done|].
  unfold origin in Ho. injection Ho as H1 H2 H3 H4.
  unfold made_from. by rewrite H1, H2, H3, H4.
Qed.

Lemma sum_alter_countOf (f : GraphEdge → GraphEdge) i (l : list GraphEdge) e0 :
  l !! i = Some e0 →
  sum_list (map countOf (alter f i l)) + countOf e0
  = sum_list (map countOf l) + countOf (f e0).
Proof.
  revert i. induction l as [|x l IH]; intros [|i] Hi; try done; simpl in *.
  - injection Hi as ->. lia.
  - specialize (IH i Hi). change (list_alter f i l) with (alter f i l). lia.
Qed.

Lemma step_sum ns st ev :
  indexed st → Forall proper (es_edges st) →
  sum_list (map countOf (es_edges (step ns st ev)))
  = sum_list (map countOf (es_edges st)) + (if accepted ns ev then 1 else 0).
Proof.
  intros [_ HB] Hp. unfold step, addDependency, accepted, targetOf.
  destruct (findMatchingNode _ ns) as [t|]; [|lia].
  destruct (Js.truthy t && negb (t =? sourceOf ev)%string); [|lia].
  destruct (es_edgeMap st !! _) as [i|] eqn:Hmap; cbn [es_edges].
  - destruct (HB _ _ Hmap) as (e0 & Hi & _).
    pose proof (sum_alter_countOf bumpEdge i _ _ Hi) as Hsum.
    destruct (proj1 (Forall_lookup _ _) Hp _ _ Hi) as (_ & c & Hc & _).
    assert (countOf (bumpEdge e0) = countOf e0 + 1) as Hb.
    { unfold countOf, bumpEdge. cbn [e_count]. rewrite Hc. simpl. done. }
    lia.
  - rewrite map_app, sum_list_with_app. simpl. unfold id. lia.
Qed.

Lemma fold_step_sum ns evs st :
  indexed st → Forall proper (es_edges st) →
  sum_list (map countOf (es_edges (fold_left (step ns) evs st)))
  = sum_list (map countOf (es_edges st)) + List.length (List.filter (accepted ns) evs).
Proof.
  revert st. induction evs as [|ev evs IH]; intros st Hix Hp; simpl; [lia|].
  rewrite IH; [|by apply step_indexed | by apply step_proper].
  rewrite step_sum by done. destruct (accepted ns ev); simpl; lia.
Qed.

(** X10. No reference is lost or counted twice: the counts of the edges add up
    to the number of references that node matching sends to a node with a
    non-empty identifier other than that of their own file. *)
Theorem counts_add_up (extract : CodeFile → list DependencyInfo) (files : list CodeFile) :
  sum_list (map countOf (assemble extract files).(edges))
  = List.length (List.filter (accepted (map makeNode files)) (events extract files)).
Proof.
  pose proof (f_equal (map (λ t : string * string * option nat * nat, default 0 t.1.2))
                (assemble_edge_tally extract files)) as H.
  rewrite !map_map in H. unfold countOf.
  etransitivity; [exact (f_equal sum_list H)|].
  unfold buildEdges. rewrite buildEdges_events.
  rewrite (fold_step_sum _ _ _ indexed_empty); [done|]. by constructor.
Qed.

Lemma assemble_counts_by_id (extract : CodeFile → list DependencyInfo) (files : list CodeFile)
    (i : string) (n : GraphNode) :
  find_first (has_id i) (assemble extract files).(nodes) = Some n →
  n.(n_dependencyCount) = Some (List.length (edges_from (assemble extract files).(edges) i))
  ∧ n.(n_dependentCount) = Some (List.length (edges_to (assemble extract files).(edges) i)).
Proof.
  set (g := assemble extract files).
  set (nodes0 := map makeNode files).
  set (edges0 := buildEdges extract nodes0 files).
  intros Hn.
  assert (map endpoints g.(edges) = map endpoints edges0) as Hends
    by apply assemble_edge_endpoints.
  assert (counts <$> find_first (has_id i) g.(nodes)
          = counts <$> (addCounts edges0 <$> find_first (has_id i) nodes0)) as Hfind.
  { unfold g, assemble; simpl. fold nodes0. fold edges0.
    rewrite find_fold_markCircleNodes, find_fold_countEdge; [done|].
    apply Forall_forall. intros m Hm. apply elem_of_map in Hm as (f & -> & _).
    split; by eexists. }
  rewrite Hn in Hfind.
  destruct (find_first (has_id i) nodes0) as [n0|] eqn:Hn0; [|done].
  apply find_first_Some in Hn0 as [Hin0 Hid0].
  apply elem_of_map in Hin0 as (f & -> & _).
  unfold has_id in Hid0. apply String.eqb_eq in Hid0.
  simpl in Hfind. unfold counts in Hfind. injection Hfind as Hid Hdc Htc.
  rewrite Hdc, Htc. cbn [n_id makeNode] in *. rewrite Hid0.
  rewrite (edges_from_endpoints _ _ _ Hends), (edges_to_endpoints _ _ _ Hends).
  done.
Qed.

(** The counts of a node: those of its identifier when the node is the
    first with that identifier, and 0 otherwise. *)
Lemma assemble_counts_at (extract : CodeFile → list DependencyInfo) (files : list CodeFile)
    (i : nat) (n : GraphNode) :
  (assemble extract files).(nodes) !! i = Some n →
  (dependencyCountOf n ≤ List.length (edges_from (assemble extract files).(edges) n.(n_id)))%nat
  ∧ (dependentCountOf n ≤ List.length (edges_to (assemble extract files).(edges) n.(n_id)))%nat.
Proof.
  set (g := assemble extract files). intros Hi.
  assert (map n_id g.(nodes) = map n_id (map makeNode files)) as Hids
    by (unfold g; by rewrite assemble_node_ids, makeNode_ids).
  set (nodes0 := map makeNode files) in *.
  destruct (decide (find_index (has_id n.(n_id)) g.(nodes) = Some i)) as [Hfirst|Hsh].
  - destruct (find_index_Some _ _ _ Hfirst) as (m & Hm & Hfind & _).
    rewrite Hi in Hm. injection Hm as <-.
    destruct (assemble_counts_by_id _ _ _ _ Hfind) as [H1 H2].
    unfold dependencyCountOf, dependentCountOf. fold g in H1, H2. rewrite H1, H2. done.
  - assert (∃ n0, nodes0 !! i = Some n0 ∧ n_id n0 = n_id n) as (n0 & Hi0 & Hid0).
    { apply (f_equal (λ l, l !! i)) in Hids. rewrite !lookup_map, Hi in Hids.
      destruct (nodes0 !! i) as [n0|]; [|done]. exists n0. split; [done|].
      simpl in Hids. congruence. }
    assert (g.(nodes) !! i = Some n0) as Hsame.
    { apply assemble_shadowed; [done|]. rewrite Hid0.
      by rewrite <- (find_index_ids _ _ _ Hids). }
    rewrite Hi in Hsame. injection Hsame as ->.
    apply list_elem_of_lookup_2, elem_of_map in Hi0 as (f & -> & _).
    unfold dependencyCountOf, dependentCountOf. simpl. lia.
Qed.

Lemma NoDup_filter_map {A B} (f : A → B) (P : A → Prop) `{∀ x, Decision (P x)} (l : list A) :
  NoDup (map f l) → NoDup (map f (filter P l)).
Proof.
  induction l as [|x l IH]; [done|]. simpl. intros [Hx Hl]%NoDup_cons.
  rewrite filter_cons. destruct (decide (P x)); [|by apply IH].
  simpl. apply NoDup_cons. split; [|by apply IH].
  intros Hin. apply Hx. apply elem_of_map in Hin as (y & Hy & Hyl).
  apply list_elem_of_filter in Hyl as [_ Hyl]. rewrite Hy. by apply elem_of_map_2.
Qed.

Lemma other_ends_bound (ids : list string) (a : string) (others : list string) :
  a ∈ ids → NoDup others → a ∉ others → (∀ x, x ∈ others → x ∈ ids) →
  (List.length others < List.length ids)%nat.
Proof.
  intros Ha Hnd Hna Hsub.
  assert (a :: others ⊆+ ids) as Hle.
  { apply NoDup_submseteq; [by apply NoDup_cons|].
    intros x [->|Hx]%elem_of_cons; [done | by apply Hsub]. }
  apply submseteq_length in Hle. simpl in Hle. lia.
Qed.

Lemma assemble_edge_ends (extract : CodeFile → list DependencyInfo) (files : list CodeFile)
    (e : GraphEdge) :
  e ∈ (assemble extract files).(edges) →
  e.(e_from) ∈ map n_id (assemble extract files).(nodes)
  ∧ e.(e_to) ∈ map n_id (assemble extract files).(nodes).
Proof.
  intros He. apply (elem_of_map_2 endpoints) in He.
  rewrite assemble_edge_endpoints in He. apply elem_of_map in He as (e0 & He & He0).
  apply buildEdges_endpoints in He0 as [Hf Ht].
  unfold endpoints in He. injection He as -> ->.
  rewrite assemble_node_ids, <- makeNode_ids. split; [|done].
  by rewrite makeNode_ids.
Qed.

Lemma assemble_edges_proper (extract : CodeFile → list DependencyInfo) (files : list CodeFile) :
  Forall proper (assemble extract files).(edges).
Proof.
  apply Forall_forall. intros e He.
  apply (elem_of_map_2 tally) in He. rewrite assemble_edge_tally in He.
  apply elem_of_map in He as (e0 & Htally & He0).
  assert (proper e0) as (Hne & c & Hc & Hv).
  { revert e0 He0 Htally. unfold buildEdges. rewrite buildEdges_events. intros e0 He0 _.
    revert e0 He0. apply Forall_forall.
    apply (fold_left_invariant (λ st, Forall proper (es_edges st))); [by constructor|].
    intros st ev _. apply step_proper. }
  unfold tally in Htally. injection Htally as Hf Ht Hcount Hvalue.
  split; [congruence|]. exists c. split; congruence.
Qed.

Lemma edges_proper_at (extract : CodeFile → list DependencyInfo) (files : list CodeFile)
    (e : GraphEdge) :
  e ∈ (assemble extract files).(edges) → proper e.
Proof. apply Forall_forall, assemble_edges_proper. Qed.

(** X11. A node depends on fewer nodes than the graph has, and fewer nodes than
    the graph has depend on it: both counts stay below the number of
    nodes. *)
Theorem counts_below_node_count (extract : CodeFile → list DependencyInfo)
    (files : list CodeFile) :
  let g := assemble extract files in
  Forall (λ n, (dependencyCountOf n < g.(statistics).(totalNodes))%nat
               ∧ (dependentCountOf n < g.(statistics).(totalNodes))%nat) g.(nodes).
Proof.
  intros g. apply Forall_lookup. intros i n Hi.
  change (totalNodes (statistics g)) with (List.length g.(nodes)).
  rewrite <- (length_map n_id g.(nodes)).
  destruct (assemble_counts_at extract files i n Hi) as [H1 H2]. fold g in H1, H2.
  pose proof (assemble_edge_pairs extract files) as Hnd. fold g in Hnd.
  assert (n.(n_id) ∈ map n_id g.(nodes)) as Hid
    by (apply elem_of_map_2; by eapply list_elem_of_lookup_2).
  assert (∀ e, e ∈ g.(edges) → proper e) as Hproper
    by (apply Forall_forall, assemble_edges_proper).
  assert (∀ e, e ∈ g.(edges) → e.(e_from) ∈ map n_id g.(nodes) ∧ e.(e_to) ∈ map n_id g.(nodes))
    as Hends by apply assemble_edge_ends.
  split.
  - eapply Nat.le_lt_trans; [exact H1|].
    rewrite <- (length_map e_to). apply (other_ends_bound _ n.(n_id)); [done| | |].
    + apply (NoDup_map_compose e_to (λ t, (n.(n_id), t))).
      assert (map (λ x, (n_id n, e_to x)) (edges_from (edges g) (n_id n))
              = map endpoints (edges_from (edges g) (n_id n))) as ->.
      { apply map_ext_in. intros e He%list_elem_of_In.
        apply list_elem_of_filter in He as [He _]. unfold endpoints. by rewrite He. }
      by apply NoDup_filter_map.
    + intros Hin. apply elem_of_map in Hin as (e & He & Hin).
      apply list_elem_of_filter in Hin as [Hf Hin].
      destruct (Hproper e Hin) as [Hne _]. congruence.
    + intros x Hx. apply elem_of_map in Hx as (e & -> & Hin).
      apply list_elem_of_filter in Hin as [_ Hin]. by apply Hends.
  - eapply Nat.le_lt_trans; [exact H2|].
    rewrite <- (length_map e_from). apply (other_ends_bound _ n.(n_id)); [done| | |].
    + apply (NoDup_map_compose e_from (λ s, (s, n.(n_id)))).
      assert (map (λ x, (e_from x, n_id n)) (edges_to (edges g) (n_id n))
              = map endpoints (edges_to (edges g) (n_id n))) as ->.
      { apply map_ext_in. intros e He%list_elem_of_In.
        apply list_elem_of_filter in He as [He _]. unfold endpoints. by rewrite He. }
      by apply NoDup_filter_map.
    + intros Hin. apply elem_of_map in Hin as (e & He & Hin).
      apply list_elem_of_filter in Hin as [Hf Hin].
      destruct (Hproper e Hin) as [Hne _]. congruence.
    + intros x Hx. apply elem_of_map in Hx as (e & -> & Hin).
      apply list_elem_of_filter in Hin as [_ Hin]. by apply Hends.
Qed.

(** ** Cycle records *)

Lemma cycle_records_iff (extract : CodeFile → list DependencyInfo) (files : list CodeFile) :
  (assemble extract files).(circularDependencies) = []
  ↔ ∀ x, ¬ on_cycle (assemble extract files).(edges) x.
Proof.
  destruct (assemble_cycles extract files) as (st & Hrun & Hcs & Hns).
  set (nodes0 := map makeNode files) in *.
  set (edges0 := buildEdges extract nodes0 files) in *.
  set (nodes1 := fold_left countEdge edges0 nodes0) in *.
  assert (map endpoints (assemble extract files).(edges) = map endpoints edges0) as Hends
    by apply assemble_edge_endpoints.
  rewrite Hcs. split.
  - intros Hnil x Hx. apply (on_cycle_endpoints _ edges0) in Hx; [|done].
    revert Hnil. apply (runDfs_complete edges0 nodes1 st x Hrun); [|done].
    intros e He. apply buildEdges_endpoints in He as [Hf _].
    unfold nodes1, nodes0. by rewrite fold_countEdge_ids, makeNode_ids.
  - intros Hac. destruct (circular st) as [|c cs] eqn:Hcirc; [done|]. exfalso.
    destruct c as [|y c].
    + apply (runDfs_records_nonempty nodes1 edges0 st Hrun []); [|done].
      rewrite Hcirc. by left.
    + apply (Hac y). apply (on_cycle_endpoints edges0); [done|].
      apply (runDfs_sound edges0 nodes1 st Hrun (y :: c)); [|by left].
      rewrite Hcirc. by left.
Qed.

(** X14. Cycle detection is exact as a test: the list of cycle records is empty
    exactly when no identifier lies on a directed cycle of the edges (and
    [circularCount] is 0 exactly then); a record is never empty, and
    every identifier in a record lies on a directed cycle. *)
Theorem no_records_iff_acyclic (extract : CodeFile → list DependencyInfo)
    (files : list CodeFile) :
  let g := assemble extract files in
  (g.(circularDependencies) = [] ↔ ∀ x, ¬ on_cycle g.(edges) x)
  ∧ (g.(statistics).(circularCount) = 0 ↔ ∀ x, ¬ on_cycle g.(edges) x)
  ∧ Forall (λ c, c ≠ [] ∧ Forall (on_cycle g.(edges)) c) g.(circularDependencies).
Proof.
  intros g. pose proof (cycle_records_iff extract files) as Hiff. fold g in Hiff.
  split; [exact Hiff|]. split.
  - rewrite <- Hiff. change (circularCount (statistics g))
      with (List.length g.(circularDependencies)).
    by destruct g.(circularDependencies).
  - destruct (assemble_cycles extract files) as (st & Hrun & Hcs & Hns). fold g in Hcs.
    apply Forall_forall. intros c Hc. rewrite Hcs in Hc. split.
    + by apply (runDfs_records_nonempty _ _ st Hrun).
    + apply Forall_forall. intros x Hx.
      apply (on_cycle_endpoints (buildEdges extract (map makeNode files) files));
        [symmetry; apply assemble_edge_endpoints|].
      by apply (runDfs_sound _ _ st Hrun c).
Qed.

Lemma ascii_compare_trans_lt (a b c : ascii) :
  Ascii.compare a b = Lt → Ascii.compare b c = Lt → Ascii.compare a c = Lt.
Proof. unfold Ascii.compare. rewrite !N.compare_lt_iff. lia. Qed.

Lemma string_compare_trans_lt (s1 s2 s3 : string) :
  String.compare s1 s2 = Lt → String.compare s2 s3 = Lt → String.compare s1 s3 = Lt.
Proof.
  revert s2 s3. induction s1 as [|a s1 IH]; intros [|b s2] [|c s3]; simpl; try done.
  destruct (Ascii.compare a b) eqn:Hab; [|
    destruct (Ascii.compare b c) eqn:Hbc; [| |done] |done].
  - apply Ascii.compare_eq_iff in Hab as ->.
    destruct (Ascii.compare b c); [apply IH | done | done].
  - apply Ascii.compare_eq_iff in Hbc as ->. by rewrite Hab.
  - by rewrite (ascii_compare_trans_lt _ _ _ Hab Hbc).
Qed.

Lemma str_le_trans : Transitive Js.str_le.
Proof.
  intros a b c. unfold Js.str_le, String.leb.
  destruct (String.compare a b) eqn:Hab; [| |done].
  - apply String.compare_eq_iff in Hab as ->. done.
  - destruct (String.compare b c) eqn:Hbc; [| |done].
    + apply String.compare_eq_iff in Hbc as ->. by rewrite Hab.
    + by rewrite (string_compare_trans_lt _ _ _ Hab Hbc).
Qed.

Lemma str_le_antisym : AntiSymm (=) Js.str_le.
Proof. intros a b. apply String.leb_antisym. Qed.

Lemma sorted_perm_eq (l1 l2 : list string) :
  Sorted Js.str_le l1 → Sorted Js.str_le l2 → l1 ≡ₚ l2 → l1 = l2.
Proof.
  intros H1 H2 Hp.
  exact (@Sorted_unique _ Js.str_le str_le_trans str_le_antisym l1 l2 H1 H2 Hp).
Qed.

Lemma sort_of_sorted (l : list string) : Sorted Js.str_le l → Js.sort l = l.
Proof.
  intros Hl. apply sorted_perm_eq; [apply sort_sorted | done |].
  unfold Js.sort. apply merge_sort_Permutation.
Qed.

Lemma sort_perm (l l' : list string) : l ≡ₚ l' → Js.sort l = Js.sort l'.
Proof.
  intros Hp. apply sorted_perm_eq; [apply sort_sorted | apply sort_sorted |].
  unfold Js.sort. by rewrite !merge_sort_Permutation.
Qed.

Lemma someSorted_of_sorted key cs :
  Forall (Sorted Js.str_le) cs →
  (someSorted key cs).2 = cs
  ∧ ((someSorted key cs).1 = false → key ∉ map (Js.join "->") cs).
Proof.
  induction 1 as [|c cs Hc Hcs [IH1 IH2]]; simpl.
  - split; [done|]. by intros _ ?%elem_of_nil.
  - rewrite (sort_of_sorted c Hc).
    destruct (String.eqb_spec (Js.join "->" c) key) as [Hk|Hk]; simpl; [done|].
    destruct (someSorted key cs) as [found rest]; simpl in *. subst rest.
    split; [done|]. intros Hf [?|Hin]%elem_of_cons; [congruence|]. by apply IH2.
Qed.

(** The records are sorted and their joined texts are pairwise distinct. *)
Lemma dfs_records_distinct adjList depth nodeId path st st' :
  dfs adjList depth nodeId path st = Some st' →
  Forall (Sorted Js.str_le) st.(circular) ∧ NoDup (map (Js.join "->") st.(circular)) →
  Forall (Sorted Js.str_le) st'.(circular) ∧ NoDup (map (Js.join "->") st'.(circular)).
Proof.
  revert nodeId path st st'.
  induction depth as [|depth IH]; intros nodeId path st st' Hrun [Hs Hnd]; [done|].
  simpl in Hrun.
  destruct (bool_decide (nodeId ∈ recStack st)).
  { destruct (indexOf path nodeId) as [k|]; [|by injection Hrun as <-].
    destruct (someSorted_of_sorted
                (Js.join "->" (Js.sort (drop k path ++ [nodeId]))) (circular st) Hs)
      as [Hsame Hfresh].
    destruct (someSorted _ (circular st)) as [found circular'].
    injection Hrun as <-. simpl in *. subst circular'.
    destruct found; [done|]. split.
    - apply Forall_app. split; [done|]. apply Forall_singleton, sort_sorted.
    - rewrite map_app. apply NoDup_app. split; [done|]. split.
      + intros key Hin [->|H]%elem_of_cons; [by apply Hfresh | by apply elem_of_nil in H].
      + apply NoDup_singleton. }
  destruct (bool_decide (nodeId ∈ visited st)); [by injection Hrun as <-|].
  destruct (forEachM _ _ _) as [st2|] eqn:Hfold; [|done]. injection Hrun as <-.
  simpl.
  apply (forEachM_invariant
           (λ _ s, Forall (Sorted Js.str_le) (circular s)
                   ∧ NoDup (map (Js.join "->") (circular s))) _ _ _ _ Hfold); [done|].
  intros pre x s1 s2 _ Hbody Hs1. by eapply IH.
Qed.

Lemma runDfs_records_distinct ns es st :
  runDfs ns es = Some st →
  Forall (Sorted Js.str_le) st.(circular) ∧ NoDup (map (Js.join "->") st.(circular)).
Proof.
  unfold runDfs. intros Hrun.
  apply (forEachM_invariant
           (λ _ s, Forall (Sorted Js.str_le) (circular s)
                   ∧ NoDup (map (Js.join "->") (circular s))) _ _ _ _ Hrun).
  - split; constructor.
  - intros pre n s1 s2 _ Hbody Hs1. unfold dfsFrom in Hbody.
    destruct (bool_decide _); [by injection Hbody as <-|]. by eapply dfs_records_distinct.
Qed.

(** X15. The deduplication of the records works: no two records of a built
    graph have the same key (their members in sorted order, joined by
    [->]), so no two records have the same members with the same
    multiplicities, and no record occurs twice. *)
Theorem records_are_distinct (extract : CodeFile → list DependencyInfo)
    (files : list CodeFile) :
  let rs := (assemble extract files).(circularDependencies) in
  NoDup (map cycleKeyOf rs) ∧ NoDup (map Js.sort rs) ∧ NoDup rs.
Proof.
  intros rs.
  destruct (assemble_cycles extract files) as (st & Hrun & Hcs & _). fold rs in Hcs.
  destruct (runDfs_records_distinct _ _ _ Hrun) as [Hs Hnd]. rewrite <- Hcs in Hs, Hnd.
  assert (map cycleKeyOf rs = map (Js.join "->") rs) as Hkeys.
  { apply map_ext_in. intros c Hc%list_elem_of_In. unfold cycleKeyOf.
    by rewrite (sort_of_sorted c (proj1 (Forall_forall _ _) Hs c Hc)). }
  assert (NoDup (map cycleKeyOf rs)) as Hk by by rewrite Hkeys.
  split; [done|]. split.
  - by apply (NoDup_map_compose Js.sort (Js.join "->")).
  - apply (NoDup_map_compose id cycleKeyOf) in Hk. by rewrite map_id in Hk.
Qed.

Section Connected.
Variable es : list GraphEdge.

Lemma closed_walk_connected x w : is_walk es (x :: w ++ [x]) → connected es (x :: w ++ [x]).
Proof.
  intros Hw.
  assert (∀ z, z ∈ x :: w ++ [x] → rtc (edge_rel es) x z ∧ rtc (edge_rel es) z x) as Hz.
  { intros z Hz.
    apply elem_of_cons in Hz as [->|Hz]; [done|].
    apply elem_of_app in Hz as [Hz|Hz]; [|by apply list_elem_of_singleton in Hz as ->].
    apply list_elem_of_split in Hz as (w1 & w2 & ->). split.
    - apply tc_rtc, (walk_tc es x w1 z).
      apply (is_walk_app_l _ _ (w2 ++ [x])). simpl. by rewrite <- !app_assoc in *.
    - apply tc_rtc, (walk_tc es z w2 x).
      apply (is_walk_app_r _ (x :: w1)). simpl. by rewrite <- !app_assoc in Hw. }
  intros a b Ha Hb. destruct (Hz a Ha) as [_ Hax]. destruct (Hz b Hb) as [Hxb _].
  by etrans.
Qed.

Lemma connected_members c c' :
  (∀ x, x ∈ c' ↔ x ∈ c) → connected es c → connected es c'.
Proof. intros Hcc Hc x y Hx Hy. apply Hc; by apply Hcc. Qed.

Lemma dfs_connected depth nodeId path st st' :
  dfs (buildAdjList es) depth nodeId path st = Some st' →
  is_walk es (path ++ [nodeId]) →
  st.(recStack) = list_to_set path →
  Forall (connected es) st.(circular) →
  Forall (connected es) st'.(circular) ∧ st'.(recStack) = st.(recStack).
Proof.
  revert nodeId path st st'.
  induction depth as [|depth IH]; intros nodeId path st st' Hrun Hw Hrec Hok; [done|].
  simpl in Hrun.
  destruct (bool_decide (nodeId ∈ recStack st)) eqn:Hhit.
  { destruct (indexOf path nodeId) as [k|] eqn:Hidx; [|by injection Hrun as <-].
    pose proof (someSorted_Forall2
                  (Js.join "->" (Js.sort (drop k path ++ [nodeId]))) (circular st)) as HF.
    destruct (someSorted _ (circular st)) as [found circular'] eqn:Hsome.
    injection Hrun as <-. simpl in *. split; [|done].
    assert (Forall (connected es) circular') as Hok'.
    { apply Forall_lookup. intros i c' Hi.
      destruct (Forall2_lookup_l _ _ _ _ _ HF Hi) as (c & Hc & Hcc').
      apply (connected_members c); [done|].
      exact (proj1 (Forall_lookup _ _) Hok _ _ Hc). }
    destruct found; [done|].
    apply Forall_app. split; [done|]. apply Forall_singleton.
    apply indexOf_drop in Hidx as [tail Htail]. rewrite Htail.
    apply (connected_members (nodeId :: tail ++ [nodeId])); [intros x; apply sort_elem|].
    apply closed_walk_connected.
    apply (is_walk_app_r es (take k path)).
    change (nodeId :: tail ++ [nodeId]) with ((nodeId :: tail) ++ [nodeId]).
    by rewrite <- Htail, app_assoc, take_drop. }
  destruct (bool_decide (nodeId ∈ visited st)); [by injection Hrun as <-|].
  apply bool_decide_eq_false in Hhit.
  destruct (forEachM _ _ _) as [st2|] eqn:Hfold; [|done]. injection Hrun as <-. simpl.
  apply (forEachM_invariant
           (λ _ s, Forall (connected es) (circular s)
                   ∧ recStack s = recStack st ∪ {[nodeId]}))
    in Hfold as [Hok2 Hrec2].
  - split; [done|]. rewrite Hrec2. set_solver.
  - done.
  - intros pre x s1 s2 Hx Hbody [Hok1 Hrec1].
    apply IH in Hbody as [Hok2 Hrec2].
    + split; [done | congruence].
    + apply is_walk_snoc; [done | by apply neighbors_edge].
    + rewrite Hrec1, Hrec, list_to_set_app_L. simpl. set_solver.
    + done.
Qed.

Lemma runDfs_connected ns st : runDfs ns es = Some st → Forall (connected es) st.(circular).
Proof.
  unfold runDfs. intros Hrun.
  apply (forEachM_invariant (λ _ s, Forall (connected es) (circular s) ∧ recStack s = ∅))
    in Hrun as [H _]; [done | |].
  - split; [constructor | done].
  - intros pre n s1 s2 Hn Hbody [Hok Hrec]. unfold dfsFrom in Hbody.
    destruct (bool_decide _); [by injection Hbody as <-|].
    apply dfs_connected in Hbody as [Hok2 Hrec2];
      [split; [done | congruence] | done | done | done].
Qed.

End Connected.

Lemma successivePairs_members (c : list string) (x y : string) :
  (x, y) ∈ successivePairs c → x ∈ c ∧ y ∈ c.
Proof.
  unfold successivePairs. destruct c as [|first rest]; [by intros ?%elem_of_nil|].
  intros H. apply list_elem_of_In in H. split.
  - apply list_elem_of_In. by apply in_combine_l in H.
  - apply in_combine_r, list_elem_of_In in H.
    apply elem_of_app in H as [H|H]; [by right|].
    apply list_elem_of_singleton in H as ->. by left.
Qed.

Lemma markCircleEdges_sound cs es e :
  (∀ e', e' ∈ es → ¬ flaggedEdge e') →
  e ∈ fold_left markCircleEdges cs es → flaggedEdge e →
  ∃ c, c ∈ cs ∧ e.(e_from) ∈ c ∧ e.(e_to) ∈ c.
Proof.
  intros Hnone.
  enough (∀ e, e ∈ fold_left markCircleEdges cs es → flaggedEdge e →
               ∃ c, c ∈ cs ∧ e_from e ∈ c ∧ e_to e ∈ c) as H by apply H.
  apply (fold_left_invariant
           (λ s, ∀ e, e ∈ s → flaggedEdge e → ∃ c, c ∈ cs ∧ e_from e ∈ c ∧ e_to e ∈ c)).
  - intros e' He' Hf. by destruct (Hnone e' He').
  - intros s c Hc Hs. unfold markCircleEdges.
    enough (∀ l, (∀ p, p ∈ l → p ∈ successivePairs c) →
              ∀ e, e ∈ fold_left (λ edges '(from, to),
                       update_first (λ e, String.eqb e.(e_from) from && String.eqb e.(e_to) to)
                         markEdge edges) l s
                   → flaggedEdge e → ∃ c, c ∈ cs ∧ e_from e ∈ c ∧ e_to e ∈ c)
      as H by (apply (H (successivePairs c)); done).
    intros l Hl.
    apply (fold_left_invariant
             (λ s, ∀ e, e ∈ s → flaggedEdge e → ∃ c, c ∈ cs ∧ e_from e ∈ c ∧ e_to e ∈ c));
      [done|].
    intros s' [x y] Hxy Hs' e' He' Hf.
    apply elem_of_update_first in He' as [He'|(e0 & He0 & Hp & ->)]; [eauto|].
    exists c. split; [done|]. apply andb_true_iff in Hp as [Hx Hy].
    apply String.eqb_eq in Hx, Hy. cbn [markEdge e_from e_to]. rewrite Hx, Hy.
    by apply successivePairs_members, Hl.
Qed.

Lemma step_unflagged ns st ev :
  Forall (λ e, e.(e_isCircular) = None) (es_edges st) →
  Forall (λ e, e.(e_isCircular) = None) (es_edges (step ns st ev)).
Proof.
  intros Hst. unfold step, addDependency.
  destruct (findMatchingNode _ ns) as [t|]; [|done].
  destruct (Js.truthy t && negb (t =? sourceOf ev)%string); [|done].
  destruct (es_edgeMap st !! _) as [i|]; cbn [es_edges].
  - apply Forall_lookup. intros j e Hj. destruct (decide (i = j)) as [<-|Hne].
    + rewrite list_lookup_alter_eq in Hj.
      destruct (es_edges st !! i) as [e0|] eqn:Hi; [|done]. injection Hj as <-.
      exact (proj1 (Forall_lookup _ _) Hst _ _ Hi).
    + rewrite list_lookup_alter_ne in Hj by done.
      exact (proj1 (Forall_lookup _ _) Hst _ _ Hj).
  - apply Forall_app. split; [done|]. by apply Forall_singleton.
Qed.

Lemma buildEdges_unflagged extract ns files e :
  e ∈ buildEdges extract ns files → ¬ flaggedEdge e.
Proof.
  intros He Hf.
  assert (Forall (λ e, e.(e_isCircular) = None) (buildEdges extract ns files)) as Hall.
  { unfold buildEdges. rewrite buildEdges_events.
    apply (fold_left_invariant (λ st, Forall (λ e, e.(e_isCircular) = None) (es_edges st)));
      [by constructor|].
    intros st ev _. apply step_unflagged. }
  unfold flaggedEdge in Hf. by rewrite (proj1 (Forall_forall _ _) Hall e He) in Hf.
Qed.

Lemma rtc_endpoints es es' x y :
  map endpoints es = map endpoints es' →
  rtc (edge_rel es) x y → rtc (edge_rel es') x y.
Proof.
  intros Hends H. induction H as [|a b c Hab _ IH]; [done|].
  eapply rtc_l; [|done]. by apply (edge_rel_endpoints es).
Qed.

(** X16. Every edge flagged [isCircular] lies on a directed cycle: its target
    leads back to its source along the edges of the graph. *)
Theorem flagged_edges_lie_on_cycles (extract : CodeFile → list DependencyInfo)
    (files : list CodeFile) (e : GraphEdge) :
  let g := assemble extract files in
  e ∈ g.(edges) → e.(e_isCircular) = Some true →
  tc (edge_rel g.(edges)) e.(e_to) e.(e_from) ∧ on_cycle g.(edges) e.(e_from).
Proof.
  intros g He Hf.
  destruct (assemble_cycles extract files) as (st & Hrun & Hcs & _).
  set (edges0 := buildEdges extract (map makeNode files) files) in *.
  assert (map endpoints g.(edges) = map endpoints edges0) as Hends
    by apply assemble_edge_endpoints.
  assert (g.(edges) = fold_left markCircleEdges st.(circular) edges0) as Hedges.
  { unfold g, assemble; simpl.
    fold edges0. unfold assemble in Hcs; simpl in Hcs. fold edges0 in Hcs. by rewrite Hcs. }
  assert (edge_rel g.(edges) e.(e_from) e.(e_to)) as Hedge by by exists e.
  assert (e.(e_from) ≠ e.(e_to)) as Hne.
  { by destruct (edges_proper_at extract files e He). }
  rewrite Hedges in He.
  apply markCircleEdges_sound in He as (c & Hc & Hfrom & Hto);
    [|apply buildEdges_unflagged|done].
  pose proof (proj1 (Forall_forall _ _) (runDfs_connected edges0 _ st Hrun) c Hc) as Hconn.
  assert (rtc (edge_rel g.(edges)) e.(e_to) e.(e_from)) as Hback.
  { apply (rtc_endpoints edges0); [done|]. by apply Hconn. }
  assert (tc (edge_rel g.(edges)) e.(e_to) e.(e_from)) as Htc.
  { apply rtc_tc in Hback as [Heq|H]; [congruence | done]. }
  split; [done|]. unfold on_cycle. by eapply tc_l.
Qed.

(** ** Extraction *)

Lemma occurrences_substring c n s :
  (occurrences c (Js.substring_to n s) ≤ occurrences c s)%nat.
Proof.
  revert n. induction s as [|d s IH]; intros n; [done|].
  cbn [Js.substring_to occurrences].
  destruct (Js.codeUnits d) as [|k].
  - cbn [occurrences]. specialize (IH n). lia.
  - destruct n as [|n]; cbn [occurrences]; [lia|]. specialize (IH (S n - S k)). lia.
Qed.

Lemma lineNumberAt_bounds content index :
  (1 ≤ lineNumberAt content index ≤ S (occurrences "010" content))%nat.
Proof.
  unfold lineNumberAt. rewrite split_length.
  pose proof (occurrences_substring "010" index content). lia.
Qed.

Lemma lineNumberGuarded_bounds content index :
  (1 ≤ lineNumberGuarded content index ≤ S (occurrences "010" content))%nat.
Proof.
  unfold lineNumberGuarded. destruct (Nat.eqb index 0); [lia|]. apply lineNumberAt_bounds.
Qed.

(** Lengths and positions count code units, not bytes: the two bytes of é
    are one unit, the four bytes of an emoji two, and a match at the code
    unit 2 of a text that begins with é and a line feed is on line 2. *)
Example code_unit_lengths :
  Js.length "é" = 1 ∧ Js.length "😀" = 2
  ∧ Js.substring_to 1 "éa" = "é"
  ∧ lineNumberAt ("é" +:+ String "010" "import x") 2 = 2
  ∧ n_size (makeNode {| path := "/ws/a.ts"; relativePath := "a.ts"; content := "é";
                        language := "typescript" |}) = Some 1.
Proof. repeat split; vm_compute; reflexivity. Qed.

Lemma Forall_flat_map {A B} (P : B → Prop) (f : A → list B) (l : list A) :
  (∀ x, x ∈ l → Forall P (f x)) → Forall P (flat_map f l).
Proof.
  induction l as [|x l IH]; intros H; simpl; [constructor|].
  apply Forall_app. split; [apply H; by left|]. apply IH. intros y Hy. apply H. by right.
Qed.

Section Extracted.
Variable env : Env.
Variable ws : string.

(** What one loop over the matches of a pattern pushes. *)
Lemma collect_Forall (P : DependencyInfo → Prop) content pattern resolve type line :
  (∀ importPath resolved index,
     resolve importPath = Some resolved →
     P {| d_path := resolved; d_type := type; d_lineNumber := Some (line content index) |}) →
  Forall P (collect env content pattern resolve type line).
Proof.
  intros H. unfold collect. apply Forall_flat_map. intros m _.
  destruct (m_group1 m) as [importPath|]; [|constructor].
  destruct (resolve importPath) as [resolved|] eqn:Hr; [|constructor].
  apply Forall_singleton. by eapply H.
Qed.

Lemma probe_names_a_file fullPath exts r :
  probe env ws fullPath exts = Some r → names_a_file env ws r.
Proof.
  induction exts as [|ext exts IH]; simpl; [done|].
  destruct (fileExists env (fullPath +:+ ext)) eqn:H1; [intros [= <-]; by eexists|].
  destruct (fileExists env (Path.join _)) eqn:H2; [intros [= <-]; by eexists|]. done.
Qed.

Lemma tryAliases_names_a_file aliases importPath exts r :
  tryAliases env ws aliases importPath exts = Some r → names_a_file env ws r.
Proof.
  induction aliases as [|[alias aliasPath] aliases IH]; simpl; [done|].
  destruct (Js.startsWith importPath alias); [|done].
  destruct (probe env ws _ exts) as [r'|] eqn:Hp; [|done].
  intros [= <-]. by eapply probe_names_a_file.
Qed.

Lemma resolveImportPath_names_a_file this importPath dir exts r :
  resolveImportPath env ws this importPath dir exts = Some r → names_a_file env ws r.
Proof.
  unfold resolveImportPath.
  destruct (tryAliases env ws _ importPath exts) as [r'|] eqn:Ha.
  { intros [= <-]. by eapply tryAliases_names_a_file. }
  destruct (_ || _); [|done].
  destruct (probe env ws _ exts) as [r'|] eqn:Hp.
  { intros [= <-]. by eapply probe_names_a_file. }
  destruct (fileExists env _) eqn:Hf; [|done]. intros [= <-]. by eexists.
Qed.

Lemma rustWalk_names_a_file searchPath parts r :
  rustWalk env ws searchPath parts = Some r → names_a_file env ws r.
Proof.
  revert searchPath. induction parts as [|part parts IH]; intros searchPath; simpl; [done|].
  destruct (fileExists env (Path.join [Path.join [searchPath; part]; "lib.rs"])) eqn:H1;
    [intros [= <-]; by eexists|].
  destruct (fileExists env (Path.join [Path.join [searchPath; part]; "mod.rs"])); [apply IH|].
  destruct (fileExists env (Path.join [searchPath; part] +:+ ".rs")) eqn:H3; [|done].
  intros [= <-]. by eexists.
Qed.

Lemma pythonWalk_names_a_file searchPath parts r :
  pythonWalk env ws searchPath parts = Some r → names_a_file env ws r.
Proof.
  revert searchPath. induction parts as [|part parts IH]; intros searchPath; simpl; [done|].
  destruct (fileExists env (Path.join [searchPath; part] +:+ ".py")) eqn:H1;
    [intros [= <-]; by eexists|].
  destruct (fileExists env (Path.join [Path.join [searchPath; part]; "__init__.py"]));
    [apply IH | done].
Qed.

Lemma javaWalk_names_a_file n searchDir packagePath className r :
  javaWalk env ws n searchDir packagePath className = Some r → names_a_file env ws r.
Proof.
  revert searchDir. induction n as [|n IH]; intros searchDir; simpl; [done|].
  destruct (fileExists env (Path.join _)) eqn:H1; [intros [= <-]; by eexists|].
  destruct (String.eqb _ searchDir); [done | apply IH].
Qed.

Lemma probeInclude_names_a_file fullPath exts r :
  probeInclude env ws fullPath exts = Some r → names_a_file env ws r.
Proof.
  induction exts as [|ext exts IH]; simpl; [done|].
  destruct (fileExists env (fullPath +:+ ext)) eqn:H1; [intros [= <-]; by eexists | done].
Qed.

Lemma resolveIncludePath_names_a_file includePath dir r :
  resolveIncludePath env ws includePath dir = Some r → names_a_file env ws r.
Proof.
  unfold resolveIncludePath.
  destruct (probeInclude env ws _ _) as [r'|] eqn:Hp.
  { intros [= <-]. by eapply probeInclude_names_a_file. }
  destruct (fileExists env _) eqn:Hf; [|done]. intros [= <-]. by eexists.
Qed.

(** A property of every reference that [extractDependencies] returns,
    from what it is for the references of each loop. *)
Lemma extractDependencies_Forall (P : DependencyInfo → Prop) this file :
  (∀ r type index, names_a_file env ws r →
     type ∈ default [] (table_get referenceTypes file.(language)) →
     P {| d_path := r; d_type := type;
          d_lineNumber := Some (lineNumberAt file.(content) index) |}
     ∧ P {| d_path := r; d_type := type;
            d_lineNumber := Some (lineNumberGuarded file.(content) index) |}) →
  (∀ r, names_a_file env ws r → file.(language) = "go" →
     P {| d_path := r; d_type := TImport; d_lineNumber := None |}) →
  Forall P (extractDependencies env ws this file).
Proof.
  intros Hline Hblock. unfold extractDependencies.
  repeat (apply Forall_app; split).
  - destruct (_ || _) eqn:Hl; [|constructor].
    assert (default [] (table_get referenceTypes file.(language))
            = [TImport; TRequire; TDynamicImport; TExport]) as Htypes.
    { apply orb_true_iff in Hl as [Hl|Hl]; apply String.eqb_eq in Hl; by rewrite Hl. }
    rewrite Htypes in Hline.
    repeat (apply Forall_app; split); apply collect_Forall; intros p r i Hr;
      apply Hline; try (by eapply resolveImportPath_names_a_file);
      repeat (first [by left | right]).
  - destruct (String.eqb_spec file.(language) "python") as [Hl|]; [|constructor].
    rewrite Hl in Hline.
    repeat (apply Forall_app; split); apply collect_Forall; intros p r i Hr;
      apply Hline; try (by eapply pythonWalk_names_a_file);
      repeat (first [by left | right]).
  - destruct (String.eqb_spec file.(language) "java") as [Hl|]; [|constructor].
    rewrite Hl in Hline.
    apply collect_Forall; intros p r i Hr;
      apply Hline; try (by eapply javaWalk_names_a_file);
      repeat (first [by left | right]).
  - destruct (String.eqb_spec file.(language) "csharp") as [Hl|]; [|constructor].
    rewrite Hl in Hline.
    apply collect_Forall; intros p r i Hr;
      apply Hline; try (by eapply javaWalk_names_a_file);
      repeat (first [by left | right]).
  - destruct (_ || _) eqn:Hl; [|constructor].
    assert (default [] (table_get referenceTypes file.(language)) = [TInclude]) as Htypes.
    { apply orb_true_iff in Hl as [Hl|Hl]; apply String.eqb_eq in Hl; by rewrite Hl. }
    rewrite Htypes in Hline.
    apply collect_Forall; intros p r i Hr;
      apply Hline; try (by eapply resolveIncludePath_names_a_file);
      repeat (first [by left | right]).
  - destruct (String.eqb_spec file.(language) "go") as [Hl|]; [|constructor].
    rewrite Hl in Hline. apply Forall_app; split.
    + apply Forall_flat_map. intros m _.
      destruct (m_group1 m) as [importPath|]; [|constructor].
      destruct (Js.truthy importPath); [|constructor].
      destruct (resolveImportPath env ws this importPath _ _) as [r|] eqn:Hr; [|constructor].
      apply Forall_singleton. apply Hline; [by eapply resolveImportPath_names_a_file|].
      by left.
    + apply Forall_flat_map. intros b _.
      destruct (m_group1 b) as [blockContent|]; [|constructor].
      apply Forall_flat_map. intros m _.
      destruct (m_group1 m) as [importPath|]; [|constructor].
      destruct (resolveImportPath env ws this importPath _ _) as [r|] eqn:Hr; [|constructor].
      apply Forall_singleton. apply Hblock; [by eapply resolveImportPath_names_a_file|done].
  - destruct (String.eqb_spec file.(language) "rust") as [Hl|]; [|constructor].
    rewrite Hl in Hline.
    apply collect_Forall; intros p r i Hr;
      apply Hline; try (by eapply rustWalk_names_a_file);
      repeat (first [by left | right]).
Qed.

End Extracted.

Section Extracted2.
Variable env : Env.
Variable ws : string.

(** X17. Every reference that [extractDependencies] returns names a file that
    exists: its path is the workspace-relative form of a path at which
    [fileExists] found a regular file. *)
Theorem extracted_paths_exist (this : DependencyGraph) (file : CodeFile) :
  Forall (λ d, names_a_file env ws d.(d_path)) (extractDependencies env ws this file).
Proof. apply extractDependencies_Forall; [intros r type index Hr _; by split | done]. Qed.

(** X18. The type of a reference is one of those of the language of its file:
    [import], [require], [dynamic-import] or [export] for JavaScript and
    TypeScript, [import] or [from] for Python, [import] for Java, Go and
    Rust, [using] for C#, [include] for C and C++. A file of any other
    language has no references. *)
Theorem extracted_types_by_language (this : DependencyGraph) (file : CodeFile) :
  Forall (λ d, d.(d_type) ∈ default [] (table_get referenceTypes file.(language)))
    (extractDependencies env ws this file)
  ∧ (table_get referenceTypes file.(language) = None →
     extractDependencies env ws this file = []).
Proof.
  assert (Forall (λ d, d.(d_type) ∈ default [] (table_get referenceTypes file.(language)))
            (extractDependencies env ws this file)) as Hall.
  { apply extractDependencies_Forall.
    - intros r type index _ Ht. by split.
    - intros r _ ->. by left. }
  split; [apply Hall|].
  intros Hnone. rewrite Hnone in Hall. simpl in Hall.
  destruct (extractDependencies _ _ _ _) as [|d ds]; [done|].
  apply Forall_cons in Hall as [Hd _]. by apply elem_of_nil in Hd.
Qed.

(** The references of a Go file: those of the single imports, then those
    of the import blocks. *)
Lemma extractDependencies_go (this : DependencyGraph) (file : CodeFile) :
  file.(language) = "go" →
  extractDependencies env ws this file
  = goSingleReferences env ws this file ++ goBlockReferences env ws this file.
Proof.
  intros Hl. unfold extractDependencies. rewrite Hl.
  change ("go" =? "javascript")%string with false.
  change ("go" =? "typescript")%string with false.
  change ("go" =? "python")%string with false.
  change ("go" =? "java")%string with false.
  change ("go" =? "csharp")%string with false.
  change ("go" =? "c")%string with false.
  change ("go" =? "cpp")%string with false.
  change ("go" =? "go")%string with true.
  change ("go" =? "rust")%string with false.
  cbn [orb]. cbn [app]. by rewrite app_nil_r.
Qed.

Lemma goSingleReferences_lines (this : DependencyGraph) (file : CodeFile) :
  Forall (λ d, ∃ index, d.(d_lineNumber) = Some (lineNumberAt file.(content) index))
    (goSingleReferences env ws this file).
Proof.
  apply Forall_flat_map. intros m _.
  destruct (m_group1 m) as [importPath|]; [|constructor].
  destruct (Js.truthy importPath); [|constructor].
  destruct (resolveImportPath _ _ _ _ _ _); [|constructor].
  apply Forall_singleton. by eexists.
Qed.

Lemma goBlockReferences_lines (this : DependencyGraph) (file : CodeFile) :
  Forall (λ d, d.(d_lineNumber) = None) (goBlockReferences env ws this file).
Proof.
  apply Forall_flat_map. intros b _.
  destruct (m_group1 b) as [blockContent|]; [|constructor].
  apply Forall_flat_map. intros m _.
  destruct (m_group1 m) as [importPath|]; [|constructor].
  destruct (resolveImportPath _ _ _ _ _ _); [|constructor].
  by apply Forall_singleton.
Qed.

(** X19. The line number of a reference lies between 1 and the line count of
    the file (the one its node gets); only a reference from a Go import
    block has no line number. The references of a Go file are those of
    its single imports, which all have a line number, followed by those
    of its import blocks, which have none. *)
Theorem extracted_line_numbers (this : DependencyGraph) (file : CodeFile) :
  Forall (λ d, match d.(d_lineNumber) with
               | Some l => (1 ≤ l ≤ lineCountOf file)%nat
               | None => file.(language) = "go" ∧ d ∈ goBlockReferences env ws this file
               end)
    (extractDependencies env ws this file)
  ∧ (file.(language) = "go" →
     extractDependencies env ws this file
     = goSingleReferences env ws this file ++ goBlockReferences env ws this file)
  ∧ Forall (λ d, is_Some d.(d_lineNumber)) (goSingleReferences env ws this file)
  ∧ Forall (λ d, d.(d_lineNumber) = None) (goBlockReferences env ws this file).
Proof.
  split; [|split; [apply extractDependencies_go|split]].
  - destruct (decide (file.(language) = "go")) as [Hgo|Hgo].
    + rewrite (extractDependencies_go this file Hgo). apply Forall_app. split.
      * eapply Forall_impl; [apply goSingleReferences_lines|].
        intros d [index ->]. apply lineNumberAt_bounds.
      * apply Forall_forall. intros d Hd.
        pose proof (proj1 (Forall_forall _ _) (goBlockReferences_lines this file) d Hd) as ->.
        done.
    + apply extractDependencies_Forall.
      * intros r type index _ _. split; simpl.
        -- apply lineNumberAt_bounds.
        -- apply lineNumberGuarded_bounds.
      * done.
  - eapply Forall_impl; [apply goSingleReferences_lines|]. intros d [index ->]. by eexists.
  - apply goBlockReferences_lines.
Qed.

Lemma find_first_app {A} (pred : A → bool) (l1 l2 : list A) :
  find_first pred (l1 ++ l2)
  = match find_first pred l1 with
    | Some x => Some x
    | None => find_first pred l2
    end.
Proof. induction l1 as [|x l1 IH]; simpl; [done|]. by destruct (pred x). Qed.

Lemma probe_candidates fullPath exts :
  probe env ws fullPath exts
  = relativeToWorkspace env ws <$> find_first (fileExists env) (probeCandidates fullPath exts).
Proof.
  induction exts as [|ext exts IH]; simpl; [done|].
  destruct (fileExists env (fullPath +:+ ext)); [done|].
  destruct (fileExists env (Path.join _)); [done|]. apply IH.
Qed.

Lemma tryAliases_candidates aliases importPath exts :
  tryAliases env ws aliases importPath exts
  = relativeToWorkspace env ws <$>
      find_first (fileExists env)
        (flat_map (λ '(alias, aliasPath),
             if Js.startsWith importPath alias then
               probeCandidates (Path.join [ws; Js.replace importPath alias aliasPath]) exts
             else []) aliases).
Proof.
  induction aliases as [|[alias aliasPath] aliases IH]; simpl; [done|].
  destruct (Js.startsWith importPath alias); simpl; [|apply IH].
  rewrite find_first_app, probe_candidates.
  destruct (find_first (fileExists env) (probeCandidates _ exts)); simpl; [done | apply IH].
Qed.

(** X20. [resolveImportPath] returns the first existing path of a fixed list of
    candidates, in workspace-relative form, and nothing when none of them
    exists: the candidates of the matching aliases come first, in the
    order of the alias table; then, only for an import path that starts
    with a dot or a slash, the path resolved against the directory of the
    file, with each extension in turn (the file before the [index] file
    of the directory), and last that path as it is. *)
Theorem resolveImportPath_first_candidate (this : DependencyGraph)
    (importPath currentDir : string) (extensions : list string) :
  resolveImportPath env ws this importPath currentDir extensions
  = relativeToWorkspace env ws <$>
      find_first (fileExists env)
        (importCandidates env ws this importPath currentDir extensions).
Proof.
  unfold resolveImportPath, importCandidates.
  rewrite find_first_app, tryAliases_candidates.
  destruct (find_first (fileExists env) (flat_map _ (tsConfigPaths this))); simpl; [done|].
  destruct (_ || _); [|done].
  rewrite find_first_app, probe_candidates.
  destruct (find_first (fileExists env) (probeCandidates _ extensions)); simpl; [done|].
  by destruct (fileExists env _).
Qed.

Lemma probeInclude_candidates fullPath exts :
  probeInclude env ws fullPath exts
  = relativeToWorkspace env ws <$>
      find_first (fileExists env) (map (λ ext, fullPath +:+ ext) exts).
Proof.
  induction exts as [|ext exts IH]; simpl; [done|].
  destruct (fileExists env (fullPath +:+ ext)); [done | apply IH].
Qed.

(** X21. [resolveIncludePath] returns the first existing path among the
    included path with [.h], [.hpp], [.c], [.cpp] appended, in that
    order, and the included path itself, resolved against the directory
    of the file; an include of [x.h] therefore prefers a file [x.h.h]. *)
Theorem resolveIncludePath_first_candidate (includePath currentDir : string) :
  resolveIncludePath env ws includePath currentDir
  = relativeToWorkspace env ws <$>
      find_first (fileExists env) (includeCandidates env includePath currentDir).
Proof.
  unfold resolveIncludePath, includeCandidates.
  rewrite find_first_app, probeInclude_candidates.
  destruct (find_first (fileExists env) (map _ _)); simpl; [done|].
  by destruct (fileExists env _).
Qed.

Lemma searchedDirs_length n searchDir : (List.length (searchedDirs n searchDir) ≤ n)%nat.
Proof.
  revert searchDir. induction n as [|n IH]; intros searchDir; simpl; [lia|].
  destruct (String.eqb _ searchDir); simpl; [lia|]. specialize (IH (Path.dirname searchDir)). lia.
Qed.

Lemma javaWalk_candidates n searchDir packagePath className :
  javaWalk env ws n searchDir packagePath className
  = relativeToWorkspace env ws <$>
      find_first (fileExists env)
        (map (λ d, Path.join [d; packagePath; className +:+ ".java"]) (searchedDirs n searchDir)).
Proof.
  revert searchDir. induction n as [|n IH]; intros searchDir; simpl; [done|].
  destruct (fileExists env (Path.join _)); [done|].
  destruct (String.eqb _ searchDir); [done | apply IH].
Qed.

Lemma pythonWalk_steps searchPath parts r :
  pythonWalk env ws searchPath parts = Some r
  ↔ ∃ pre py init post,
      pythonSteps searchPath parts = pre ++ (py, init) :: post
      ∧ Forall (λ s, fileExists env s.1 = false ∧ fileExists env s.2 = true) pre
      ∧ fileExists env py = true
      ∧ r = relativeToWorkspace env ws py.
Proof.
  revert searchPath. induction parts as [|part parts IH]; intros searchPath; simpl.
  { split; [done|]. intros (pre & py & init & post & H & _). by destruct pre. }
  set (p := Path.join [searchPath; part]).
  destruct (fileExists env (p +:+ ".py")) eqn:Hpy.
  - split.
    + intros [= <-]. exists [], (p +:+ ".py"), (Path.join [p; "__init__.py"]),
        (pythonSteps p parts). by repeat split.
    + intros (pre & py & init & post & Hsteps & Hpre & Hex & ->).
      destruct pre as [|s pre]; simpl in Hsteps.
      * by injection Hsteps as <- _ _.
      * injection Hsteps as <- _. apply Forall_cons in Hpre as [[Hs _] _].
        simpl in Hs. congruence.
  - destruct (fileExists env (Path.join [p; "__init__.py"])) eqn:Hinit.
    + rewrite IH. split.
      * intros (pre & py & init & post & Hsteps & Hpre & Hex & ->).
        exists ((p +:+ ".py", Path.join [p; "__init__.py"]) :: pre), py, init, post.
        rewrite Hsteps. split; [done|]. split; [|done]. by constructor.
      * intros (pre & py & init & post & Hsteps & Hpre & Hex & ->).
        destruct pre as [|s pre]; simpl in Hsteps.
        -- injection Hsteps as <- _ _. congruence.
        -- injection Hsteps as <- Hrest. apply Forall_cons in Hpre as [_ Hpre].
           by exists pre, py, init, post.
    + split; [done|].
      intros (pre & py & init & post & Hsteps & Hpre & Hex & ->).
      destruct pre as [|s pre]; simpl in Hsteps.
      * injection Hsteps as <- _ _. congruence.
      * injection Hsteps as <- _. apply Forall_cons in Hpre as [[_ Hs] _].
        simpl in Hs. congruence.
Qed.

(** X23. [resolvePythonImport] walks the parts of the dotted name: it returns
    the module file [.py] of the first part that has one, provided every
    part before it is a package (has [__init__.py]) without a module
    file; otherwise it returns nothing. So a module file wins over a
    package of the same name, and a name that only leads through
    packages resolves to nothing. *)
Theorem resolvePythonImport_walk (importPath currentDir r : string) :
  resolvePythonImport env ws importPath currentDir = Some r
  ↔ ∃ pre py init post,
      pythonSteps currentDir (Js.split "." importPath) = pre ++ (py, init) :: post
      ∧ Forall (λ s, fileExists env s.1 = false ∧ fileExists env s.2 = true) pre
      ∧ fileExists env py = true
      ∧ r = relativeToWorkspace env ws py.
Proof. apply pythonWalk_steps. Qed.

Lemma rustWalk_steps searchPath parts r :
  rustWalk env ws searchPath parts = Some r
  ↔ ∃ pre lib marker rs post,
      rustSteps searchPath parts = pre ++ (lib, marker, rs) :: post
      ∧ Forall (λ s, fileExists env s.1.1 = false ∧ fileExists env s.1.2 = true) pre
      ∧ ((fileExists env lib = true ∧ r = relativeToWorkspace env ws lib)
         ∨ (fileExists env lib = false ∧ fileExists env marker = false
            ∧ fileExists env rs = true ∧ r = relativeToWorkspace env ws rs)).
Proof.
  revert searchPath. induction parts as [|part parts IH]; intros searchPath; simpl.
  { split; [done|]. intros (pre & lib & marker & rs & post & H & _). by destruct pre. }
  set (p := Path.join [searchPath; part]).
  destruct (fileExists env (Path.join [p; "lib.rs"])) eqn:Hlib.
  - split.
    + intros [= <-]. exists [], (Path.join [p; "lib.rs"]), (Path.join [p; "mod.rs"]),
        (p +:+ ".rs"), (rustSteps p parts). split; [done|]. split; [done|]. by left.
    + intros (pre & lib & marker & rs & post & Hsteps & Hpre & Hres).
      destruct pre as [|s pre]; simpl in Hsteps.
      * injection Hsteps as <- <- <- _. destruct Hres as [[_ ->]|[? _]]; [done | congruence].
      * injection Hsteps as <- _. apply Forall_cons in Hpre as [[Hs _] _].
        simpl in Hs. congruence.
  - destruct (fileExists env (Path.join [p; "mod.rs"])) eqn:Hmod.
    + rewrite IH. split.
      * intros (pre & lib & marker & rs & post & Hsteps & Hpre & Hres).
        exists ((Path.join [p; "lib.rs"], Path.join [p; "mod.rs"], p +:+ ".rs") :: pre),
          lib, marker, rs, post.
        rewrite Hsteps. split; [done|]. split; [|done]. by constructor.
      * intros (pre & lib & marker & rs & post & Hsteps & Hpre & Hres).
        destruct pre as [|s pre]; simpl in Hsteps.
        -- injection Hsteps as <- <- <- _.
           destruct Hres as [[? _]|(_ & ? & _)]; congruence.
        -- injection Hsteps as <- Hrest. apply Forall_cons in Hpre as [_ Hpre].
           by exists pre, lib, marker, rs, post.
    + destruct (fileExists env (p +:+ ".rs")) eqn:Hrs.
      * split.
        -- intros [= <-]. exists [], (Path.join [p; "lib.rs"]), (Path.join [p; "mod.rs"]),
             (p +:+ ".rs"), (rustSteps p parts). split; [done|]. split; [done|]. by right.
        -- intros (pre & lib & marker & rs & post & Hsteps & Hpre & Hres).
           destruct pre as [|s pre]; simpl in Hsteps.
           ++ injection Hsteps as <- <- <- _.
              destruct Hres as [[? _]|(_ & _ & _ & ->)]; [congruence | done].
           ++ injection Hsteps as <- _. apply Forall_cons in Hpre as [[_ Hs] _].
              simpl in Hs. congruence.
      * split; [done|].
        intros (pre & lib & marker & rs & post & Hsteps & Hpre & Hres).
        destruct pre as [|s pre]; simpl in Hsteps.
        -- injection Hsteps as <- <- <- _.
           destruct Hres as [[? _]|(_ & _ & ? & _)]; congruence.
        -- injection Hsteps as <- _. apply Forall_cons in Hpre as [[_ Hs] _].
           simpl in Hs. congruence.
Qed.

(** X24. [resolveRustImport] walks the parts of the path: at the first part
    that has a crate root [lib.rs] it returns that file; at the first part
    without [lib.rs] and without the module marker [mod.rs] it returns the
    module file [.rs] if there is one; every part before must have
    [mod.rs] and no [lib.rs]. Otherwise it returns nothing: a path that
    only leads through module directories is unresolved, and a module
    directory hides the module file of the same name. *)
Theorem resolveRustImport_walk (importPath currentDir r : string) :
  resolveRustImport env ws importPath currentDir = Some r
  ↔ ∃ pre lib marker rs post,
      rustSteps currentDir (Js.split "/" importPath) = pre ++ (lib, marker, rs) :: post
      ∧ Forall (λ s, fileExists env s.1.1 = false ∧ fileExists env s.1.2 = true) pre
      ∧ ((fileExists env lib = true ∧ r = relativeToWorkspace env ws lib)
         ∨ (fileExists env lib = false ∧ fileExists env marker = false
            ∧ fileExists env rs = true ∧ r = relativeToWorkspace env ws rs)).
Proof. apply rustWalk_steps. Qed.

End Extracted2.

(** ** The collector *)

Lemma supported_language ext :
  includes supportedExtensions ext = true →
  getLanguageFromExtension ext ∈ knownLanguages
  ∧ getLanguageFromExtension ext ≠ "unknown"
  ∧ getLanguageGroup (getLanguageFromExtension ext) ≠ 0.
Proof.
  intros H. apply includes_spec in H. unfold supportedExtensions in H.
  repeat (apply elem_of_cons in H as [->|H];
          [split; [|split]; [apply list_elem_of_In; vm_compute; tauto | done | done]|]).
  by apply elem_of_nil in H.
Qed.

Section Collected.
Variable cwd : string.
Variable rootPath : string.

Lemma scanEntry_well_collected e :
  ∀ currentPath files files',
    scanEntry cwd rootPath currentPath e files = Returned files' →
    Forall (well_collected cwd rootPath) files →
    Forall (well_collected cwd rootPath) files'.
Proof.
  induction e as [name text|name|name entries IH|name] using Entry_tree_ind;
    intros currentPath files files' Hrun Hfiles.
  - cbn [scanEntry entry_name] in Hrun.
    destruct (shouldIgnore _) eqn:Hig; [by injection Hrun as <-|].
    destruct (includes supportedExtensions (Path.extname name)) eqn:Hext;
      [|by injection Hrun as <-].
    destruct text as [text|]; injection Hrun as <-; [|done].
    apply Forall_app. split; [done|]. apply Forall_singleton.
    destruct (supported_language _ Hext) as (H1 & H2 & H3). by repeat split.
  - cbn [scanEntry entry_name] in Hrun.
    destruct (shouldIgnore _); [by injection Hrun as <- | done].
  - rewrite scanEntry_dir in Hrun.
    destruct (shouldIgnore _); [by injection Hrun as <-|].
    revert files Hrun Hfiles. generalize (Path.join [currentPath; name]). intros full.
    induction IH as [|e entries He _ IHes]; intros files Hrun Hfiles.
    + by injection Hrun as <-.
    + cbn [scanEntries] in Hrun.
      destruct (scanEntry _ _ _ e files) as [files1|] eqn:Hrun1; [|done].
      apply (IHes files1 Hrun). by eapply He.
  - cbn [scanEntry entry_name] in Hrun. by destruct (shouldIgnore _); injection Hrun as <-.
Qed.

End Collected.

(** X1. Every record that the collector returns has a relative path without
    an ignored segment, which is its path taken relative to the root; its
    language is one of the language table, never [unknown], and has a
    group other than 0. *)
Theorem collected_records_are_well_formed (cwd rootPath : string)
    (listing : option (list Entry)) :
  match scanWorkspace cwd rootPath listing with
  | Returned files => Forall (well_collected cwd rootPath) files
  | Thrown _ => True
  end.
Proof.
  unfold scanWorkspace, scanDirectory. destruct listing as [entries|]; [|done].
  assert (∀ currentPath entries files,
            Forall (well_collected cwd rootPath) files →
            match scanEntries cwd rootPath currentPath entries files with
            | Returned files' => Forall (well_collected cwd rootPath) files'
            | Thrown _ => True
            end) as H.
  { intros currentPath es. induction es as [|e es IH]; intros files Hfiles; simpl; [done|].
    destruct (scanEntry _ _ _ e files) as [files1|] eqn:Hrun1; [|done].
    apply IH. by eapply scanEntry_well_collected. }
  apply H. constructor.
Qed.

Section Stripped.
Variable cwd : string.
Variable rs : list string.
Hypothesis rs_valid : forallb valid_name rs = true.

Lemma ignored_name_ignored ds name :
  includes ignorePatterns name = true → ignoredSegs (ds ++ [name]) = true.
Proof.
  intros H. apply ignoredSegs_true. exists name. split; [|by apply includes_spec].
  apply elem_of_app. right. by left.
Qed.

Lemma scanEntries_singleton currentPath e files :
  scanEntries cwd (abs_path rs) currentPath [e] files
  = scanEntry cwd (abs_path rs) currentPath e files.
Proof. simpl. by destruct (scanEntry _ _ _ e files). Qed.

Lemma scanEntries_strip e :
  valid_entry e = true →
  ∀ ds files,
    forallb valid_name ds = true →
    scanEntries cwd (abs_path rs) (abs_path (rs ++ ds)) (strip e) files
    = scanEntry cwd (abs_path rs) (abs_path (rs ++ ds)) e files.
Proof.
  induction e as [name text|name|name entries IH|name] using Entry_tree_ind;
    intros Hv ds files Hds.
  - simpl in Hv. destruct (entry_paths cwd rs rs_valid ds name Hds Hv) as (Hj & Hi & _).
    cbn [strip entry_name]. destruct (includes ignorePatterns name) eqn:Hin.
    + cbn [scanEntries scanEntry entry_name]. by rewrite Hj, Hi, ignored_name_ignored.
    + apply scanEntries_singleton.
  - simpl in Hv. rewrite andb_true_r in Hv.
    destruct (entry_paths cwd rs rs_valid ds name Hds Hv) as (Hj & Hi & _).
    cbn [strip entry_name]. destruct (includes ignorePatterns name) eqn:Hin.
    + cbn [scanEntries scanEntry entry_name]. by rewrite Hj, Hi, ignored_name_ignored.
    + apply scanEntries_singleton.
  - simpl in Hv. apply andb_true_iff in Hv as [Hv Hsub].
    destruct (entry_paths cwd rs rs_valid ds name Hds Hv) as (Hj & Hi & _).
    cbn [strip entry_name]. destruct (includes ignorePatterns name) eqn:Hin.
    + rewrite scanEntry_dir, Hj, Hi, ignored_name_ignored by done. done.
    + rewrite scanEntries_singleton, !scanEntry_dir, Hj, Hi.
      destruct (ignoredSegs (ds ++ [name])); [done|].
      assert (forallb valid_name (ds ++ [name]) = true) as Hdn.
      { apply forallb_valid_app. split; [done|]. simpl. by rewrite Hv. }
      replace (rs ++ ds ++ [name]) with (rs ++ (ds ++ [name])) by done.
      revert files. clear Hin Hj Hi.
      induction IH as [|e entries He _ IHes]; intros files; [done|].
      simpl in Hsub. apply andb_true_iff in Hsub as [Hve Hves].
      cbn [flat_map]. rewrite scanEntries_app, (He Hve (ds ++ [name]) files Hdn).
      cbn [scanEntries]. destruct (scanEntry _ _ _ e files); [by apply IHes | done].
  - simpl in Hv. destruct (entry_paths cwd rs rs_valid ds name Hds Hv) as (Hj & Hi & _).
    cbn [strip entry_name]. destruct (includes ignorePatterns name) eqn:Hin.
    + cbn [scanEntries scanEntry entry_name]. by rewrite Hj, Hi, ignored_name_ignored.
    + apply scanEntries_singleton.
Qed.

Lemma scanEntries_flat_strip ds entries files :
  forallb valid_entry entries = true → forallb valid_name ds = true →
  scanEntries cwd (abs_path rs) (abs_path (rs ++ ds)) (flat_map strip entries) files
  = scanEntries cwd (abs_path rs) (abs_path (rs ++ ds)) entries files.
Proof.
  intros Hv Hds. revert files.
  induction entries as [|e entries IH]; intros files; [done|].
  simpl in Hv. apply andb_true_iff in Hv as [Hve Hves].
  cbn [flat_map]. rewrite scanEntries_app, (scanEntries_strip e Hve ds files Hds).
  cbn [scanEntries]. destruct (scanEntry _ _ _ e files); [by apply IH | done].
Qed.

End Stripped.

(** X2. What carries an ignored name is never read: for a tree of valid
    names under a normalised absolute root, the scan gives the same
    outcome, records or failure, as the scan of the tree without every
    file and directory whose name is an ignored name. *)
Theorem ignored_entries_are_never_read (cwd : string) (rs : list string)
    (entries : list Entry) :
  forallb valid_name rs = true →
  forallb valid_entry entries = true →
  scanWorkspace cwd (abs_path rs) (Some (flat_map strip entries))
  = scanWorkspace cwd (abs_path rs) (Some entries).
Proof.
  intros Hrs Hv. unfold scanWorkspace, scanDirectory.
  pose proof (scanEntries_flat_strip cwd rs Hrs [] entries [] Hv eq_refl) as H.
  by rewrite app_nil_r in H.
Qed.

Lemma join_segments_inj (l l' : list string) :
  l ≠ [] → l' ≠ [] → forallb valid_name l = true → forallb valid_name l' = true →
  Js.join "/" l = Js.join "/" l' → l = l'.
Proof.
  intros Hl Hl' Hv Hv' Heq.
  rewrite <- (split_join l), <- (split_join l'); try done; try by apply valid_names_no_slash.
  by rewrite Heq.
Qed.

Lemma no_backslash_app a b :
  no_backslash (a +:+ b) = no_backslash a && no_backslash b.
Proof. unfold no_backslash. by rewrite list_ascii_app, forallb_app. Qed.

Lemma no_backslash_join (l : list string) :
  forallb no_backslash l = true → no_backslash (Js.join "/" l) = true.
Proof.
  induction l as [|x l IH]; [done|]. intros [Hx Hl]%andb_true_iff.
  destruct l as [|y l]; [done|].
  rewrite join_cons. change (String "/" ?s) with ("/" +:+ s).
  rewrite !no_backslash_app, Hx, IH by done. done.
Qed.

Lemma getNodeId_plain s : no_backslash s = true → getNodeId s = s.
Proof.
  unfold getNodeId, no_backslash. induction s as [|c s IH]; [done|]. simpl.
  intros [Hc Hs]%andb_true_iff. apply negb_true_iff in Hc. by rewrite Hc, IH.
Qed.

Lemma valid_entry_name e : valid_entry e = true → valid_name (entry_name e) = true.
Proof.
  destruct e as [name text|name [entries|]|name]; simpl; try done;
    by intros [H _]%andb_true_iff.
Qed.

Lemma plain_entry_name e : plain_names e = true → no_backslash (entry_name e) = true.
Proof. destruct e as [name text|name [entries|]|name]; simpl; by intros [H _]%andb_true_iff. Qed.

Section Unique.
Variable cwd : string.
Variable rs : list string.
Hypothesis rs_valid : forallb valid_name rs = true.

Lemma entries_add_distinct entries :
  Forall (adds_distinct cwd rs) entries →
  forallb valid_entry entries = true →
  forallb distinct_names entries = true →
  NoDup (map entry_name entries) →
  ∀ ds files files',
    forallb valid_name ds = true →
    scanEntries cwd (abs_path rs) (abs_path (rs ++ ds)) entries files = Returned files' →
    ∃ new, files' = files ++ new
           ∧ NoDup (map relativePath new)
           ∧ ∀ cf, cf ∈ new →
               ∃ e more, e ∈ entries
                 ∧ cf.(relativePath) = Js.join "/" (ds ++ entry_name e :: more)
                 ∧ forallb valid_name more = true
                 ∧ (plain_names e = true → forallb no_backslash more = true).
Proof.
  induction 1 as [|e entries He _ IH]; intros Hv Hd Hnd ds files files' Hds Hrun.
  - injection Hrun as <-. exists []. split; [by rewrite app_nil_r|].
    split; [constructor|]. by intros cf ?%elem_of_nil.
  - simpl in Hv, Hd. apply andb_true_iff in Hv as [Hve Hves].
    apply andb_true_iff in Hd as [Hde Hdes]. simpl in Hnd.
    apply NoDup_cons in Hnd as [Hname Hnd].
    cbn [scanEntries] in Hrun.
    destruct (scanEntry _ _ _ e files) as [files1|] eqn:Hrun1; [|done].
    destruct (He Hve Hde ds files files1 Hds Hrun1) as (new1 & -> & Hnd1 & Hnew1).
    destruct (IH Hves Hdes Hnd ds _ files' Hds Hrun) as (new2 & -> & Hnd2 & Hnew2).
    exists (new1 ++ new2). split; [by rewrite app_assoc|]. split.
    + rewrite map_app. apply NoDup_app. split; [done|]. split; [|done].
      intros rp H1 H2.
      apply elem_of_map in H1 as (cf1 & -> & Hcf1).
      apply elem_of_map in H2 as (cf2 & Heq & Hcf2).
      destruct (Hnew1 cf1 Hcf1) as (more1 & Hrp1 & Hm1 & _).
      destruct (Hnew2 cf2 Hcf2) as (e2 & more2 & He2 & Hrp2 & Hm2 & _).
      rewrite Hrp1, Hrp2 in Heq.
      assert (valid_name (entry_name e) = true) as Hn1 by by apply valid_entry_name.
      assert (valid_name (entry_name e2) = true) as Hn2.
      { rewrite forallb_forall in Hves. apply list_elem_of_In, Hves in He2.
        by apply valid_entry_name. }
      apply join_segments_inj in Heq.
      * apply app_inv_head in Heq. injection Heq as Heq _.
        apply Hname. rewrite Heq. by apply elem_of_map_2.
      * by destruct ds.
      * by destruct ds.
      * apply forallb_valid_app. split; [done|]. simpl. by rewrite Hn1, Hm1.
      * apply forallb_valid_app. split; [done|]. simpl. by rewrite Hn2, Hm2.
    + intros cf [Hcf|Hcf]%elem_of_app.
      * destruct (Hnew1 cf Hcf) as (more & H). exists e, more. split; [by left | done].
      * destruct (Hnew2 cf Hcf) as (e2 & more & He2 & H). exists e2, more.
        split; [by right | done].
Qed.

Lemma every_entry_adds_distinct e : adds_distinct cwd rs e.
Proof.
  induction e as [name text|name|name entries IH|name] using Entry_tree_ind;
    intros Hv Hd ds files files' Hds Hrun.
  - simpl in Hv. destruct (entry_paths cwd rs rs_valid ds name Hds Hv) as (Hj & Hi & Hr).
    cbn [scanEntry entry_name] in Hrun. rewrite Hj, Hi, Hr in Hrun.
    assert (files' = files
            ∨ ∃ text', files' = files ++ [{| path := abs_path (rs ++ ds ++ [name]);
                                             relativePath := Js.join "/" (ds ++ [name]);
                                             content := text';
                                             language := getLanguageFromExtension
                                                           (Path.extname name) |}])
      as [->|[text' ->]].
    { destruct (ignoredSegs _); [left; by injection Hrun|].
      destruct (includes supportedExtensions _); [|left; by injection Hrun].
      destruct text as [text|]; injection Hrun as <-; [right; eauto | by left]. }
    + exists []. split; [by rewrite app_nil_r|]. split; [constructor|].
      by intros cf ?%elem_of_nil.
    + eexists. split; [done|]. split; [apply NoDup_singleton|].
      intros cf ->%list_elem_of_singleton. by exists [].
  - simpl in Hv. rewrite andb_true_r in Hv.
    destruct (entry_paths cwd rs rs_valid ds name Hds Hv) as (Hj & Hi & Hr).
    cbn [scanEntry entry_name] in Hrun. rewrite Hj, Hi in Hrun.
    destruct (ignoredSegs (ds ++ [name])); [|done].
    injection Hrun as <-. exists []. split; [by rewrite app_nil_r|]. split; [constructor|].
    by intros cf ?%elem_of_nil.
  - simpl in Hv. apply andb_true_iff in Hv as [Hv Hsub].
    simpl in Hd. apply andb_true_iff in Hd as [Hnd Hdsub].
    apply bool_decide_eq_true in Hnd.
    destruct (entry_paths cwd rs rs_valid ds name Hds Hv) as (Hj & Hi & Hr).
    rewrite scanEntry_dir, Hj, Hi in Hrun.
    destruct (ignoredSegs (ds ++ [name])) eqn:Hig.
    { injection Hrun as <-. exists []. split; [by rewrite app_nil_r|]. split; [constructor|].
      by intros cf ?%elem_of_nil. }
    destruct (entries_add_distinct entries IH Hsub Hdsub Hnd (ds ++ [name]) files files')
      as (new & -> & Hndnew & Hnew).
    { apply forallb_valid_app. split; [done|]. simpl. by rewrite Hv. }
    { done. }
    exists new. split; [done|]. split; [done|].
    intros cf Hcf. destruct (Hnew cf Hcf) as (e & more & He & Hrp & Hm & Hplain).
    exists (entry_name e :: more). split; [by rewrite Hrp, <- app_assoc|].
    assert (valid_name (entry_name e) = true) as Hne.
    { rewrite forallb_forall in Hsub. apply list_elem_of_In, Hsub in He.
      by apply valid_entry_name. }
    split; [simpl; by rewrite Hne, Hm|].
    cbn [plain_names entry_name]. intros [_ Hp]%andb_true_iff.
    rewrite forallb_forall in Hp. apply list_elem_of_In, Hp in He.
    simpl. rewrite (Hplain He), andb_true_r. by apply plain_entry_name.
  - simpl in Hv. destruct (entry_paths cwd rs rs_valid ds name Hds Hv) as (Hj & Hi & Hr).
    cbn [scanEntry entry_name] in Hrun. rewrite Hj, Hi in Hrun.
    assert (files' = files) as -> by (destruct (ignoredSegs _); by injection Hrun).
    exists []. split; [by rewrite app_nil_r|]. split; [constructor|].
    by intros cf ?%elem_of_nil.
Qed.

End Unique.

(** X3. Identifiers are unique per scan: for a tree of valid names under a
    normalised absolute root in which the names of the entries of every
    directory are pairwise distinct, the records that the scan returns
    have pairwise distinct relative paths; when moreover no name contains
    a backslash, the nodes of the graph built from them have pairwise
    distinct identifiers. *)
Theorem identifiers_are_unique (cwd : string) (rs : list string) (entries : list Entry)
    (files : list CodeFile) (extract : CodeFile → list DependencyInfo) :
  forallb valid_name rs = true →
  forallb valid_entry entries = true →
  NoDup (map entry_name entries) →
  forallb distinct_names entries = true →
  scanWorkspace cwd (abs_path rs) (Some entries) = Returned files →
  NoDup (map relativePath files)
  ∧ (forallb plain_names entries = true →
     NoDup (map n_id (assemble extract files).(nodes))).
Proof.
  intros Hrs Hv Hnd Hd Hrun. unfold scanWorkspace, scanDirectory in Hrun.
  destruct (entries_add_distinct cwd rs entries) with (ds := @nil string)
    (files := @nil CodeFile) (files' := files) as (new & -> & Hndnew & Hnew);
    [|done|done|done|done| |].
  - apply Forall_forall. intros e _. by apply every_entry_adds_distinct.
  - by rewrite app_nil_r.
  - change ([] ++ new) with new. split; [done|]. intros Hplain.
    rewrite assemble_node_ids.
    assert (map (λ f, getNodeId (relativePath f)) new = map relativePath new) as ->; [|done].
    apply map_ext_in. intros cf Hcf%list_elem_of_In.
    destruct (Hnew cf Hcf) as (e & more & He & Hrp & _ & Hmore).
    apply getNodeId_plain. rewrite Hrp. apply no_backslash_join. simpl.
    rewrite forallb_forall in Hplain. apply list_elem_of_In, Hplain in He.
    rewrite (Hmore He), andb_true_r. by apply plain_entry_name.
Qed.

(** ** The alias table *)

Lemma table_get_map_set (table : list (string * string)) (k v k' : string) :
  table_get (map_set table k v) k' = if String.eqb k k' then Some v else table_get table k'.
Proof.
  induction table as [|[k0 v0] table IH]; simpl; [done|].
  destruct (String.eqb_spec k0 k) as [->|Hne]; simpl.
  - by destruct (String.eqb k k').
  - destruct (String.eqb_spec k0 k') as [->|Hne']; [|done].
    apply String.eqb_neq in Hne. rewrite String.eqb_sym in Hne. by rewrite Hne.
Qed.

Lemma table_get_app {V} (t1 t2 : list (string * V)) (k : string) :
  table_get (t1 ++ t2) k
  = match table_get t1 k with Some v => Some v | None => table_get t2 k end.
Proof.
  induction t1 as [|[k0 v0] t1 IH]; simpl; [done|]. by destruct (String.eqb k0 k).
Qed.

Lemma table_get_applySets sets (table : list (string * string)) (k : string) :
  table_get (applySets sets table) k
  = match table_get (rev sets) k with
    | Some v => Some v
    | None => table_get table k
    end.
Proof.
  revert table. induction sets as [|[k1 v1] sets IH]; intros table; [done|].
  simpl. rewrite (IH (map_set table k1 v1)), table_get_app, table_get_map_set. simpl.
  destruct (table_get (rev sets) k); [done|]. by destruct (String.eqb k1 k).
Qed.

Lemma map_set_key_list (table : list (string * string)) (k v : string) :
  map fst (map_set table k v)
  = if includes (map fst table) k then map fst table else map fst table ++ [k].
Proof.
  induction table as [|[k0 v0] table IH]; simpl; [done|].
  unfold includes in *. simpl. rewrite (String.eqb_sym k k0).
  destruct (String.eqb_spec k0 k) as [->|Hne]; simpl; [done|].
  rewrite IH. by destruct (existsb _ _).
Qed.

Lemma dedup_first_seen (seen seen' a : list string) :
  (∀ x, x ∈ seen ↔ x ∈ seen') → dedup_first seen a = dedup_first seen' a.
Proof.
  revert seen seen'. induction a as [|y a IH]; intros seen seen' H; simpl; [done|].
  assert (includes seen y = includes seen' y) as ->.
  { apply eq_true_iff_eq. rewrite !includes_spec. apply H. }
  destruct (includes seen' y); [by apply IH|]. f_equal. apply IH.
  intros x. rewrite !elem_of_cons, H. done.
Qed.

Lemma applySets_key_list sets (table : list (string * string)) :
  map fst (applySets sets table)
  = map fst table ++ dedup_first (map fst table) (map fst sets).
Proof.
  revert table. induction sets as [|[k v] sets IH]; intros table; simpl.
  - by rewrite app_nil_r.
  - rewrite IH, map_set_key_list.
    destruct (includes (map fst table) k); [done|].
    rewrite <- app_assoc. simpl. do 2 f_equal. apply dedup_first_seen.
    intros x. rewrite elem_of_app, !elem_of_cons, elem_of_nil. tauto.
Qed.

(** X25. What loading the configuration does to the alias table of an object:
    an alias then has the value of its last setting in the configuration,
    or, when the configuration does not set it, the value it had; the
    aliases that the object had keep their places, and the new ones follow
    in the order of their first setting. Nothing is ever removed, and the
    workspace path is left as it is. *)
Theorem loaded_alias_table (env : Env) (this : DependencyGraph) (workspacePath : string) :
  let loaded := loadTsConfigPaths env this workspacePath in
  let sets := configuredSets env workspacePath in
  (∀ alias, table_get loaded.(tsConfigPaths) alias
            = match table_get (rev sets) alias with
              | Some aliasPath => Some aliasPath
              | None => table_get this.(tsConfigPaths) alias
              end)
  ∧ map fst loaded.(tsConfigPaths)
    = map fst this.(tsConfigPaths)
      ++ dedup_first (map fst this.(tsConfigPaths)) (map fst sets)
  ∧ loaded.(Graph.workspacePath) = this.(Graph.workspacePath).
Proof.
  intros loaded sets. unfold loaded, sets, loadTsConfigPaths, configuredSets.
  destruct (readTsConfig env _) as [|entries]; simpl.
  - split; [done|]. by rewrite app_nil_r.
  - rewrite setAliases_effective. split; [|split; [|done]].
    + intros alias. apply table_get_applySets.
    + apply applySets_key_list.
Qed.

(** ** The text put into the webview *)

Lemma occurrences_app c a b : occurrences c (a +:+ b) = occurrences c a + occurrences c b.
Proof. induction a as [|d a IH]; simpl; [done|]. rewrite IH. lia. Qed.

Lemma replaceAllChar_removes c rep s :
  occurrences c rep = 0 → occurrences c (replaceAllChar c rep s) = 0.
Proof.
  intros Hrep. induction s as [|d s IH]; simpl; [done|].
  destruct (Ascii.eqb d c) eqn:Hd; simpl.
  - by rewrite occurrences_app, Hrep, IH.
  - by rewrite Hd, IH.
Qed.

Lemma replaceAllChar_keeps c rep x s :
  x ≠ c → occurrences x rep = 0 →
  occurrences x (replaceAllChar c rep s) = occurrences x s.
Proof.
  intros Hx Hrep. induction s as [|d s IH]; simpl; [done|].
  destruct (Ascii.eqb_spec d c) as [->|Hd]; simpl.
  - rewrite occurrences_app, Hrep, IH.
    destruct (Ascii.eqb_spec c x); [congruence | done].
  - by rewrite IH.
Qed.

Lemma replaceAllChar_absent c rep s : occurrences c s = 0 → replaceAllChar c rep s = s.
Proof.
  induction s as [|d s IH]; simpl; [done|].
  destruct (Ascii.eqb d c); simpl; [done|]. intros H. by rewrite IH.
Qed.

Lemma expand_replacement_other before matched after c rep :
  c ≠ "$"%char →
  Js.expand_replacement before matched after (String c rep)
  = String c (Js.expand_replacement before matched after rep).
Proof.
  intros Hc. destruct c as [[] [] [] [] [] [] [] []]; try done.
Qed.

Lemma expand_replacement_plain before matched after rep :
  occurrences "$" rep = 0 → Js.expand_replacement before matched after rep = rep.
Proof.
  induction rep as [|c rep IH]; [done|]. cbn [occurrences].
  destruct (Ascii.eqb_spec c "$") as [->|Hc]; [done|]. intros H.
  rewrite expand_replacement_other by done. by rewrite IH.
Qed.

Lemma prefix_app pat s :
  String.prefix pat s = true → s = pat +:+ Js.drop_chars (String.length pat) s.
Proof.
  revert s. induction pat as [|c pat IH]; intros s; [done|].
  destruct s as [|d s]; [done|]. cbn [String.prefix].
  destruct (Ascii.ascii_dec c d) as [->|]; [|done]. intros H.
  cbn [String.length Js.drop_chars]. change (String d pat +:+ ?t) with (String d (pat +:+ t)).
  f_equal. by apply IH.
Qed.

(** A replacement without [$] and without the character [x], for a pattern
    without [x], leaves the number of [x] as it is. *)
Lemma replace_every_occurrences x pat rep :
  pat ≠ "" → occurrences x pat = 0 → occurrences x rep = 0 → occurrences "$" rep = 0 →
  ∀ s before skip p rest,
    s = p +:+ rest → String.length p = skip → occurrences x p = 0 →
    occurrences x (Js.replace_every pat rep before skip s) = occurrences x s.
Proof.
  intros Hpat Hxp Hxr Hdr.
  induction s as [|c s IH]; intros before skip p rest Hs Hlen Hp; [done|].
  cbn [Js.replace_every]. destruct skip as [|k].
  - destruct (String.prefix pat (String c s)) eqn:Hpre.
    + rewrite expand_replacement_plain by done.
      rewrite occurrences_app, Hxr.
      apply prefix_app in Hpre. destruct pat as [|c0 pat']; [done|].
      cbn [String.length Js.drop_chars] in Hpre.
      change (String c0 pat' +:+ ?t) with (String c0 (pat' +:+ t)) in Hpre.
      injection Hpre as -> Hs'.
      cbn [occurrences] in Hxp. cbn [String.length].
      replace (S (String.length pat') - 1) with (String.length pat') by lia.
      rewrite (IH _ _ pat' (Js.drop_chars (String.length pat') s)); [|done|done|lia].
      cbn [occurrences]. lia.
    + cbn [occurrences]. by rewrite (IH _ 0 "" s).
  - destruct p as [|d p]; [done|]. 
    change (String d p +:+ rest) with (String d (p +:+ rest)) in Hs.
    injection Hs as -> ->. cbn [occurrences String.length] in *.
    rewrite (IH _ k p rest); [lia|done|lia|lia].
Qed.

Lemma jsLength_app a b : Js.length (a +:+ b) = Js.length a + Js.length b.
Proof. induction a as [|c a IH]; simpl; [done|]. rewrite IH. lia. Qed.

Lemma replaceAllChar_jsLength c rep s :
  Js.codeUnits c = 1 → (1 ≤ Js.length rep)%nat →
  Js.length (replaceAllChar c rep s) = Js.length s + occurrences c s * (Js.length rep - 1).
Proof.
  intros Hc Hrep. induction s as [|d s IH]; [done|].
  cbn [replaceAllChar occurrences Js.length].
  destruct (Ascii.eqb_spec d c) as [->|Hd].
  - rewrite jsLength_app, IH, Hc. lia.
  - cbn [Js.length]. rewrite IH. lia.
Qed.

(** X26. [graphDataJson], the escaped JSON text of the graph, holds no
    angle bracket: each bracket of the JSON text has become four
    characters, and a JSON text without brackets is left as it is. When
    the JSON text holds no [$], putting it in the place of the [GRAPHDATA]
    placeholders adds no angle bracket: the text after the replacement
    has as many [<] and as many [>] as the text [html] before it. *)
Theorem graph_json_has_no_angle_brackets (json html : string) :
  occurrences "<" (escapeGraphJson json) = 0
  ∧ occurrences ">" (escapeGraphJson json) = 0
  ∧ Js.length (escapeGraphJson json)
    = Js.length json + 3 * (occurrences "<" json + occurrences ">" json)
  ∧ (occurrences "<" json + occurrences ">" json = 0 → escapeGraphJson json = json)
  ∧ (occurrences "$" json = 0 →
     occurrences "<" (insertGraphData html json) = occurrences "<" html
     ∧ occurrences ">" (insertGraphData html json) = occurrences ">" html).
Proof.
  assert (occurrences "<" (escapeGraphJson json) = 0) as Hlt.
  { unfold escapeGraphJson. rewrite replaceAllChar_keeps; [|done|done].
    by apply replaceAllChar_removes. }
  assert (occurrences ">" (escapeGraphJson json) = 0) as Hgt.
  { unfold escapeGraphJson. by apply replaceAllChar_removes. }
  split; [done|]. split; [done|]. split; [|split].
  - unfold escapeGraphJson. rewrite !replaceAllChar_jsLength by (try reflexivity; vm_compute; lia).
    rewrite replaceAllChar_keeps; [|done|done].
    change (Js.length "&lt;") with 4. change (Js.length "&gt;") with 4. lia.
  - intros H. unfold escapeGraphJson.
    rewrite (replaceAllChar_absent "<"), replaceAllChar_absent; [done|lia|lia].
  - intros Hd.
    assert (occurrences "$" (escapeGraphJson json) = 0) as Hd'.
    { unfold escapeGraphJson. by rewrite !replaceAllChar_keeps. }
    unfold insertGraphData, Js.replaceAll.
    split; apply (replace_every_occurrences _ placeholder _) with (p := "") (rest := html);
      done.
Qed.

(** The condition on [$] is needed: [replace] expands [$'] in the
    replacement text to the text that follows the match, so a name with
    [$'] copies the end of the template, with its tag, into the page. *)
Example dollar_pattern_copies_template :
  insertGraphData pageTemplate (namedJson "$'.ts")
  = "<script>const graphData = {" +:+ quoted "id" +:+ ":" +:+ String "034" ";</script>.ts"
    +:+ String "034" "};</script>"
  ∧ occurrences "<" pageTemplate = 2
  ∧ occurrences "<" (insertGraphData pageTemplate (namedJson "$'.ts")) = 3.
Proof. repeat split; vm_compute; reflexivity. Qed.

(** ** The directories searched for a Java class *)

Lemma drop_while_all (f : ascii → bool) (pre suf : list ascii) :
  forallb f pre = true → Path.drop_while f (pre ++ suf) = Path.drop_while f suf.
Proof.
  induction pre as [|c pre IH]; [done|]. simpl. intros [Hc Hp]%andb_true_iff.
  rewrite Hc. by apply IH.
Qed.

Lemma string_app_assoc (a b c : string) : (a +:+ b) +:+ c = a +:+ (b +:+ c).
Proof.
  induction a as [|d a IH]; [done|].
  change (String d ((a +:+ b) +:+ c) = String d (a +:+ (b +:+ c))). by f_equal.
Qed.

Lemma join_snoc (l : list string) (x : string) :
  l ≠ [] → Js.join "/" (l ++ [x]) = Js.join "/" l +:+ String "/" x.
Proof.
  induction l as [|y l IH]; [done|]. intros _. destruct l as [|z l]; [done|].
  change ((y :: z :: l) ++ [x]) with (y :: (z :: l) ++ [x]).
  change (Js.join "/" (y :: (z :: l) ++ [x]))
    with (y +:+ String "/" (Js.join "/" ((z :: l) ++ [x]))).
  rewrite IH by done. rewrite join_cons.
  change (String "/" ?t) with ("/" +:+ t).
  by rewrite !string_app_assoc.
Qed.

Lemma join_valid_nonempty (l : list string) :
  l ≠ [] → forallb valid_name l = true → list_ascii_of_string (Js.join "/" l) ≠ [].
Proof.
  destruct l as [|x l]; [done|]. intros _ [Hx _]%andb_true_iff.
  destruct (valid_name_inv x Hx) as (Hne & _).
  destruct x as [|c x]; [done|]. by destruct l.
Qed.

Lemma dirname_abs_path (l : list string) (x : string) :
  forallb valid_name l = true → valid_name x = true →
  Path.dirname (abs_path (l ++ [x])) = abs_path l.
Proof.
  intros Hl Hx.
  pose proof (valid_name_no_slash x Hx) as Hns. unfold no_slash in Hns.
  destruct (valid_name_inv x Hx) as (Hne & _).
  assert (forallb (λ c, negb (Path.is_slash c)) (rev (list_ascii_of_string x)) = true) as Hrev.
  { apply forallb_forall. intros c Hc%in_rev. rewrite forallb_forall in Hns. by apply Hns. }
  destruct (rev (list_ascii_of_string x)) as [|c r] eqn:Hcx.
  { apply (f_equal (@rev ascii)) in Hcx. rewrite rev_involutive in Hcx.
    by destruct x. }
  simpl in Hrev. apply andb_true_iff in Hrev as [Hc Hr].
  apply negb_true_iff in Hc as Hc'.
  change (abs_path (l ++ [x])) with (String "/" (Js.join "/" (l ++ [x]))).
  unfold Path.dirname. cbn [list_ascii_of_string].
  change (Path.is_slash "/") with true. cbn [andb].
  destruct l as [|y l].
  - change (Js.join "/" ([] ++ [x])) with x. rewrite Hcx.
    cbn [Path.drop_while]. rewrite Hc'. cbn [Path.drop_while]. rewrite Hc'. cbn [negb].
    rewrite <- (app_nil_r r), drop_while_all by done. done.
  - rewrite join_snoc, list_ascii_app by done. cbn [list_ascii_of_string].
    rewrite rev_app_distr. cbn [rev]. rewrite <- !app_assoc, Hcx. cbn [app].
    cbn [Path.drop_while]. rewrite Hc'. cbn [Path.drop_while]. rewrite Hc'. cbn [negb].
    rewrite drop_while_all by done. cbn [Path.drop_while].
    change (negb (Path.is_slash "/")) with false. cbv iota.
    destruct (rev (list_ascii_of_string (Js.join "/" (y :: l)))) as [|d rest] eqn:Hr2.
    + exfalso. apply (join_valid_nonempty (y :: l)); [done | done |].
      apply (f_equal (@rev ascii)) in Hr2. by rewrite rev_involutive in Hr2.
    + change (length (d :: rest) =? 0)%nat with false. cbv iota.
      rewrite <- Hr2, rev_involutive. cbn [string_of_list_ascii].
      by rewrite string_of_list_ascii_of_string.
Qed.

Lemma searchedDirs_upward (n : nat) (segs : list string) :
  forallb valid_name segs = true →
  searchedDirs n (abs_path segs) = map abs_path (upward n segs).
Proof.
  revert segs. induction n as [|n IH]; intros segs Hv; [done|].
  cbn [searchedDirs upward map]. f_equal.
  destruct segs as [|s segs] using rev_ind.
  { assert (Path.dirname (abs_path []) = abs_path []) as -> by reflexivity.
    by rewrite String.eqb_refl. }
  clear IHsegs.
  apply forallb_valid_app in Hv as [Hv Hs]. simpl in Hs. rewrite andb_true_r in Hs.
  rewrite dirname_abs_path by done.
  destruct (String.eqb_spec (abs_path segs) (abs_path (segs ++ [s]))) as [Heq|_].
  { apply abs_path_inj in Heq; [|done|].
    - apply (f_equal (@List.length _)) in Heq. rewrite length_app in Heq. simpl in Heq. lia.
    - apply forallb_valid_app. split; [done|]. simpl. by rewrite Hs. }
  rewrite removelast_last.
  destruct (segs ++ [s]) eqn:Hd; [by destruct segs|]. by apply IH.
Qed.

Lemma upward_length (n : nat) (segs : list string) :
  List.length (upward n segs) = Nat.min n (S (List.length segs)).
Proof.
  revert segs. induction n as [|n IH]; intros segs; [done|].
  destruct segs as [|s segs] using rev_ind; [simpl; lia|]. clear IHsegs.
  cbn [upward]. destruct (segs ++ [s]) eqn:Hd; [by destruct segs|]. rewrite <- Hd.
  rewrite removelast_last. cbn [List.length]. rewrite IH, length_app. simpl. lia.
Qed.

(** X22. [resolveJavaImport] looks for the class file (the last part of the
    dotted name, below the directories of the parts before it) in the
    directory of the file and then in its ancestors, nearest first, in
    ten directories at most and not beyond the root; the first one found
    is the result. For a directory given by valid segments below the
    root these are the directory, its parent and so on: all of them up to
    the root when the directory is less than ten levels deep, the nearest
    ten otherwise. *)
Theorem resolveJavaImport_nearest_ancestor (env : Env) (ws : string)
    (importPath currentDir : string) :
  resolveJavaImport env ws importPath currentDir
  = relativeToWorkspace env ws <$>
      find_first (fileExists env) (map (classFile importPath) (searchedDirs 10 currentDir))
  ∧ (List.length (searchedDirs 10 currentDir) ≤ 10)%nat
  ∧ head (searchedDirs 10 currentDir) = Some currentDir
  ∧ ∀ segs, forallb valid_name segs = true →
      searchedDirs 10 (abs_path segs) = map abs_path (upward 10 segs)
      ∧ List.length (upward 10 segs) = Nat.min 10 (S (List.length segs)).
Proof.
  split; [|split; [apply searchedDirs_length | split; [done|]]].
  - unfold resolveJavaImport. by rewrite javaWalk_candidates.
  - intros segs Hv. split; [by apply searchedDirs_upward | apply upward_length].
Qed.


(** ** Edge keys of identifiers without the separator *)

(** X13. When no identifier of a file contains the text [->], the edges count
    the references pair by pair: for distinct identifiers a and b, b not
    empty, there is no edge from a to b when no reference of a file with
    identifier a is sent to b, and otherwise exactly one edge, whose
    count is the number k of these references and whose value is
    min(k, 5). *)
Theorem arrow_free_identifiers_aggregate (extract : CodeFile → list DependencyInfo)
    (files : list CodeFile) (a b : string) :
  Forall (λ f, contains_arrow (getNodeId f.(relativePath)) = false) files →
  a ≠ b → b ≠ "" →
  let k := List.length (refs_between extract files a b) in
  map tally (edges_between (assemble extract files).(edges) a b)
  = if (k =? 0)%nat then [] else [(a, b, Some k, Nat.min k 5)].
Proof.
  intros Hfree Hab Hb. apply edges_aggregate_references; [|done|done].
  intros ev ev' t t' Hev Hev' _ _ Hkey.
  apply elem_of_events in Hev as [Hf _]. apply elem_of_events in Hev' as [Hf' _].
  rewrite Forall_forall in Hfree.
  apply edgeKey_inj; [by apply Hfree | by apply Hfree | done].
Qed.

Lemma backslashes_to_slashes_plain s : no_backslash (Js.backslashes_to_slashes s) = true.
Proof.
  unfold no_backslash. induction s as [|c s IH]; [done|]. simpl.
  rewrite IH, andb_true_r. destruct (Ascii.eqb c "\") eqn:Hc; [done | by rewrite Hc].
Qed.

(** X7. Identifiers are normalised: no identifier of a node and no end of an
    edge contains a backslash, and normalising an identifier again leaves
    it as it is. *)
Theorem identifiers_have_no_backslash (extract : CodeFile → list DependencyInfo)
    (files : list CodeFile) :
  let g := assemble extract files in
  Forall (λ n, no_backslash n.(n_id) = true ∧ getNodeId n.(n_id) = n.(n_id)) g.(nodes)
  ∧ Forall (λ e, no_backslash e.(e_from) = true ∧ no_backslash e.(e_to) = true) g.(edges).
Proof.
  intros g.
  assert (∀ i, i ∈ map n_id g.(nodes) → no_backslash i = true) as Hids.
  { intros i Hi. unfold g in Hi. rewrite assemble_node_ids in Hi.
    apply elem_of_map in Hi as (f & -> & _). apply backslashes_to_slashes_plain. }
  split.
  - apply Forall_forall. intros n Hn.
    assert (no_backslash (n_id n) = true) as H by by apply Hids, elem_of_map_2.
    split; [done | by apply getNodeId_plain].
  - apply Forall_forall. intros e He.
    destruct (assemble_edge_ends extract files e He) as [Hf Ht].
    split; by apply Hids.
Qed.

(** ** The properties at concrete inputs *)

Lemma flagged_edges_lie_on_cycles_witness :
  let g := assemble (extractorOf chordWorld) (scannedFiles chordWorld) in
  chordEdge ∈ g.(edges)
  ∧ tc (edge_rel g.(edges)) "b.ts" "a.ts" ∧ on_cycle g.(edges) "a.ts".
Proof.
  intros g.
  assert (chordEdge ∈ g.(edges)) as He by (vm_compute; left).
  split; [exact He|].
  exact (flagged_edges_lie_on_cycles (extractorOf chordWorld) (scannedFiles chordWorld)
           chordEdge He eq_refl).
Defined.

Lemma edges_are_proper_witness :
  let g := assemble (extractorOf chordWorld) (scannedFiles chordWorld) in
  chordEdge ∈ g.(edges) ∧ proper chordEdge.
Proof.
  intros g.
  assert (chordEdge ∈ g.(edges)) as He by (vm_compute; left).
  split; [exact He|].
  exact (edges_are_proper (extractorOf chordWorld) (scannedFiles chordWorld) chordEdge He).
Defined.

Lemma extracted_types_by_language_witness :
  table_get referenceTypes rubyFile.(language) = None
  ∧ extractDependencies (env chordWorld) "/ws" freshGraph rubyFile = [].
Proof.
  split; [reflexivity|].
  exact (proj2 (extracted_types_by_language (env chordWorld) "/ws" freshGraph rubyFile)
           eq_refl).
Defined.

Lemma ignored_entries_are_never_read_witness :
  forallb valid_name ["ws"] = true
  ∧ forallb valid_entry unreadableFileEntries = true
  ∧ scanWorkspace "/" (abs_path ["ws"]) (Some (flat_map strip unreadableFileEntries))
    = scanWorkspace "/" (abs_path ["ws"]) (Some unreadableFileEntries).
Proof.
  split; [reflexivity|]. split; [reflexivity|].
  exact (ignored_entries_are_never_read "/" ["ws"] unreadableFileEntries eq_refl eq_refl).
Defined.

Lemma identifiers_are_unique_witness :
  NoDup (map entry_name chordEntries)
  ∧ NoDup (map relativePath (scannedFiles chordWorld))
  ∧ NoDup (map n_id (assemble (extractorOf chordWorld) (scannedFiles chordWorld)).(nodes)).
Proof.
  assert (NoDup (map entry_name chordEntries)) as Hnd.
  { refine (bool_decide_unpack _ _). vm_compute. exact I. }
  split; [exact Hnd|].
  destruct (identifiers_are_unique "/" ["ws"] chordEntries (scannedFiles chordWorld)
              (extractorOf chordWorld) eq_refl eq_refl Hnd eq_refl eq_refl) as [H1 H2].
  split; [exact H1 | exact (H2 eq_refl)].
Defined.

Lemma graph_json_has_no_angle_brackets_witness :
  occurrences "$" (namedJson "a<b>.ts") = 0
  ∧ insertGraphData pageTemplate (namedJson "a<b>.ts")
    = "<script>const graphData = {" +:+ quoted "id" +:+ ":" +:+ quoted "a&lt;b&gt;.ts"
      +:+ "};</script>"
  ∧ occurrences "<" (insertGraphData pageTemplate (namedJson "a<b>.ts"))
    = occurrences "<" pageTemplate.
Proof.
  split; [reflexivity|]. split; [vm_compute; reflexivity|].
  exact (proj1 (proj2 (proj2 (proj2 (proj2
           (graph_json_has_no_angle_brackets (namedJson "a<b>.ts") pageTemplate)))) eq_refl)).
Defined.

Lemma resolveJavaImport_nearest_ancestor_witness :
  forallb valid_name ["ws"; "src"] = true
  ∧ searchedDirs 10 (abs_path ["ws"; "src"]) = ["/ws/src"; "/ws"; "/"].
Proof.
  split; [reflexivity|].
  exact (proj1 (proj2 (proj2 (proj2
           (resolveJavaImport_nearest_ancestor (env chordWorld) "/ws" "a.B" "/ws/src")))
           ["ws"; "src"] eq_refl)).
Defined.

Lemma arrow_free_identifiers_aggregate_witness :
  Forall (λ f, contains_arrow (getNodeId f.(relativePath)) = false) (scannedFiles twiceWorld)
  ∧ map tally (edges_between
                 (assemble (extractorOf twiceWorld) (scannedFiles twiceWorld)).(edges)
                 "a.ts" "b.ts")
    = [("a.ts", "b.ts", Some 2, 2)].
Proof.
  assert (Forall (λ f, contains_arrow (getNodeId f.(relativePath)) = false)
            (scannedFiles twiceWorld)) as Hfree.
  { vm_compute. repeat constructor. }
  split; [exact Hfree|].
  exact (arrow_free_identifiers_aggregate (extractorOf twiceWorld) (scannedFiles twiceWorld)
           "a.ts" "b.ts" Hfree ltac:(done) ltac:(done)).
Defined.
